(** * The password-based encryption codec of [cli/crypt.py]

    A shallow embedding of [encrypt] and [decrypt] together with the
    primitives they call: the interpreter's [str]/[bytes] codecs
    (UTF-8, base64), [os.urandom], PBKDF2-HMAC-SHA-256 and AES-GCM.

    Conventions.
    - [bytes] is [list byte]; a Python [str] is the list of its code
      points ([list N]).  Lone surrogates are representable, as they are
      in Python, and are refused by the UTF-8 encoder.
    - Numbers inside the primitives are [N] with the wrap-around written
      out.
    - A computation is a function from the [World] (the entropy tape of
      the operating system and the log of the calls made to the
      cryptographic library) to an [Outcome] and the new [World].
    - The primitives follow their standards: FIPS 180-4 (SHA-256),
      RFC 2104 (HMAC), RFC 8018 (PBKDF2), FIPS 197 (AES), NIST SP 800-38D
      (GCM), RFC 4648 and CPython's [binascii] (base64), and CPython's
      UTF-8 codec.  The size limit that the AEAD binding puts on one
      message (2^31 - 1 bytes) is outside the model.

    The file also embeds the command line of [cli/crypt.py], the base32
    decoder, the seed file reader and the TOTP generator of
    [cli/codegen/code_generator.py] (with SHA-1, FIPS 180-4), and
    [parse_totp_url] of [cli/qr_parse.py], whose two calls into
    [urllib.parse] are parameters of the model. *)

From Stdlib Require Import List NArith ZArith Arith Lia Bool String Ascii.
From Stdlib Require Import Strings.Byte.
Import ListNotations.

(* ------------------------------------------------------------------ *)
(** ** Bytes *)

Definition bytes := list byte.

Definition byte_of_N (n : N) : byte :=
  match Byte.of_N (n mod 256) with
  | Some b => b
  | None => x00
  end.

Definition byte_xor (a b : byte) : byte :=
  byte_of_N (N.lxor (Byte.to_N a) (Byte.to_N b)).

(** Pointwise xor, cut to the shorter operand. *)
Fixpoint xor_bytes (x y : bytes) : bytes :=
  match x, y with
  | a :: x', b :: y' => byte_xor a b :: xor_bytes x' y'
  | _, _ => []
  end.

Definition bytes_eqb (x y : bytes) : bool :=
  if list_eq_dec Byte.byte_eq_dec x y then true else false.

(** Big-endian number of a byte string, and the [len]-byte big-endian
    string of a number (reduced modulo [256^len]). *)
Definition N_of_bytes (bs : bytes) : N :=
  fold_left (fun acc b => acc * 256 + Byte.to_N b)%N bs 0%N.

Fixpoint bytes_of_N (len : nat) (n : N) : bytes :=
  match len with
  | O => []
  | S len' => bytes_of_N len' (n / 256) ++ [byte_of_N n]
  end.

(** [b[i:j]] for [0 <= i <= j]. *)
Definition slice (i j : nat) (b : bytes) : bytes := firstn (j - i) (skipn i b).

(** Consecutive chunks of [n] bytes; the last one may be shorter.  [fuel]
    bounds the number of chunks. *)
Fixpoint chunks {A} (fuel n : nat) (b : list A) : list (list A) :=
  match fuel, b with
  | O, _ => []
  | _, [] => []
  | S fuel', _ => firstn n b :: chunks fuel' n (skipn n b)
  end.

Definition blocks_of {A} (n : nat) (b : list A) : list (list A) :=
  chunks (List.length b) n b.

Definition all_bytes : bytes := map (fun n => byte_of_N (N.of_nat n)) (seq 0 256).

(* ------------------------------------------------------------------ *)
(** ** Text *)

(** A Python [str]: its code points. *)
Definition str := list N.

Definition ord (c : ascii) : N := N_of_ascii c.

(** A literal: the [str] with the code points of an ASCII literal. *)
Fixpoint lit (s : string) : str :=
  match s with
  | EmptyString => []
  | String c s' => ord c :: lit s'
  end.

Definition ascii_of_byte (b : byte) : ascii := ascii_of_N (Byte.to_N b).

Definition hex_digit (n : N) : ascii :=
  ascii_of_N (if (n <? 10)%N then 48 + n else 87 + n).

(** [format(n, '0kx')]: [k] lower-case hexadecimal digits. *)
Fixpoint hex_fixed (k : nat) (n : N) : string :=
  match k with
  | O => EmptyString
  | S k' => (hex_fixed k' (n / 16) ++ String (hex_digit (n mod 16)) EmptyString)%string
  end.

Fixpoint dec_digits (fuel : nat) (n : N) (acc : string) : string :=
  match fuel with
  | O => acc
  | S fuel' =>
      let acc' := String (ascii_of_N (48 + n mod 10)) acc in
      if (n <? 10)%N then acc' else dec_digits fuel' (n / 10) acc'
  end.

(** [str(n)] for a non-negative integer. *)
Definition dec (n : nat) : string :=
  dec_digits (S n) (N.of_nat n) EmptyString.

(* ------------------------------------------------------------------ *)
(** ** Exceptions and computations *)

(** The exceptions that the code and the primitives it calls can raise,
    each with the text that [str(e)] gives.  All of them derive from
    [Exception]; [InvalidTag] (of the cryptographic library) carries no
    text. *)
Inductive exn : Type :=
| CryptException (msg : string)
| InvalidTag
| binascii_Error (msg : string)
| ValueError (msg : string)
| UnicodeEncodeError (msg : string)
| UnicodeDecodeError (msg : string).

Definition str_of_exn (e : exn) : string :=
  match e with
  | CryptException m | binascii_Error m | ValueError m
  | UnicodeEncodeError m | UnicodeDecodeError m => m
  | InvalidTag => EmptyString
  end.

Inductive Outcome (A : Type) : Type :=
| Return (a : A)
| Raise (e : exn).
Arguments Return {A} a.
Arguments Raise {A} e.

(** Calls into the operating system and the cryptographic library, in
    the order they are made. *)
Inductive Call : Type :=
| call_urandom (n : nat)
| call_pbkdf2_derive
| call_aesgcm_encrypt
| call_aesgcm_decrypt.

Record World : Type := mkWorld {
  entropy : nat -> byte;   (* the bytes the system's generator will give *)
  cursor : nat;            (* how many of them have been drawn *)
  calls : list Call        (* the calls made so far, oldest first *)
}.

Definition Py (A : Type) : Type := World -> Outcome A * World.

Definition ret {A} (a : A) : Py A := fun w => (Return a, w).
Definition raise {A} (e : exn) : Py A := fun w => (Raise e, w).

Definition bind {A B} (m : Py A) (k : A -> Py B) : Py B :=
  fun w =>
    match m w with
    | (Return a, w') => k a w'
    | (Raise e, w') => (Raise e, w')
    end.

(** A pure step that can raise. *)
Definition lift {A} (o : Outcome A) : Py A := fun w => (o, w).

(** [try: body  except ...: handler]. *)
Definition try_except {A} (body : Py A) (handler : exn -> Py A) : Py A :=
  fun w =>
    match body w with
    | (Return a, w') => (Return a, w')
    | (Raise e, w') => handler e w'
    end.

Definition log (c : Call) : Py unit :=
  fun w => (Return tt, mkWorld (entropy w) (cursor w) (calls w ++ [c])).

Declare Scope py_scope.
Delimit Scope py_scope with py.
Notation "x <- m ;; k" := (bind m (fun x => k))
  (at level 61, m at next level, right associativity) : py_scope.
Notation "m ;;; k" := (bind m (fun _ => k))
  (at level 61, right associativity) : py_scope.

(** The next [n] bytes of the entropy tape. *)
Definition drawn (w : World) (n : nat) : bytes :=
  map (fun i => entropy w (cursor w + i)) (seq 0 n).

(** [os.urandom(n)]. *)
Definition urandom (n : nat) : Py bytes :=
  fun w =>
    (Return (drawn w n),
     mkWorld (entropy w) (cursor w + n) (calls w ++ [call_urandom n])).

(* ------------------------------------------------------------------ *)
(** ** SHA-256 (FIPS 180-4) *)

Module SHA256.
Local Open Scope N_scope.

Definition add32 (a b : N) : N := (a + b) mod 0x100000000.
Definition rotr (n x : N) : N :=
  N.lor (N.shiftr x n) (N.land (N.shiftl x (32 - n)) 0xFFFFFFFF).
Definition shr (n x : N) : N := N.shiftr x n.
Definition not32 (x : N) : N := N.lxor x 0xFFFFFFFF.

Definition Ch (x y z : N) : N := N.lxor (N.land x y) (N.land (not32 x) z).
Definition Maj (x y z : N) : N :=
  N.lxor (N.lxor (N.land x y) (N.land x z)) (N.land y z).
Definition Sigma0 (x : N) : N := N.lxor (N.lxor (rotr 2 x) (rotr 13 x)) (rotr 22 x).
Definition Sigma1 (x : N) : N := N.lxor (N.lxor (rotr 6 x) (rotr 11 x)) (rotr 25 x).
Definition sigma0 (x : N) : N := N.lxor (N.lxor (rotr 7 x) (rotr 18 x)) (shr 3 x).
Definition sigma1 (x : N) : N := N.lxor (N.lxor (rotr 17 x) (rotr 19 x)) (shr 10 x).

(** The constants are defined as the standard does: the first 32 bits of
    the fractional parts of the cube roots (for [K]) and of the square
    roots (for [H0]) of the first primes. *)
Definition is_prime (n : nat) : bool :=
  forallb (fun d => negb (n mod d =? 0)%nat) (seq 2 (n - 2)).

Definition primes : list N := map N.of_nat (filter is_prime (seq 2 310)).

(** The integer cube root of [x], found bit by bit from bit [n - 1] down. *)
Fixpoint cube_root_bits (n : nat) (x r : N) : N :=
  match n with
  | O => r
  | S n' =>
      let r' := r + 2 ^ N.of_nat n' in
      cube_root_bits n' x (if r' * r' * r' <=? x then r' else r)
  end.

Definition K : list N :=
  Eval vm_compute in
    map (fun p => cube_root_bits 40 (p * 2 ^ 96) 0 mod 2 ^ 32) primes.

Definition state : Type := (N * N * N * N * N * N * N * N)%type.

Definition H0 : state :=
  Eval vm_compute in
    match map (fun p => N.sqrt (p * 2 ^ 64) mod 2 ^ 32) (firstn 8 primes) with
    | [a; b; c; d; e; f; g; h] => (a, b, c, d, e, f, g, h)
    | _ => (0, 0, 0, 0, 0, 0, 0, 0)
    end.

(** The message schedule: [n] more words after the ones in [ws]. *)
Fixpoint schedule (n : nat) (ws : list N) : list N :=
  match n with
  | O => ws
  | S n' =>
      let t := List.length ws in
      let w i := nth (t - i) ws 0 in
      schedule n' (ws ++ [add32 (add32 (sigma1 (w 2%nat)) (w 7%nat))
                                (add32 (sigma0 (w 15%nat)) (w 16%nat))])
  end.

Definition round (s : state) (kw : N * N) : state :=
  let '(a, b, c, d, e, f, g, h) := s in
  let '(k, w) := kw in
  let T1 := add32 (add32 (add32 h (Sigma1 e)) (add32 (Ch e f g) k)) w in
  let T2 := add32 (Sigma0 a) (Maj a b c) in
  (add32 T1 T2, a, b, c, add32 d T1, e, f, g).

Definition compress (s : state) (block : bytes) : state :=
  let ws := schedule 48 (map N_of_bytes (blocks_of 4 block)) in
  let '(a, b, c, d, e, f, g, h) := fold_left round (combine K ws) s in
  let '(a0, b0, c0, d0, e0, f0, g0, h0) := s in
  (add32 a0 a, add32 b0 b, add32 c0 c, add32 d0 d,
   add32 e0 e, add32 f0 f, add32 g0 g, add32 h0 h).

(** Padding: a one bit, zeros up to 56 modulo 64, the bit length on 64 bits. *)
Definition pad (msg : bytes) : bytes :=
  let len := List.length msg in
  let zeros := ((119 - len mod 64) mod 64)%nat in
  msg ++ [x80] ++ repeat x00 zeros ++ bytes_of_N 8 (8 * N.of_nat len).

Definition digest (s : state) : bytes :=
  let '(a, b, c, d, e, f, g, h) := s in
  bytes_of_N 4 a ++ bytes_of_N 4 b ++ bytes_of_N 4 c ++ bytes_of_N 4 d ++
  bytes_of_N 4 e ++ bytes_of_N 4 f ++ bytes_of_N 4 g ++ bytes_of_N 4 h.

Definition sha256 (msg : bytes) : bytes :=
  digest (fold_left compress (blocks_of 64 (pad msg)) H0).

Definition block_size : nat := 64.
Definition digest_size : nat := 32.
End SHA256.

(* ------------------------------------------------------------------ *)
(** ** HMAC (RFC 2104) and PBKDF2 (RFC 8018, section 5.2) *)

(** The key block: a key longer than the hash's block is hashed first,
    and the key is then filled with zero bytes up to the block size. *)
Definition hmac_key_block (key : bytes) : bytes :=
  let k := if (SHA256.block_size <? List.length key)%nat then SHA256.sha256 key else key in
  k ++ repeat x00 (SHA256.block_size - List.length k).

Definition hmac_sha256 (key msg : bytes) : bytes :=
  let k0 := hmac_key_block key in
  SHA256.sha256 (map (byte_xor x5c) k0 ++ SHA256.sha256 (map (byte_xor x36) k0 ++ msg)).

(** [F(P, S, c, i)] of RFC 8018: the xor of the [c] iterates of the
    pseudorandom function, started from [S || INT(i)]. *)
Definition pbkdf2_F (prf : bytes -> bytes) (salt : bytes) (c : N) (i : N) : bytes :=
  let u1 := prf (salt ++ bytes_of_N 4 i) in
  snd (N.iter (c - 1) (fun ut => let u := prf (fst ut) in (u, xor_bytes (snd ut) u)) (u1, u1)).

Definition pbkdf2 (prf : bytes -> bytes) (hLen : nat) (salt : bytes) (c : N) (dkLen : nat) : bytes :=
  let l := ((dkLen + hLen - 1) / hLen)%nat in
  firstn dkLen (flat_map (fun i => pbkdf2_F prf salt c (N.of_nat (S i))) (seq 0 l)).

(** [PBKDF2HMAC(algorithm=SHA256(), length, salt, iterations).derive(key_material)]. *)
Definition PBKDF2HMAC_SHA256_derive (length : nat) (salt : bytes) (iterations : N)
    (key_material : bytes) : bytes :=
  pbkdf2 (hmac_sha256 key_material) SHA256.digest_size salt iterations length.

(* ------------------------------------------------------------------ *)
(** ** AES (FIPS 197) *)

Module AES.
Local Open Scope N_scope.

(** Arithmetic of GF(2^8) modulo x^8 + x^4 + x^3 + x + 1. *)
Definition xtime (a : N) : N :=
  let a2 := N.land (N.shiftl a 1) 0xFF in
  if N.testbit a 7 then N.lxor a2 0x1b else a2.

Fixpoint gmul_bits (n : nat) (a b : N) : N :=
  match n with
  | O => 0
  | S n' => N.lxor (if N.odd b then a else 0) (gmul_bits n' (xtime a) (N.shiftr b 1))
  end.
Definition gmul (a b : N) : N := gmul_bits 8 a b.

(** The multiplicative inverse [a^254] (and 0 for 0). *)
Definition ginv (a : N) : N :=
  let a2 := gmul a a in let a4 := gmul a2 a2 in let a8 := gmul a4 a4 in
  let a16 := gmul a8 a8 in let a32 := gmul a16 a16 in let a64 := gmul a32 a32 in
  let a128 := gmul a64 a64 in
  gmul a2 (gmul a4 (gmul a8 (gmul a16 (gmul a32 (gmul a64 a128))))).

Definition rotl8 (n x : N) : N :=
  N.lor (N.land (N.shiftl x n) 0xFF) (N.shiftr x (8 - n)).

Definition sbox (b : N) : N :=
  let i := ginv b in
  N.lxor (N.lxor (N.lxor (N.lxor (N.lxor i (rotl8 1 i)) (rotl8 2 i)) (rotl8 3 i)) (rotl8 4 i)) 0x63.

Fixpoint xor_list (x y : list N) : list N :=
  match x, y with
  | a :: x', b :: y' => N.lxor a b :: xor_list x' y'
  | _, _ => []
  end.

(** The state is the list of its 16 bytes in input order: the byte of
    row [r] and column [c] is at index [r + 4c]. *)
Definition sub_bytes (s : list N) : list N := map sbox s.

Definition shift_rows (s : list N) : list N :=
  map (fun i => nth (i mod 4 + 4 * ((i / 4 + i mod 4) mod 4))%nat s 0) (seq 0 16).

Definition mix_column (col : list N) : list N :=
  match col with
  | [a0; a1; a2; a3] =>
      [N.lxor (N.lxor (gmul 2 a0) (gmul 3 a1)) (N.lxor a2 a3);
       N.lxor (N.lxor a0 (gmul 2 a1)) (N.lxor (gmul 3 a2) a3);
       N.lxor (N.lxor a0 a1) (N.lxor (gmul 2 a2) (gmul 3 a3));
       N.lxor (N.lxor (gmul 3 a0) a1) (N.lxor a2 (gmul 2 a3))]
  | _ => col
  end.

Definition mix_columns (s : list N) : list N := flat_map mix_column (blocks_of 4 s).

Definition rot_word (w : list N) : list N :=
  match w with
  | a :: w' => w' ++ [a]
  | [] => []
  end.

Definition rcon (j : nat) : list N := [Nat.iter (j - 1) xtime 1; 0; 0; 0].

(** Key expansion: [n] more words after the ones in [ws]. *)
Fixpoint expand (n Nk : nat) (ws : list (list N)) : list (list N) :=
  match n with
  | O => ws
  | S n' =>
      let i := List.length ws in
      let temp := nth (i - 1) ws [] in
      let temp' :=
        if (i mod Nk =? 0)%nat then xor_list (map sbox (rot_word temp)) (rcon (i / Nk))
        else if ((6 <? Nk) && (i mod Nk =? 4))%nat%bool then map sbox temp
        else temp in
      expand n' Nk (ws ++ [xor_list (nth (i - Nk) ws []) temp'])
  end.

Definition round_key (ws : list (list N)) (r : nat) : list N :=
  List.concat (firstn 4 (skipn (4 * r) ws)).

(** [Cipher] of FIPS 197 for a key of [4 Nk] bytes. *)
Definition cipher (key input : list N) : list N :=
  let Nk := (List.length key / 4)%nat in
  let Nr := (Nk + 6)%nat in
  let ws := expand (4 * (Nr + 1) - Nk) Nk (blocks_of 4 key) in
  let s0 := xor_list input (round_key ws 0) in
  let s := fold_left
             (fun s r => xor_list (mix_columns (shift_rows (sub_bytes s))) (round_key ws r))
             (seq 1 (Nr - 1)) s0 in
  xor_list (shift_rows (sub_bytes s)) (round_key ws Nr).

(** The block cipher on 128-bit blocks read as big-endian numbers. *)
Definition encrypt_block (key : bytes) (block : N) : N :=
  N_of_bytes (map byte_of_N (cipher (map Byte.to_N key) (map Byte.to_N (bytes_of_N 16 block)))).
End AES.

(* ------------------------------------------------------------------ *)
(** ** GCM (NIST SP 800-38D) *)

Module GCM.
Local Open Scope N_scope.

(** Multiplication in GF(2^128); bit 0 of a block is its most
    significant bit. *)
Fixpoint gf_mul_bits (n : nat) (X Z V : N) : N :=
  match n with
  | O => Z
  | S n' =>
      let Z' := if N.testbit X (N.of_nat n') then N.lxor Z V else Z in
      let V' := if N.odd V then N.lxor (N.shiftr V 1) 0xE1000000000000000000000000000000
                else N.shiftr V 1 in
      gf_mul_bits n' X Z' V'
  end.
Definition gf_mul (X Y : N) : N := gf_mul_bits 128 X 0 Y.

Definition pad16 (x : bytes) : bytes :=
  x ++ repeat x00 ((16 - List.length x mod 16) mod 16)%nat.

Definition ghash (H : N) (x : bytes) : N :=
  fold_left (fun y b => gf_mul (N.lxor y (N_of_bytes b)) H) (blocks_of 16 x) 0.

Definition inc32 (cb : N) : N :=
  (cb / 0x100000000) * 0x100000000 + (cb + 1) mod 0x100000000.

(** The first [n] bytes of CIPH(icb) || CIPH(inc32(icb)) || ... *)
Definition keystream (ciph : N -> N) (icb : N) (n : nat) : bytes :=
  firstn n (flat_map (fun i => bytes_of_N 16 (ciph (Nat.iter i inc32 icb)))
                     (seq 0 ((n + 15) / 16)%nat)).

Definition gctr (ciph : N -> N) (icb : N) (x : bytes) : bytes :=
  xor_bytes x (keystream ciph icb (List.length x)).

Definition J0 (H : N) (iv : bytes) : N :=
  if (List.length iv =? 12)%nat then N_of_bytes (iv ++ [x00; x00; x00; x01])
  else ghash H (pad16 iv ++ repeat x00 8 ++ bytes_of_N 8 (8 * N.of_nat (List.length iv))).

Definition tag (ciph : N -> N) (iv aad c : bytes) : bytes :=
  let H := ciph 0 in
  let S := ghash H (pad16 aad ++ pad16 c ++
                    bytes_of_N 8 (8 * N.of_nat (List.length aad)) ++
                    bytes_of_N 8 (8 * N.of_nat (List.length c))) in
  gctr ciph (J0 H iv) (bytes_of_N 16 S).

(** Authenticated encryption: the ciphertext followed by the 16-byte tag. *)
Definition encrypt (ciph : N -> N) (iv aad p : bytes) : bytes :=
  let c := gctr ciph (inc32 (J0 (ciph 0) iv)) p in
  c ++ tag ciph iv aad c.

(** Authenticated decryption of [c || t]: [None] when the tag does not
    verify. *)
Definition decrypt (ciph : N -> N) (iv aad data : bytes) : option bytes :=
  let n := (List.length data - 16)%nat in
  let c := firstn n data in
  let t := skipn n data in
  if bytes_eqb (tag ciph iv aad c) t
  then Some (gctr ciph (inc32 (J0 (ciph 0) iv)) c)
  else None.
End GCM.

(* ------------------------------------------------------------------ *)
(** ** The interpreter's text codecs *)

Definition Outcome_map {A B} (f : A -> B) (o : Outcome A) : Outcome B :=
  match o with
  | Return a => Return (f a)
  | Raise e => Raise e
  end.

Module UTF8.
Local Open Scope N_scope.

Definition is_surrogate (c : N) : bool := (0xD800 <=? c) && (c <=? 0xDFFF).

(** The code points that have a UTF-8 encoding (the Unicode scalar
    values). *)
Definition is_scalar (c : N) : bool := (c <=? 0x10FFFF) && negb (is_surrogate c).

Definition encode_char (c : N) : bytes :=
  if c <? 0x80 then [byte_of_N c]
  else if c <? 0x800 then [byte_of_N (0xC0 + c / 64); byte_of_N (0x80 + c mod 64)]
  else if c <? 0x10000 then
    [byte_of_N (0xE0 + c / 4096); byte_of_N (0x80 + (c / 64) mod 64); byte_of_N (0x80 + c mod 64)]
  else
    [byte_of_N (0xF0 + c / 262144); byte_of_N (0x80 + (c / 4096) mod 64);
     byte_of_N (0x80 + (c / 64) mod 64); byte_of_N (0x80 + c mod 64)].

(** The number of leading code points of [s] that have no encoding. *)
Fixpoint bad_run (s : str) : nat :=
  match s with
  | c :: s' => if is_scalar c then O else S (bad_run s')
  | [] => O
  end.

Definition escape (c : N) : string :=
  if c <? 0x100 then ("\x" ++ hex_fixed 2 c)%string
  else if c <? 0x10000 then ("\u" ++ hex_fixed 4 c)%string
  else ("\U" ++ hex_fixed 8 c)%string.

Definition encode_error (pos : nat) (s : str) : exn :=
  let n := bad_run s in
  UnicodeEncodeError
    (if (n =? 1)%nat
     then "'utf-8' codec can't encode character '" ++ escape (hd 0 s) ++
          "' in position " ++ dec pos ++ ": surrogates not allowed"
     else "'utf-8' codec can't encode characters in position " ++ dec pos ++ "-" ++
          dec (pos + n - 1) ++ ": surrogates not allowed")%string.

(** [s.encode('utf-8')], from position [pos] on.  A [str] holds no
    value above 0x10FFFF; the model refuses one like a surrogate. *)
Fixpoint encode_from (pos : nat) (s : str) : Outcome bytes :=
  match s with
  | [] => Return []
  | c :: s' =>
      if is_scalar c
      then Outcome_map (app (encode_char c)) (encode_from (S pos) s')
      else Raise (encode_error pos s)
  end.

Definition encode (s : str) : Outcome bytes := encode_from 0 s.

Definition is_cont (c : N) : bool := (0x80 <=? c) && (c <? 0xC0).

Definition decode_error (pos len : nat) (first : N) (reason : string) : exn :=
  UnicodeDecodeError
    (if (len =? 1)%nat
     then "'utf-8' codec can't decode byte 0x" ++ hex_fixed 2 first ++
          " in position " ++ dec pos ++ ": " ++ reason
     else "'utf-8' codec can't decode bytes in position " ++ dec pos ++ "-" ++
          dec (pos + len - 1) ++ ": " ++ reason)%string.

(** [b.decode('utf-8')], from position [pos] on: shortest forms only,
    no surrogates, nothing above 0x10FFFF. *)
Fixpoint decode_from (pos : nat) (b : bytes) : Outcome str :=
  match b with
  | [] => Return []
  | b1 :: r1 =>
      let c1 := Byte.to_N b1 in
      let bad_start := Raise (decode_error pos 1 c1 "invalid start byte") in
      let bad_cont n := Raise (decode_error pos n c1 "invalid continuation byte") in
      let bad_end := Raise (decode_error pos (List.length b) c1 "unexpected end of data") in
      if c1 <? 0x80 then Outcome_map (cons c1) (decode_from (S pos) r1)
      else if c1 <? 0xC2 then bad_start
      else if c1 <? 0xE0 then
        match r1 with
        | [] => bad_end
        | b2 :: r2 =>
            let c2 := Byte.to_N b2 in
            if negb (is_cont c2) then bad_cont 1%nat
            else Outcome_map (cons ((c1 - 0xC0) * 64 + (c2 - 0x80)))
                             (decode_from (2 + pos) r2)
        end
      else if c1 <? 0xF0 then
        match r1 with
        | [] => bad_end
        | b2 :: r2 =>
            let c2 := Byte.to_N b2 in
            if negb (is_cont c2) || (if c2 <? 0xA0 then c1 =? 0xE0 else c1 =? 0xED)
            then bad_cont 1%nat
            else
              match r2 with
              | [] => bad_end
              | b3 :: r3 =>
                  let c3 := Byte.to_N b3 in
                  if negb (is_cont c3) then bad_cont 2%nat
                  else Outcome_map
                         (cons ((c1 - 0xE0) * 4096 + (c2 - 0x80) * 64 + (c3 - 0x80)))
                         (decode_from (3 + pos) r3)
              end
        end
      else if c1 <? 0xF5 then
        match r1 with
        | [] => bad_end
        | b2 :: r2 =>
            let c2 := Byte.to_N b2 in
            if negb (is_cont c2) || (if c2 <? 0x90 then c1 =? 0xF0 else c1 =? 0xF4)
            then bad_cont 1%nat
            else
              match r2 with
              | [] => bad_end
              | b3 :: r3 =>
                  let c3 := Byte.to_N b3 in
                  if negb (is_cont c3) then bad_cont 2%nat
                  else
                    match r3 with
                    | [] => bad_end
                    | b4 :: r4 =>
                        let c4 := Byte.to_N b4 in
                        if negb (is_cont c4) then bad_cont 3%nat
                        else Outcome_map
                               (cons ((c1 - 0xF0) * 262144 + (c2 - 0x80) * 4096 +
                                      (c3 - 0x80) * 64 + (c4 - 0x80)))
                               (decode_from (4 + pos) r4)
                    end
              end
        end
      else bad_start
  end.

Definition decode (b : bytes) : Outcome str := decode_from 0 b.
End UTF8.

Module Base64.
Local Open Scope N_scope.

Definition table_b2a_base64 : bytes :=
  list_byte_of_string "ABCDEFGHIJKLMNOPQRSTUVWXYZabcdefghijklmnopqrstuvwxyz0123456789+/".

Definition PAD : byte := "="%byte.

Definition b2a (n : N) : byte := nth (N.to_nat n) table_b2a_base64 PAD.

(** [binascii.b2a_base64(data, newline=False)]. *)
Fixpoint b2a_base64 (data : bytes) : bytes :=
  match data with
  | [] => []
  | [x] =>
      let a := Byte.to_N x in
      [b2a (a / 4); b2a (a mod 4 * 16); PAD; PAD]
  | [x; y] =>
      let a := Byte.to_N x in let b := Byte.to_N y in
      [b2a (a / 4); b2a (a mod 4 * 16 + b / 16); b2a (b mod 16 * 4); PAD]
  | x :: y :: z :: rest =>
      let a := Byte.to_N x in let b := Byte.to_N y in let c := Byte.to_N z in
      b2a (a / 4) :: b2a (a mod 4 * 16 + b / 16) :: b2a (b mod 16 * 4 + c / 64) ::
      b2a (c mod 64) :: b2a_base64 rest
  end.

(** The value of a character of the alphabet. *)
Definition table_a2b_base64 (ch : byte) : option N :=
  let c := Byte.to_N ch in
  if (65 <=? c) && (c <=? 90) then Some (c - 65)
  else if (97 <=? c) && (c <=? 122) then Some (c - 71)
  else if (48 <=? c) && (c <=? 57) then Some (c + 4)
  else if c =? 43 then Some 62
  else if c =? 47 then Some 63
  else None.

(** The loop of [binascii.a2b_base64] (not strict): characters outside
    the alphabet are skipped, a complete pad sequence ends the input.
    [out] is the output so far. *)
Fixpoint a2b_loop (data : bytes) (quad_pos : nat) (leftchar : N) (pads : nat)
    (out : bytes) : Outcome bytes :=
  match data with
  | [] =>
      match quad_pos with
      | 0%nat => Return out
      | 1%nat =>
          Raise (binascii_Error
                   ("Invalid base64-encoded string: number of data characters (" ++
                    dec (List.length out / 3 * 4 + 1) ++
                    ") cannot be 1 more than a multiple of 4")%string)
      | _ => Raise (binascii_Error "Incorrect padding")
      end
  | ch :: rest =>
      if Byte.eqb ch PAD then
        if (2 <=? quad_pos)%nat then
          if (4 <=? quad_pos + (pads + 1))%nat then Return out
          else a2b_loop rest quad_pos leftchar (pads + 1)%nat out
        else a2b_loop rest quad_pos leftchar pads out
      else
        match table_a2b_base64 ch with
        | None => a2b_loop rest quad_pos leftchar pads out
        | Some v =>
            match quad_pos with
            | 0%nat => a2b_loop rest 1%nat v 0%nat out
            | 1%nat => a2b_loop rest 2%nat (v mod 16) 0%nat
                         (out ++ [byte_of_N (leftchar * 4 + v / 16)])
            | 2%nat => a2b_loop rest 3%nat (v mod 4) 0%nat
                         (out ++ [byte_of_N (leftchar * 16 + v / 4)])
            | _ => a2b_loop rest 0%nat 0 0%nat
                         (out ++ [byte_of_N (leftchar * 64 + v)])
            end
        end
  end.

Definition a2b_base64 (data : bytes) : Outcome bytes := a2b_loop data 0%nat 0 0%nat [].

(** [s.encode('ascii')] as [base64] does it for a [str] argument. *)
Definition ascii_bytes (s : str) : Outcome bytes :=
  if forallb (fun c => c <? 128) s then Return (map byte_of_N s)
  else Raise (ValueError "string argument should contain only ASCII characters").

(** [base64.b64encode(data)]. *)
Definition b64encode (data : bytes) : bytes := b2a_base64 data.

(** [base64.b64decode(s)] for a [str] argument. *)
Definition b64decode (s : str) : Outcome bytes :=
  match ascii_bytes s with
  | Return b => a2b_base64 b
  | Raise e => Raise e
  end.
End Base64.

(* ------------------------------------------------------------------ *)
(** ** The AEAD binding: [cryptography...aead.AESGCM] *)

Module AESGCM.
(** [AESGCM(key)]: the object is its key. *)
Definition new (key : bytes) : Outcome bytes :=
  let n := List.length key in
  if (n =? 16) || (n =? 24) || (n =? 32) then Return key
  else Raise (ValueError "AESGCM key must be 128, 192, or 256 bits.").

Definition check_nonce (nonce : bytes) : Outcome unit :=
  let n := List.length nonce in
  if (8 <=? n) && (n <=? 128) then Return tt
  else Raise (ValueError "Nonce must be between 8 and 128 bytes").

(** [aesgcm.encrypt(nonce, data, None)]: ciphertext and tag. *)
Definition encrypt (key nonce data : bytes) : Py bytes :=
  (log call_aesgcm_encrypt ;;;
   lift (check_nonce nonce) ;;;
   ret (GCM.encrypt (AES.encrypt_block key) nonce [] data))%py.

(** [aesgcm.decrypt(nonce, data, None)]. *)
Definition decrypt (key nonce data : bytes) : Py bytes :=
  (log call_aesgcm_decrypt ;;;
   lift (check_nonce nonce) ;;;
   if List.length data <? 16 then raise InvalidTag
   else match GCM.decrypt (AES.encrypt_block key) nonce [] data with
        | Some p => ret p
        | None => raise InvalidTag
        end)%py.
End AESGCM.

(* ------------------------------------------------------------------ *)
(** ** [cli/crypt.py] *)

Definition SALT_SIZE : nat := 16.
Definition IV_SIZE : nat := 12.
Definition KEY_SIZE : nat := 32.
Definition TAG_SIZE : nat := 16.
Definition VERSION_ID : N := 0x08.
Definition ITERATIONS : N := 250000.

Local Open Scope py_scope.

(** [derive_key(password, salt)]. *)
Definition derive_key (password : str) (salt : bytes) : Py bytes :=
  key_material <- lift (UTF8.encode password) ;;
  log call_pbkdf2_derive ;;;
  ret (PBKDF2HMAC_SHA256_derive KEY_SIZE salt ITERATIONS key_material).

(** [not s] for a [str]. *)
Definition is_empty (s : str) : bool :=
  match s with
  | [] => true
  | _ => false
  end.

(** [encrypt(plaintext, password)]. *)
Definition encrypt (plaintext password : str) : Py str :=
  if is_empty plaintext || is_empty password
  then raise (CryptException "Plaintext and password cannot be empty")
  else
    salt <- urandom SALT_SIZE ;;
    iv <- urandom IV_SIZE ;;
    key <- derive_key password salt ;;
    aesgcm <- lift (AESGCM.new key) ;;
    data <- lift (UTF8.encode plaintext) ;;
    ciphertext <- AESGCM.encrypt aesgcm iv data ;;
    let output := [byte_of_N VERSION_ID] ++ salt ++ iv ++ ciphertext in
    lift (UTF8.decode (Base64.b64encode output)).

(** The padding step of [decrypt]: the text filled with ['='] up to a
    multiple of 4 characters. *)
Definition pad_base64 (base64_encrypted : str) : str :=
  let missing_padding := (List.length base64_encrypted mod 4)%nat in
  if (missing_padding =? 0)%nat then base64_encrypted
  else base64_encrypted ++ repeat (ord "=") (4 - missing_padding).

Definition min_size : nat := 1 + SALT_SIZE + IV_SIZE + TAG_SIZE + 1.

(** The body of the [try] statement of [decrypt].  Index 0 exists where
    it is read: the length check comes first. *)
Definition decrypt_try (base64_encrypted password : str) : Py str :=
  let base64_encrypted := pad_base64 base64_encrypted in
  encrypted_bytes <- lift (Base64.b64decode base64_encrypted) ;;
  if (List.length encrypted_bytes <? min_size)%nat
  then raise (CryptException "Encrypted data too short")
  else
    let version := Byte.to_N (nth 0 encrypted_bytes x00) in
    if negb (version =? VERSION_ID)%N
    then raise (CryptException ("Unsupported version ID: " ++ hex_fixed 2 version))
    else
      let salt := slice 1 (1 + SALT_SIZE) encrypted_bytes in
      let iv := slice (1 + SALT_SIZE) (1 + SALT_SIZE + IV_SIZE) encrypted_bytes in
      let ciphertext := skipn (1 + SALT_SIZE + IV_SIZE) encrypted_bytes in
      key <- derive_key password salt ;;
      aesgcm <- lift (AESGCM.new key) ;;
      plaintext <- AESGCM.decrypt aesgcm iv ciphertext ;;
      lift (UTF8.decode plaintext).

(** The two [except] clauses of [decrypt], tried in order. *)
Definition decrypt_except (e : exn) : Py str :=
  match e with
  | InvalidTag => raise (CryptException "Decryption failed: Invalid tag (wrong password?)")
  | _ => raise (CryptException ("Decryption failed: " ++ str_of_exn e))
  end.

(** [decrypt(base64_encrypted, password)]. *)
Definition decrypt (base64_encrypted password : str) : Py str :=
  try_except (decrypt_try base64_encrypted password) decrypt_except.

(* ------------------------------------------------------------------ *)
(** ** The vocabulary of the specification *)

(** Text that has a UTF-8 encoding: every code point is a Unicode scalar
    value. *)
Definition encodable (s : str) : bool := forallb UTF8.is_scalar s.

(** The specification names four kinds of error; the code has the one
    exception type [CryptException] and tells the failures apart by the
    text it carries.  [error_kind] is the dictionary between the two: the
    kind of each text the code can raise. *)
Inductive ErrorKind : Type :=
| InvalidInput
| MalformedEnvelope
| UnsupportedVersion
| AuthenticationFailed.

Definition error_kind (e : exn) : option ErrorKind :=
  match e with
  | CryptException msg =>
      if String.eqb msg "Plaintext and password cannot be empty"
      then Some InvalidInput
      else if String.eqb msg "Decryption failed: Encrypted data too short"
           || String.eqb msg "Decryption failed: Incorrect padding"
           || String.prefix "Decryption failed: Invalid base64-encoded string: " msg
           || String.eqb msg "Decryption failed: string argument should contain only ASCII characters"
      then Some MalformedEnvelope
      else if String.prefix "Decryption failed: Unsupported version ID: " msg
      then Some UnsupportedVersion
      else if String.eqb msg "Decryption failed: Invalid tag (wrong password?)"
           || String.prefix "Decryption failed: 'utf-8' codec can't decode byte" msg
      then Some AuthenticationFailed
      else None
  | _ => None
  end.

(** The envelope of the specification: version, salt, nonce, ciphertext
    and tag. *)
Definition envelope (salt iv ciphertext : bytes) : bytes :=
  [byte_of_N VERSION_ID] ++ salt ++ iv ++ ciphertext.

(** The text of a byte string of ASCII characters. *)
Definition ascii_text (b : bytes) : str := map Byte.to_N b.

(** The key that [derive_key] computes from the bytes of a password. *)
Abbreviation key_of password_bytes salt :=
  (PBKDF2HMAC_SHA256_derive KEY_SIZE salt ITERATIONS password_bytes).

(** The salt and the nonce that [encrypt] draws in world [w], and the
    world it leaves. *)
Definition fresh_salt (w : World) : bytes := drawn w SALT_SIZE.
Definition fresh_iv (w : World) : bytes :=
  map (fun i => entropy w (cursor w + SALT_SIZE + i)) (seq 0 IV_SIZE).
Definition after_encrypt (w : World) : World :=
  mkWorld (entropy w) (cursor w + SALT_SIZE + IV_SIZE)
          (calls w ++ [call_urandom SALT_SIZE; call_urandom IV_SIZE;
                       call_pbkdf2_derive; call_aesgcm_encrypt]).
Definition after_decrypt (w : World) : World :=
  mkWorld (entropy w) (cursor w) (calls w ++ [call_pbkdf2_derive; call_aesgcm_decrypt]).

(** The UTF-8 bytes of encodable text. *)
Abbreviation utf8 s := (flat_map UTF8.encode_char s).

(** What the handler of [decrypt] makes of the result of the cipher:
    [None] is a tag that does not verify. *)
Definition opened (r : option bytes) : Outcome str :=
  match r with
  | None => Raise (CryptException "Decryption failed: Invalid tag (wrong password?)")
  | Some b =>
      match UTF8.decode b with
      | Return s => Return s
      | Raise e => Raise (CryptException ("Decryption failed: " ++ str_of_exn e))
      end
  end.

(** A world for the examples: the generator gives 0, 1, 2, ... *)
Definition counting_world : World :=
  mkWorld (fun i => byte_of_N (N.of_nat i)) 0 [].

(* ------------------------------------------------------------------ *)
(** ** The command line of [cli/crypt.py] *)

(** [a == b] for two [str]. *)
Definition str_eqb (a b : str) : bool :=
  if list_eq_dec N.eq_dec a b then true else false.

(** White space as [str.isspace] has it. *)
Definition is_space (c : N) : bool :=
  ((0x09 <=? c) && (c <=? 0x0D) || (0x1C <=? c) && (c <=? 0x20) ||
   (c =? 0x85) || (c =? 0xA0) || (c =? 0x1680) ||
   (0x2000 <=? c) && (c <=? 0x200A) ||
   (c =? 0x2028) || (c =? 0x2029) || (c =? 0x202F) || (c =? 0x205F) || (c =? 0x3000))%N.

Fixpoint lstrip (s : str) : str :=
  match s with
  | c :: s' => if is_space c then lstrip s' else s
  | [] => []
  end.

(** [s.strip()]. *)
Definition strip (s : str) : str := rev (lstrip (rev (lstrip s))).

(** How a run of the program can end before its last statement. *)
Inductive Abort : Type :=
| SystemExit (code : nat)
| Uncaught (e : exn)
| EOFError.

Inductive Step (A : Type) : Type :=
| Next (a : A)
| Stop (x : Abort).
Arguments Next {A} a.
Arguments Stop {A} x.

(** The terminal around the codec: the lines [getpass] will read, the
    prompts it has shown, and what has been printed, one entry for each
    call of [print]. *)
Record Console : Type := mkConsole {
  world : World;
  keyboard : list str;
  prompts : list string;
  stdout : list str;
  stderr : list str
}.

Definition CLI (A : Type) : Type := Console -> Step A * Console.

Definition cli_ret {A} (a : A) : CLI A := fun c => (Next a, c).

Definition cli_bind {A B} (m : CLI A) (k : A -> CLI B) : CLI B :=
  fun c =>
    match m c with
    | (Next a, c') => k a c'
    | (Stop x, c') => (Stop x, c')
    end.

Declare Scope cli_scope.
Delimit Scope cli_scope with cli.
Notation "x <- m ;; k" := (cli_bind m (fun x => k))
  (at level 61, m at next level, right associativity) : cli_scope.
Notation "m ;;; k" := (cli_bind m (fun _ => k))
  (at level 61, right associativity) : cli_scope.

(** [print(s)] and [print(s, file=sys.stderr)]. *)
Definition print (s : str) : CLI unit :=
  fun c => (Next tt, mkConsole (world c) (keyboard c) (prompts c) (stdout c ++ [s]) (stderr c)).

Definition print_err (s : str) : CLI unit :=
  fun c => (Next tt, mkConsole (world c) (keyboard c) (prompts c) (stdout c) (stderr c ++ [s])).

(** [sys.exit(code)]. *)
Definition sys_exit {A} (code : nat) : CLI A := fun c => (Stop (SystemExit code), c).

(** [getpass.getpass(prompt)]: the next line of the keyboard, [EOFError]
    at its end. *)
Definition getpass (prompt : string) : CLI str :=
  fun c =>
    match keyboard c with
    | line :: rest =>
        (Next line, mkConsole (world c) rest (prompts c ++ [prompt]) (stdout c) (stderr c))
    | [] =>
        (Stop EOFError,
         mkConsole (world c) [] (prompts c ++ [prompt]) (stdout c) (stderr c))
    end.

(** A call of the codec from the program: an exception leaves the
    calling statement. *)
Definition call {A} (m : Py A) : CLI A :=
  fun c =>
    match m (world c) with
    | (Return a, w') =>
        (Next a, mkConsole w' (keyboard c) (prompts c) (stdout c) (stderr c))
    | (Raise e, w') =>
        (Stop (Uncaught e), mkConsole w' (keyboard c) (prompts c) (stdout c) (stderr c))
    end.

(** [try: body  except CryptException as e: handler(str(e))]. *)
Definition except_CryptException {A} (body : CLI A) (handler : string -> CLI A) : CLI A :=
  fun c =>
    match body c with
    | (Stop (Uncaught (CryptException msg)), c') => handler msg c'
    | r => r
    end.

(** The loop of [get_verified_password]; [fuel] bounds its rounds. *)
Fixpoint get_verified_password_loop (fuel : nat) : CLI str :=
  match fuel with
  | O => fun c => (Stop EOFError, c)
  | S fuel' =>
      (password1 <- getpass "Enter password: " ;;
       password2 <- getpass "Confirm password: " ;;
       if str_eqb password1 password2 then cli_ret password1
       else print_err (lit "Passwords do not match. Please try again.") ;;;
            get_verified_password_loop fuel')%cli
  end.

(** [get_verified_password()].  Each round reads two lines, and the
    keyboard is finite: one round more than it has lines is fuel enough
    for the loop to end, by a match or by [EOFError]. *)
Definition get_verified_password : CLI str :=
  fun c => get_verified_password_loop (S (List.length (keyboard c))) c.

(** [main()], with [sys.argv = argv0 :: args], for a standard input that
    is a terminal or not and holds the text [stdin]. *)
Definition main (argv0 : str) (args : list str) (stdin_isatty : bool) (stdin : str) : CLI unit :=
  let argc := S (List.length args) in
  if (argc <? 2)%nat || (3 <? argc)%nat then
    (print ([10%N] ++ lit "Usage: " ++ argv0 ++ lit " {encrypt|decrypt} [<string>]") ;;;
     print ([10%N] ++
            lit "If no string is provided as an argument, input will be read from stdin." ++
            [10%N]) ;;;
     sys_exit 1)%cli
  else
    (input_data <-
       (if (2 <? argc)%nat then cli_ret (nth 1 args [])
        else if negb stdin_isatty then cli_ret (strip stdin)
        else print_err (lit "Error: No input provided (use argument or pipe data to stdin)") ;;;
             sys_exit 1) ;;
     except_CryptException
       (let mode := nth 0 args [] in
        if str_eqb mode (lit "encrypt") then
          password <- get_verified_password ;;
          encrypted <- call (encrypt input_data password) ;;
          print encrypted
        else if str_eqb mode (lit "decrypt") then
          password <- getpass "Enter password: " ;;
          decrypted <- call (decrypt input_data password) ;;
          print decrypted
        else
          print (lit "Invalid mode. Use 'encrypt' or 'decrypt'.") ;;;
          sys_exit 1)
       (fun msg => print_err (lit "Error: " ++ lit msg) ;;; sys_exit 1))%cli.

(** A terminal for the examples. *)
Definition console_with (lines : list str) : Console :=
  mkConsole counting_world lines [] [] [].

(* ------------------------------------------------------------------ *)
(** ** Changed envelopes *)

(** The bytes [data] with the byte at index [i] replaced by [b]. *)
Definition replace_byte (i : nat) (b : byte) (data : bytes) : bytes :=
  firstn i data ++ b :: skipn (S i) data.

Fixpoint lstrip_char (ch : N) (s : str) : str :=
  match s with
  | c :: s' => if (c =? ch)%N then lstrip_char ch s' else s
  | [] => []
  end.

(** [s.rstrip('=')]. *)
Definition rstrip_pad (s : str) : str := rev (lstrip_char (ord "=") (rev s)).

(** The bytes the base64 decoder reads, the alphabet and ['='], and the
    characters that stand for them. *)
Definition is_base64_byte (b : byte) : bool :=
  Byte.eqb b Base64.PAD ||
  match Base64.table_a2b_base64 b with
  | Some _ => true
  | None => false
  end.

Definition is_base64_char (c : N) : bool := (c <? 128)%N && is_base64_byte (byte_of_N c).

(* ------------------------------------------------------------------ *)
(** ** SHA-1 (FIPS 180-4) and HMAC over any hash *)

Module SHA1.
Local Open Scope N_scope.

Definition rotl (n x : N) : N :=
  N.lor (N.land (N.shiftl x n) 0xFFFFFFFF) (N.shiftr x (32 - n)).

Definition f (t : nat) (b c d : N) : N :=
  if (t <? 20)%nat then N.lor (N.land b c) (N.land (SHA256.not32 b) d)
  else if (t <? 40)%nat then N.lxor (N.lxor b c) d
  else if (t <? 60)%nat then N.lor (N.lor (N.land b c) (N.land b d)) (N.land c d)
  else N.lxor (N.lxor b c) d.

(** The round constants: 2^30 times the square roots of 2, 3, 5 and 10. *)
Definition K (t : nat) : N :=
  N.sqrt ((if (t <? 20)%nat then 2 else if (t <? 40)%nat then 3
           else if (t <? 60)%nat then 5 else 10) * 2 ^ 60).

Definition state : Type := (N * N * N * N * N)%type.

Definition H0 : state := (0x67452301, 0xEFCDAB89, 0x98BADCFE, 0x10325476, 0xC3D2E1F0).

Fixpoint schedule (n : nat) (ws : list N) : list N :=
  match n with
  | O => ws
  | S n' =>
      let t := List.length ws in
      let w i := nth (t - i) ws 0 in
      schedule n' (ws ++ [rotl 1 (N.lxor (N.lxor (w 3%nat) (w 8%nat))
                                         (N.lxor (w 14%nat) (w 16%nat)))])
  end.

Definition round (s : state) (tw : nat * N) : state :=
  let '(a, b, c, d, e) := s in
  let '(t, w) := tw in
  let T := SHA256.add32 (SHA256.add32 (rotl 5 a) (f t b c d))
                        (SHA256.add32 (SHA256.add32 e (K t)) w) in
  (T, a, rotl 30 b, c, d).

Definition compress (s : state) (block : bytes) : state :=
  let ws := schedule 64 (map N_of_bytes (blocks_of 4 block)) in
  let '(a, b, c, d, e) := fold_left round (combine (seq 0 80) ws) s in
  let '(a0, b0, c0, d0, e0) := s in
  (SHA256.add32 a0 a, SHA256.add32 b0 b, SHA256.add32 c0 c, SHA256.add32 d0 d,
   SHA256.add32 e0 e).

Definition digest (s : state) : bytes :=
  let '(a, b, c, d, e) := s in
  bytes_of_N 4 a ++ bytes_of_N 4 b ++ bytes_of_N 4 c ++ bytes_of_N 4 d ++ bytes_of_N 4 e.

(** The padding is that of SHA-256. *)
Definition sha1 (msg : bytes) : bytes :=
  digest (fold_left compress (blocks_of 64 (SHA256.pad msg)) H0).
End SHA1.

(** [hmac.new(key, msg, name).digest()] for a hash with 64-byte blocks. *)
Definition hmac_with (hash : bytes -> bytes) (key msg : bytes) : bytes :=
  let k := if (64 <? List.length key)%nat then hash key else key in
  let k0 := k ++ repeat x00 (64 - List.length k) in
  hash (map (byte_xor x5c) k0 ++ hash (map (byte_xor x36) k0 ++ msg)).

(* ------------------------------------------------------------------ *)
(** ** [cli/codegen/code_generator.py] *)

(** The exceptions of the other scripts, with their text, and the
    outcome of a call: a value or an exception. *)
Module Script.
Inductive Error : Type :=
| ValueError (msg : str)
| OverflowError (msg : str)
| IndexError (msg : str)
| FileNotFoundError (msg : str)
| PermissionError (msg : str)
| OtherError (name msg : str).

Inductive Result (A : Type) : Type :=
| Ok (a : A)
| Err (e : Error).
Arguments Ok {A} a.
Arguments Err {A} e.
End Script.

Module CodeGenerator.
Import Script.

(** [s.replace(ch, "")] for a one-character [ch]. *)
Definition remove_char (ch : N) (s : str) : str := filter (fun c => negb (c =? ch)%N) s.

(** [s.index(ch)] for a one-character [ch]. *)
Fixpoint index (s : str) (ch : N) : option nat :=
  match s with
  | [] => None
  | c :: s' => if (c =? ch)%N then Some 0%nat else option_map S (index s' ch)
  end.

Definition alphabet : str := lit "ABCDEFGHIJKLMNOPQRSTUVWXYZ234567".

(** The loop of [base32_decode]. *)
Fixpoint base32_loop (chars : str) (bits : N) (bit_count : nat) (bytes_list : bytes)
    : Result bytes :=
  match chars with
  | [] => Ok bytes_list
  | char :: rest =>
      match index alphabet char with
      | None => Err (ValueError (lit "Invalid base32 character: " ++ [char]))
      | Some value =>
          let bits := N.lor (N.shiftl bits 5) (N.of_nat value) in
          let bit_count := (bit_count + 5)%nat in
          if (8 <=? bit_count)%nat then
            let bit_count := (bit_count - 8)%nat in
            base32_loop rest bits bit_count
              (bytes_list ++ [byte_of_N (N.land (N.shiftr bits (N.of_nat bit_count)) 0xFF)])
          else base32_loop rest bits bit_count bytes_list
      end
  end.

(** A regular file: its mode bits and what opening it as UTF-8 text and
    reading it gives, the text or the exception of [open] or [read].
    A file system gives the regular file of a name, if there is one. *)
Record File : Type := mkFile { st_mode : N; read : Result str }.

Definition FileSystem : Type := str -> option File.

Section Upper.
(** The upper-case mapping of one character in the interpreter's Unicode
    tables; it can give several characters. *)
Variable to_upper_full : N -> list N.

(** [s.upper()]. *)
Definition upper (s : str) : str := flat_map to_upper_full s.

(** [base32_decode(base32)]. *)
Definition base32_decode (base32 : str) : Result bytes :=
  base32_loop (remove_char (ord "=") (upper base32)) 0 0 [].

(** [read_secret_bytes(filename)]: permissions checked, then the text
    read, stripped and decoded. *)
Definition read_secret_bytes (fs : FileSystem) (filename : str) : Result bytes :=
  match fs filename with
  | None => Err (FileNotFoundError (filename ++ lit " not found in current directory"))
  | Some file =>
      let mode := N.land (st_mode file) 0x1FF in
      if negb ((mode =? 0x180)%N || (mode =? 0x100)%N) then
        Err (PermissionError
               (filename ++ lit " has insecure permissions (must be 600 or 400)"))
      else
        match read file with
        | Err e => Err e
        | Ok text =>
            let secret := strip text in
            match secret with
            | [] => Err (ValueError (filename ++ lit " is empty"))
            | _ :: _ => base32_decode secret
            end
        end
  end.
End Upper.

(** [b[i]] for [0 <= i]. *)
Definition getitem (b : bytes) (i : nat) : Result N :=
  match nth_error b i with
  | Some x => Ok (Byte.to_N x)
  | None => Err (IndexError (lit "index out of range"))
  end.

(** The decimal digits of [n], most significant first; [fuel] bounds
    their number. *)
Fixpoint digits (fuel : nat) (n : N) (acc : str) : str :=
  match fuel with
  | O => acc
  | S fuel' =>
      let acc' := (48 + n mod 10)%N :: acc in
      if (n <? 10)%N then acc' else digits fuel' (n / 10) acc'
  end.

(** [format(n, "06d")] for [0 <= n]. *)
Definition format_06d (n : N) : str :=
  let d := digits (S (N.to_nat (N.log2 n))) n [] in
  repeat (ord "0") (6 - List.length d) ++ d.

(** [counter.to_bytes(8, "big")]. *)
Definition to_bytes_8_big (counter : Z) : Result bytes :=
  if (counter <? 0)%Z then Err (OverflowError (lit "can't convert negative int to unsigned"))
  else if (2 ^ 64 <=? counter)%Z then Err (OverflowError (lit "int too big to convert"))
  else Ok (bytes_of_N 8 (Z.to_N counter)).

(** [generate_totp(secret_bytes, timestamp)] for an integer or absent
    [timestamp]; [clock] is [int(time.time())], all the function uses of
    the clock. *)
Definition generate_totp (secret_bytes : bytes) (timestamp : option Z) (clock : Z)
    : Result str :=
  let time_step := 30%Z in
  let timestamp :=
    match timestamp with
    | Some t => if (t =? 0)%Z then clock else t
    | None => clock
    end in
  let counter := (timestamp / time_step)%Z in
  match to_bytes_8_big counter with
  | Err e => Err e
  | Ok counter_bytes =>
      let hash_bytes := hmac_with SHA1.sha1 secret_bytes counter_bytes in
      match getitem hash_bytes (List.length hash_bytes - 1) with
      | Err e => Err e
      | Ok last =>
          let offset := N.to_nat (N.land last 0x0F) in
          match getitem hash_bytes offset, getitem hash_bytes (offset + 1),
                getitem hash_bytes (offset + 2), getitem hash_bytes (offset + 3) with
          | Ok b0, Ok b1, Ok b2, Ok b3 =>
              let binary :=
                N.lor (N.lor (N.lor (N.shiftl (N.land b0 0x7F) 24)
                                    (N.shiftl (N.land b1 0xFF) 16))
                             (N.shiftl (N.land b2 0xFF) 8))
                      (N.land b3 0xFF) in
              Ok (format_06d (binary mod 10 ^ 6))
          | Err e, _, _, _ | _, Err e, _, _ | _, _, Err e, _ | _, _, _, Err e => Err e
          end
      end
  end.

(** Upper case for ASCII, which is all that the theorems use of the
    Unicode tables. *)
Definition ascii_upper (c : N) : N :=
  if ((97 <=? c) && (c <=? 122))%N then (c - 32)%N else c.

(** The RFC 4648 base32 text of [data], without its padding. *)
Definition b32 (v : N) : N := nth (N.to_nat v) alphabet 0%N.

Fixpoint b32encode_body (data : bytes) : str :=
  match data with
  | [] => []
  | [x1] =>
      let a := Byte.to_N x1 in
      [b32 (a / 8); b32 (a mod 8 * 4)]
  | [x1; x2] =>
      let a := Byte.to_N x1 in let b := Byte.to_N x2 in
      [b32 (a / 8); b32 (a mod 8 * 4 + b / 64); b32 (b / 2 mod 32); b32 (b mod 2 * 16)]
  | [x1; x2; x3] =>
      let a := Byte.to_N x1 in let b := Byte.to_N x2 in let c := Byte.to_N x3 in
      [b32 (a / 8); b32 (a mod 8 * 4 + b / 64); b32 (b / 2 mod 32);
       b32 (b mod 2 * 16 + c / 16); b32 (c mod 16 * 2)]
  | [x1; x2; x3; x4] =>
      let a := Byte.to_N x1 in let b := Byte.to_N x2 in let c := Byte.to_N x3 in
      let d := Byte.to_N x4 in
      [b32 (a / 8); b32 (a mod 8 * 4 + b / 64); b32 (b / 2 mod 32);
       b32 (b mod 2 * 16 + c / 16); b32 (c mod 16 * 2 + d / 128); b32 (d / 4 mod 32);
       b32 (d mod 4 * 8)]
  | x1 :: x2 :: x3 :: x4 :: x5 :: rest =>
      let a := Byte.to_N x1 in let b := Byte.to_N x2 in let c := Byte.to_N x3 in
      let d := Byte.to_N x4 in let e := Byte.to_N x5 in
      b32 (a / 8) :: b32 (a mod 8 * 4 + b / 64) :: b32 (b / 2 mod 32) ::
      b32 (b mod 2 * 16 + c / 16) :: b32 (c mod 16 * 2 + d / 128) :: b32 (d / 4 mod 32) ::
      b32 (d mod 4 * 8 + e / 32) :: b32 (e mod 32) :: b32encode_body rest
  end.
End CodeGenerator.

(* ------------------------------------------------------------------ *)
(** ** [cli/qr_parse.py]: [parse_totp_url] *)

Module QrParse.
Import Script.

(** [s.startswith(prefix)]. *)
Fixpoint startswith (prefix s : str) : bool :=
  match prefix, s with
  | [], _ => true
  | p :: prefix', c :: s' => (p =? c)%N && startswith prefix' s'
  | _ :: _, [] => false
  end.

(** [s.lstrip(chars)]: the leading characters of [s] that occur in
    [chars] are dropped. *)
Fixpoint lstrip_chars (chars s : str) : str :=
  match s with
  | c :: s' => if existsb (N.eqb c) chars then lstrip_chars chars s' else s
  | [] => []
  end.

(** What [parse_totp_url] reads of the result of [urlparse]. *)
Record ParseResult : Type := mkParseResult { path : str; query : str }.

(** The dictionary that [parse_totp_url] returns. *)
Record TotpUrl : Type := mkTotpUrl {
  name : str;
  issuer : option str;
  secret : str;
  url : str
}.

(** [d.get(key)] on the dictionary of [parse_qs]. *)
Fixpoint get (d : list (str * list str)) (key : str) : option (list str) :=
  match d with
  | [] => None
  | (k, v) :: d' => if str_eqb k key then Some v else get d' key
  end.

(** [params.get(key, [None])[0]]. *)
Definition first_value (params : list (str * list str)) (key : str) : Result (option str) :=
  match get params key with
  | None => Ok None
  | Some [] => Err (IndexError (lit "list index out of range"))
  | Some (v :: _) => Ok (Some v)
  end.

Section Library.
(** The two calls into [urllib.parse]: [urlparse(url)], which gives the
    parts of the URL or raises, and [parse_qs(query)], which gives the
    values of each parameter. *)
Variable urlparse : str -> Result ParseResult.
Variable parse_qs : str -> list (str * list str).

(** [parse_totp_url(url)]. *)
Definition parse_totp_url (url : str) : Result TotpUrl :=
  if negb (startswith (lit "otpauth://totp/") url) then
    Err (ValueError (lit "URL must be an otpauth://totp/ URI"))
  else
    match urlparse url with
    | Err e => Err e
    | Ok parsed =>
        let name := lstrip_chars (lit "/totp/") (path parsed) in
        match name with
        | [] => Err (ValueError (lit "TOTP URL must include a name/label"))
        | _ :: _ =>
            let params := parse_qs (query parsed) in
            match first_value params (lit "secret") with
            | Err e => Err e
            | Ok None | Ok (Some []) =>
                Err (ValueError (lit "TOTP URL must include a secret parameter"))
            | Ok (Some (c :: s)) =>
                match first_value params (lit "issuer") with
                | Err e => Err e
                | Ok issuer => Ok (mkTotpUrl name issuer (c :: s) url)
                end
            end
        end
    end.
End Library.
End QrParse.

(* ================================================================== *)
(** * Properties *)

(** ** Known answers

    The primitives on the test vectors of their standards. *)

Example sha256_abc :
  SHA256.sha256 (map byte_of_N (lit "abc")) =
  bytes_of_N 32 0xba7816bf8f01cfea414140de5dae2223b00361a396177a9cb410ff61f20015ad.
Proof. vm_compute. reflexivity. Qed.

Example hmac_sha256_rfc4231_2 :
  hmac_sha256 (map byte_of_N (lit "Jefe")) (map byte_of_N (lit "what do ya want for nothing?")) =
  bytes_of_N 32 0x5bdcc146bf60754e6a042426089575c75a003f089d2739839dec58b964ec3843.
Proof. vm_compute. reflexivity. Qed.

Example pbkdf2_two_iterations :
  PBKDF2HMAC_SHA256_derive 32 (map byte_of_N (lit "salt")) 2 (map byte_of_N (lit "password")) =
  bytes_of_N 32 0xae4d0c95af6b46d32d0adff928f06dd02a303f8ef3c251dfd6e2d85a95474c43.
Proof. vm_compute. reflexivity. Qed.

Example aes256_fips197_c3 :
  AES.encrypt_block
    (bytes_of_N 32 0x000102030405060708090a0b0c0d0e0f101112131415161718191a1b1c1d1e1f)
    0x00112233445566778899aabbccddeeff =
  0x8ea2b7ca516745bfeafc49904b496089%N.
Proof. vm_compute. reflexivity. Qed.

Example gcm_aes256_zero_block :
  GCM.encrypt (AES.encrypt_block (repeat x00 32)) (repeat x00 12) [] (repeat x00 16) =
  bytes_of_N 32 0xcea7403d4d606b6e074ec5d3baf39d18d0d1c8a799996bf0265b98b5d48ab919.
Proof. vm_compute. reflexivity. Qed.

Example gcm_aes256_with_aad :
  GCM.encrypt
    (AES.encrypt_block
       (bytes_of_N 32 0xfeffe9928665731c6d6a8f9467308308feffe9928665731c6d6a8f9467308308))
    (bytes_of_N 12 0xcafebabefacedbaddecaf888)
    (bytes_of_N 20 0xfeedfacedeadbeeffeedfacedeadbeefabaddad2)
    (bytes_of_N 60 0xd9313225f88406e5a55909c5aff5269a86a7a9531534f7da2e4c303d8a318a721c3c0c95956809532fcf0e2449a6b525b16aedf5aa0de657ba637b39) =
  bytes_of_N 76 0x522dc1f099567d07f47f37a32a84427d643a8cdcbfe5c0c97598a2bd2555d1aa8cb08e48590dbb3da7b08b1056828838c5f61e6393ba7a0abcc9f66276fc6ece0f4e1768cddf8853bb2d551b.
Proof. vm_compute. reflexivity. Qed.

Example b64encode_foobar :
  ascii_text (Base64.b64encode (map byte_of_N (lit "foobar"))) = lit "Zm9vYmFy" /\
  ascii_text (Base64.b64encode (map byte_of_N (lit "fooba"))) = lit "Zm9vYmE=" /\
  Base64.b64decode (pad_base64 (lit "Zm9vYg")) = Return (map byte_of_N (lit "foob")).
Proof. vm_compute. auto. Qed.

(** The decoder skips what is outside the alphabet, here a line feed. *)
Example b64decode_lenient :
  Base64.b64decode (lit "Zm9v" ++ [10%N] ++ lit "YmFy") = Return (map byte_of_N (lit "foobar")).
Proof. vm_compute. reflexivity. Qed.

Example utf8_euro :
  UTF8.encode [0x20AC%N] = Return [xe2; x82; xac] /\
  UTF8.decode [xe2; x82; xac] = Return [0x20AC%N] /\
  UTF8.decode [xe2; x82] =
    Raise (UnicodeDecodeError
             "'utf-8' codec can't decode bytes in position 0-1: unexpected end of data").
Proof. vm_compute. auto. Qed.

(** ** Bytes *)

Lemma to_N_lt_256 (b : byte) : (Byte.to_N b < 256)%N.
Proof. pose proof (Byte.to_N_bounded b). lia. Qed.

Lemma byte_of_N_to_N (b : byte) : byte_of_N (Byte.to_N b) = b.
Proof.
  unfold byte_of_N. rewrite N.mod_small by apply to_N_lt_256.
  now rewrite Byte.of_to_N.
Qed.

Lemma to_N_byte_of_N (n : N) : (n < 256)%N -> Byte.to_N (byte_of_N n) = n.
Proof.
  intros Hn. unfold byte_of_N. rewrite N.mod_small by assumption.
  destruct (Byte.of_N n) as [b|] eqn:E.
  - now apply Byte.to_of_N.
  - apply Byte.of_N_None_iff in E. lia.
Qed.

Lemma byte_to_N_inj (a b : byte) : Byte.to_N a = Byte.to_N b -> a = b.
Proof.
  intros H. rewrite <- (byte_of_N_to_N a), <- (byte_of_N_to_N b). now rewrite H.
Qed.

Lemma lxor_lt_256 (a b : N) : (a < 256)%N -> (b < 256)%N -> (N.lxor a b < 256)%N.
Proof.
  intros Ha Hb.
  destruct (N.eq_dec (N.lxor a b) 0) as [E|E]; [rewrite E; lia|].
  apply N.log2_lt_pow2 with (b := 8%N); [lia|].
  eapply N.le_lt_trans; [apply N.log2_lxor|].
  apply N.max_lub_lt.
  - destruct (N.eq_dec a 0) as [->|Ha0]; [cbn; lia|]. apply N.log2_lt_pow2; lia.
  - destruct (N.eq_dec b 0) as [->|Hb0]; [cbn; lia|]. apply N.log2_lt_pow2; lia.
Qed.

Lemma byte_xor_involutive (a b : byte) : byte_xor (byte_xor a b) b = a.
Proof.
  unfold byte_xor. apply byte_to_N_inj.
  rewrite !to_N_byte_of_N.
  - rewrite N.lxor_assoc, N.lxor_nilpotent, N.lxor_0_r. reflexivity.
  - apply lxor_lt_256; apply to_N_lt_256.
  - apply lxor_lt_256; [|apply to_N_lt_256].
    rewrite to_N_byte_of_N; apply lxor_lt_256 || idtac; apply to_N_lt_256.
Qed.

Lemma xor_bytes_length (x y : bytes) :
  List.length (xor_bytes x y) = Nat.min (List.length x) (List.length y).
Proof.
  revert y. induction x as [|a x IH]; intros [|b y]; simpl; try reflexivity.
  now rewrite IH.
Qed.

Lemma xor_bytes_involutive (x y : bytes) :
  (List.length x <= List.length y)%nat -> xor_bytes (xor_bytes x y) y = x.
Proof.
  revert y. induction x as [|a x IH]; intros [|b y] H; simpl in *; try reflexivity; try lia.
  rewrite byte_xor_involutive, IH by lia. reflexivity.
Qed.

Lemma bytes_eqb_refl (x : bytes) : bytes_eqb x x = true.
Proof. unfold bytes_eqb. destruct (list_eq_dec _ x x); congruence. Qed.

Lemma bytes_eqb_eq (x y : bytes) : bytes_eqb x y = true <-> x = y.
Proof. unfold bytes_eqb. destruct (list_eq_dec _ x y); split; congruence. Qed.

Lemma bytes_of_N_length (len : nat) (n : N) : List.length (bytes_of_N len n) = len.
Proof.
  revert n. induction len as [|len IH]; intros n; simpl; [reflexivity|].
  rewrite length_app, IH. simpl. lia.
Qed.

(** ** Lengths of the cryptographic primitives *)

Arguments SHA256.sha256 : simpl never.
Arguments hmac_sha256 : simpl never.
Arguments PBKDF2HMAC_SHA256_derive : simpl never.
Arguments AES.encrypt_block : simpl never.
Arguments GCM.gf_mul : simpl never.
Arguments GCM.ghash : simpl never.
Arguments GCM.tag : simpl never.
Arguments GCM.gctr : simpl never.
Arguments GCM.encrypt : simpl never.
Arguments GCM.decrypt : simpl never.

Lemma sha256_length (msg : bytes) : List.length (SHA256.sha256 msg) = 32%nat.
Proof.
  unfold SHA256.sha256, SHA256.digest.
  destruct (fold_left _ _ _) as [[[[[[[a b] c] d] e] f] g] h].
  rewrite !length_app, !bytes_of_N_length. reflexivity.
Qed.

Lemma hmac_sha256_length (key msg : bytes) : List.length (hmac_sha256 key msg) = 32%nat.
Proof. apply sha256_length. Qed.

Lemma pbkdf2_F_length (prf : bytes -> bytes) (salt : bytes) (c i : N) :
  (forall m, List.length (prf m) = 32%nat) ->
  List.length (pbkdf2_F prf salt c i) = 32%nat.
Proof.
  intros Hprf. unfold pbkdf2_F.
  set (step := fun ut : bytes * bytes => _).
  enough (H : List.length (fst (N.iter (c - 1) step (prf (salt ++ bytes_of_N 4 i), prf (salt ++ bytes_of_N 4 i)))) = 32%nat /\
              List.length (snd (N.iter (c - 1) step (prf (salt ++ bytes_of_N 4 i), prf (salt ++ bytes_of_N 4 i)))) = 32%nat)
    by apply H.
  apply N.iter_invariant.
  - intros [u t] [Hu Ht]. unfold step; simpl in *.
    rewrite xor_bytes_length, Ht, !Hprf. split; reflexivity.
  - simpl. split; apply Hprf.
Qed.

Lemma PBKDF2_derive_length (salt : bytes) (c : N) (key_material : bytes) :
  List.length (PBKDF2HMAC_SHA256_derive 32 salt c key_material) = 32%nat.
Proof.
  unfold PBKDF2HMAC_SHA256_derive, pbkdf2, SHA256.digest_size.
  change ((32 + 32 - 1) / 32)%nat with 1%nat. simpl flat_map.
  rewrite app_nil_r, length_firstn, pbkdf2_F_length; [reflexivity|].
  intros m. apply hmac_sha256_length.
Qed.

(** HMAC reads its key only through the key block, so two keys with the
    same block give the same function, and the same derived key. *)
Lemma hmac_sha256_key_block (k1 k2 msg : bytes) :
  hmac_key_block k1 = hmac_key_block k2 -> hmac_sha256 k1 msg = hmac_sha256 k2 msg.
Proof. intros H. unfold hmac_sha256. now rewrite H. Qed.

Lemma pbkdf2_F_ext (f g : bytes -> bytes) (salt : bytes) (c i : N) :
  (forall m, f m = g m) -> pbkdf2_F f salt c i = pbkdf2_F g salt c i.
Proof.
  intros H. unfold pbkdf2_F. rewrite H. f_equal.
  generalize (g (salt ++ bytes_of_N 4 i)). intros u1.
  generalize (u1, u1). intros p.
  induction (c - 1)%N as [|n IH] using N.peano_ind; [reflexivity|].
  rewrite !N.iter_succ, IH. simpl. now rewrite H.
Qed.

Lemma PBKDF2_derive_key_block (len : nat) (salt : bytes) (c : N) (k1 k2 : bytes) :
  hmac_key_block k1 = hmac_key_block k2 ->
  PBKDF2HMAC_SHA256_derive len salt c k1 = PBKDF2HMAC_SHA256_derive len salt c k2.
Proof.
  intros H. unfold PBKDF2HMAC_SHA256_derive, pbkdf2. f_equal.
  apply flat_map_ext. intros i.
  apply pbkdf2_F_ext. intros m. now apply hmac_sha256_key_block.
Qed.

(** ** GCM: decryption inverts encryption *)

Lemma flat_map_length_const {A} (f : A -> bytes) (n : nat) (l : list A) :
  (forall a, List.length (f a) = n) -> List.length (flat_map f l) = (n * List.length l)%nat.
Proof.
  intros H. induction l as [|a l IH]; simpl; [lia|].
  rewrite length_app, H, IH. lia.
Qed.

Lemma keystream_length (ciph : N -> N) (icb : N) (n : nat) :
  List.length (GCM.keystream ciph icb n) = n.
Proof.
  unfold GCM.keystream. rewrite length_firstn.
  rewrite (flat_map_length_const _ 16) by (intros; apply bytes_of_N_length).
  rewrite length_seq.
  pose proof (Nat.div_mod_eq (n + 15) 16).
  pose proof (Nat.mod_upper_bound (n + 15) 16). lia.
Qed.

Lemma gctr_length (ciph : N -> N) (icb : N) (x : bytes) :
  List.length (GCM.gctr ciph icb x) = List.length x.
Proof. unfold GCM.gctr. rewrite xor_bytes_length, keystream_length. lia. Qed.

Lemma gctr_involutive (ciph : N -> N) (icb : N) (x : bytes) :
  GCM.gctr ciph icb (GCM.gctr ciph icb x) = x.
Proof.
  unfold GCM.gctr at 1. rewrite gctr_length. unfold GCM.gctr.
  apply xor_bytes_involutive. rewrite keystream_length. lia.
Qed.

Lemma gcm_tag_length (ciph : N -> N) (iv aad c : bytes) :
  List.length (GCM.tag ciph iv aad c) = 16%nat.
Proof. unfold GCM.tag. rewrite gctr_length. apply bytes_of_N_length. Qed.

Lemma gcm_encrypt_length (ciph : N -> N) (iv aad p : bytes) :
  List.length (GCM.encrypt ciph iv aad p) = (List.length p + 16)%nat.
Proof.
  unfold GCM.encrypt. rewrite length_app, gcm_tag_length, gctr_length. reflexivity.
Qed.

Lemma gcm_encrypt_parts (ciph : N -> N) (iv aad p : bytes) :
  exists c t, GCM.encrypt ciph iv aad p = c ++ t /\
              List.length c = List.length p /\ List.length t = 16%nat.
Proof.
  eexists _, _. split; [reflexivity|]. split.
  - apply gctr_length.
  - apply gcm_tag_length.
Qed.

Lemma gcm_decrypt_encrypt (ciph : N -> N) (iv aad p : bytes) :
  GCM.decrypt ciph iv aad (GCM.encrypt ciph iv aad p) = Some p.
Proof.
  unfold GCM.decrypt. rewrite gcm_encrypt_length.
  replace (List.length p + 16 - 16)%nat with (List.length p) by lia.
  unfold GCM.encrypt.
  set (c := GCM.gctr ciph _ p).
  assert (Hc : List.length c = List.length p) by apply gctr_length.
  rewrite <- Hc, firstn_app, skipn_app, firstn_all, skipn_all, Nat.sub_diag.
  rewrite firstn_O, skipn_O, app_nil_r, app_nil_l, bytes_eqb_refl. unfold c. now rewrite gctr_involutive.
Qed.

(** ** Base64: decoding inverts encoding *)

Lemma list_ind3 {A} (P : list A -> Prop) :
  P [] -> (forall x, P [x]) -> (forall x y, P [x; y]) ->
  (forall x y z l, P l -> P (x :: y :: z :: l)) ->
  forall l, P l.
Proof.
  intros H0 H1 H2 H3 l.
  enough (H : P l /\ (forall x, P (x :: l)) /\ (forall x y, P (x :: y :: l))) by apply H.
  induction l as [|a l (IH0 & IH1 & IH2)].
  - repeat split; auto.
  - repeat split; auto.
Qed.

Lemma b2a_spec (n : N) :
  (n < 64)%N ->
  Base64.table_a2b_base64 (Base64.b2a n) = Some n /\
  Byte.eqb (Base64.b2a n) Base64.PAD = false /\
  (Byte.to_N (Base64.b2a n) < 128)%N.
Proof.
  intros Hn.
  assert (Hall : forallb (fun i =>
            let v := N.of_nat i in
            match Base64.table_a2b_base64 (Base64.b2a v) with
            | Some v' => (v' =? v)%N
            | None => false
            end && negb (Byte.eqb (Base64.b2a v) Base64.PAD)
                && (Byte.to_N (Base64.b2a v) <? 128)%N) (seq 0 64) = true)
    by (vm_compute; reflexivity).
  rewrite forallb_forall in Hall.
  specialize (Hall (N.to_nat n)). rewrite N2Nat.id in Hall.
  assert (Hin : In (N.to_nat n) (seq 0 64)) by (apply in_seq; lia).
  specialize (Hall Hin). cbv zeta in Hall.
  apply andb_true_iff in Hall as [Hall H3]. apply andb_true_iff in Hall as [H1 H2].
  destruct (Base64.table_a2b_base64 (Base64.b2a n)) as [v'|]; [|discriminate].
  apply N.eqb_eq in H1. apply N.ltb_lt in H3. apply negb_true_iff in H2.
  subst v'. auto.
Qed.

Lemma a2b_loop_sextet (n : N) (rest : bytes) (quad_pos : nat) (leftchar : N)
    (pads : nat) (out : bytes) :
  (n < 64)%N ->
  Base64.a2b_loop (Base64.b2a n :: rest) quad_pos leftchar pads out =
  match quad_pos with
  | 0%nat => Base64.a2b_loop rest 1%nat n 0%nat out
  | 1%nat => Base64.a2b_loop rest 2%nat (n mod 16)%N 0%nat
               (out ++ [byte_of_N (leftchar * 4 + n / 16)])
  | 2%nat => Base64.a2b_loop rest 3%nat (n mod 4)%N 0%nat
               (out ++ [byte_of_N (leftchar * 16 + n / 4)])
  | _ => Base64.a2b_loop rest 0%nat 0%N 0%nat
               (out ++ [byte_of_N (leftchar * 64 + n)])
  end.
Proof.
  intros Hn. destruct (b2a_spec n Hn) as (H1 & H2 & _).
  cbn [Base64.a2b_loop]. rewrite H2, H1. reflexivity.
Qed.

Lemma a2b_loop_pad (rest : bytes) (quad_pos : nat) (leftchar : N) (pads : nat) (out : bytes) :
  Base64.a2b_loop (Base64.PAD :: rest) quad_pos leftchar pads out =
  if (2 <=? quad_pos)%nat then
    if (4 <=? quad_pos + (pads + 1))%nat then Return out
    else Base64.a2b_loop rest quad_pos leftchar (pads + 1)%nat out
  else Base64.a2b_loop rest quad_pos leftchar pads out.
Proof. reflexivity. Qed.

Ltac div_mod_lia :=
  repeat match goal with
  | |- context [(?a / ?b)%N] =>
      let q := fresh "q" in let r := fresh "r" in
      pose proof (N.div_mod a b ltac:(discriminate));
      pose proof (N.mod_lt a b ltac:(discriminate));
      set (q := (a / b)%N) in *; set (r := (a mod b)%N) in *;
      clearbody q; try clearbody r
  | |- context [(?a mod ?b)%N] =>
      let q := fresh "q" in let r := fresh "r" in
      pose proof (N.div_mod a b ltac:(discriminate));
      pose proof (N.mod_lt a b ltac:(discriminate));
      set (q := (a / b)%N) in *; set (r := (a mod b)%N) in *;
      clearbody q; try clearbody r
  end; lia.

Lemma sextets_bound (a b : N) :
  (a < 256)%N -> (b < 256)%N ->
  (a / 4 < 64)%N /\ (a mod 4 * 16 + b / 16 < 64)%N /\ (a mod 64 < 64)%N /\
  (a mod 16 * 4 + b / 64 < 64)%N /\ (a mod 4 * 16 < 64)%N /\ (a mod 16 * 4 < 64)%N.
Proof. intros Ha Hb. repeat split; div_mod_lia. Qed.

Lemma regroup1 (a b : N) : (b < 256)%N -> (a / 4 * 4 + (a mod 4 * 16 + b / 16) / 16 = a)%N.
Proof.
  intros Hb. assert (E : ((a mod 4 * 16 + b / 16) / 16 = a mod 4)%N).
  { symmetry. apply N.div_unique with (r := (b / 16)%N); [div_mod_lia | lia]. }
  rewrite E. div_mod_lia.
Qed.

Lemma regroup2 (a b c : N) :
  (b < 256)%N -> (c < 256)%N ->
  ((a mod 4 * 16 + b / 16) mod 16 * 16 + (b mod 16 * 4 + c / 64) / 4 = b)%N.
Proof.
  intros Hb Hc.
  assert (E1 : ((a mod 4 * 16 + b / 16) mod 16 = b / 16)%N).
  { symmetry. apply N.mod_unique with (q := (a mod 4)%N); [div_mod_lia | lia]. }
  assert (E2 : ((b mod 16 * 4 + c / 64) / 4 = b mod 16)%N).
  { symmetry. apply N.div_unique with (r := (c / 64)%N); [div_mod_lia | lia]. }
  rewrite E1, E2. div_mod_lia.
Qed.

Lemma regroup3 (b c : N) :
  (c < 256)%N -> ((b mod 16 * 4 + c / 64) mod 4 * 64 + c mod 64 = c)%N.
Proof.
  intros Hc.
  assert (E : ((b mod 16 * 4 + c / 64) mod 4 = c / 64)%N).
  { symmetry. apply N.mod_unique with (q := (b mod 16)%N); [div_mod_lia | lia]. }
  rewrite E. div_mod_lia.
Qed.

Lemma regroup1_last (a : N) : (a / 4 * 4 + (a mod 4 * 16) / 16 = a)%N.
Proof.
  rewrite N.div_mul by discriminate. div_mod_lia.
Qed.

Lemma regroup2_last (a b : N) :
  (b < 256)%N -> ((a mod 4 * 16 + b / 16) mod 16 * 16 + (b mod 16 * 4) / 4 = b)%N.
Proof.
  intros Hb.
  assert (E1 : ((a mod 4 * 16 + b / 16) mod 16 = b / 16)%N).
  { symmetry. apply N.mod_unique with (q := (a mod 4)%N); [div_mod_lia | lia]. }
  rewrite E1, N.div_mul by discriminate. div_mod_lia.
Qed.

Lemma a2b_loop_b2a_base64 (data out : bytes) :
  Base64.a2b_loop (Base64.b2a_base64 data) 0 0 0 out = Return (out ++ data).
Proof.
  revert out. induction data as [|x|x y|x y z l IH] using list_ind3; intros out.
  - cbn. now rewrite app_nil_r.
  - pose proof (to_N_lt_256 x) as Hx.
    destruct (sextets_bound (Byte.to_N x) 0 Hx) as (B1 & _ & _ & _ & B5 & _); [lia|].
    cbn [Base64.b2a_base64].
    rewrite !a2b_loop_sextet by assumption.
    rewrite !a2b_loop_pad. cbn [Nat.leb Nat.add].
    now rewrite regroup1_last, byte_of_N_to_N.
  - pose proof (to_N_lt_256 x) as Hx. pose proof (to_N_lt_256 y) as Hy.
    destruct (sextets_bound (Byte.to_N x) (Byte.to_N y) Hx Hy) as (B1 & B2 & _).
    destruct (sextets_bound (Byte.to_N y) 0 Hy) as (_ & _ & _ & _ & _ & B6); [lia|].
    cbn [Base64.b2a_base64].
    rewrite !a2b_loop_sextet by assumption.
    rewrite !a2b_loop_pad. cbn [Nat.leb Nat.add].
    rewrite regroup1, regroup2_last, !byte_of_N_to_N by assumption.
    now rewrite <- app_assoc.
  - pose proof (to_N_lt_256 x) as Hx. pose proof (to_N_lt_256 y) as Hy.
    pose proof (to_N_lt_256 z) as Hz.
    destruct (sextets_bound (Byte.to_N x) (Byte.to_N y) Hx Hy) as (B1 & B2 & _).
    destruct (sextets_bound (Byte.to_N y) (Byte.to_N z) Hy Hz) as (_ & _ & _ & B4 & _).
    destruct (sextets_bound (Byte.to_N z) 0 Hz) as (_ & _ & B3 & _); [lia|].
    cbn [Base64.b2a_base64].
    rewrite !a2b_loop_sextet by assumption.
    rewrite regroup1, regroup2, regroup3, !byte_of_N_to_N by assumption.
    rewrite IH, <- !app_assoc. reflexivity.
Qed.

Lemma a2b_base64_b2a_base64 (data : bytes) :
  Base64.a2b_base64 (Base64.b2a_base64 data) = Return data.
Proof. unfold Base64.a2b_base64. now rewrite a2b_loop_b2a_base64. Qed.

(** The encoder emits whole quads of ASCII characters. *)
Lemma b2a_base64_length (data : bytes) :
  (List.length (Base64.b2a_base64 data) mod 4 = 0)%nat.
Proof.
  induction data as [|x|x y|x y z l IH] using list_ind3; try reflexivity.
  cbn [Base64.b2a_base64 List.length].
  change (S (S (S (S ?n)))) with (1 * 4 + n)%nat.
  rewrite Nat.add_comm, Nat.Div0.mod_add. exact IH.
Qed.

Lemma b2a_base64_ascii (data : bytes) :
  Forall (fun b => (Byte.to_N b < 128)%N) (Base64.b2a_base64 data).
Proof.
  assert (Hpad : (Byte.to_N Base64.PAD < 128)%N) by (vm_compute; reflexivity).
  induction data as [|x|x y|x y z l IH] using list_ind3.
  - constructor.
  - pose proof (to_N_lt_256 x) as Hx.
    destruct (sextets_bound (Byte.to_N x) 0 Hx) as (B1 & _ & _ & _ & B5 & _); [lia|].
    cbn [Base64.b2a_base64]. repeat constructor; try assumption; now apply b2a_spec.
  - pose proof (to_N_lt_256 x) as Hx. pose proof (to_N_lt_256 y) as Hy.
    destruct (sextets_bound (Byte.to_N x) (Byte.to_N y) Hx Hy) as (B1 & B2 & _).
    destruct (sextets_bound (Byte.to_N y) 0 Hy) as (_ & _ & _ & _ & _ & B6); [lia|].
    cbn [Base64.b2a_base64]. repeat constructor; try assumption; now apply b2a_spec.
  - pose proof (to_N_lt_256 x) as Hx. pose proof (to_N_lt_256 y) as Hy.
    pose proof (to_N_lt_256 z) as Hz.
    destruct (sextets_bound (Byte.to_N x) (Byte.to_N y) Hx Hy) as (B1 & B2 & _).
    destruct (sextets_bound (Byte.to_N y) (Byte.to_N z) Hy Hz) as (_ & _ & _ & B4 & _).
    destruct (sextets_bound (Byte.to_N z) 0 Hz) as (_ & _ & B3 & _); [lia|].
    cbn [Base64.b2a_base64]. repeat (constructor; [now apply b2a_spec|]). exact IH.
Qed.

Lemma b2a_alphabet (n : N) :
  (n < 64)%N -> In (Base64.b2a n) (Base64.table_b2a_base64 ++ [Base64.PAD]).
Proof.
  intros Hn. apply in_or_app. left. unfold Base64.b2a. apply nth_In.
  change (List.length Base64.table_b2a_base64) with 64%nat. lia.
Qed.

Lemma b2a_base64_alphabet (data : bytes) :
  Forall (fun b => In b (Base64.table_b2a_base64 ++ [Base64.PAD])) (Base64.b2a_base64 data).
Proof.
  assert (Hpad : In Base64.PAD (Base64.table_b2a_base64 ++ [Base64.PAD]))
    by (apply in_or_app; right; left; reflexivity).
  induction data as [|x|x y|x y z l IH] using list_ind3.
  - constructor.
  - pose proof (to_N_lt_256 x) as Hx.
    destruct (sextets_bound (Byte.to_N x) 0 Hx) as (B1 & _ & _ & _ & B5 & _); [lia|].
    cbn [Base64.b2a_base64].
    repeat (constructor; [first [now apply b2a_alphabet | exact Hpad]|]). constructor.
  - pose proof (to_N_lt_256 x) as Hx. pose proof (to_N_lt_256 y) as Hy.
    destruct (sextets_bound (Byte.to_N x) (Byte.to_N y) Hx Hy) as (B1 & B2 & _).
    destruct (sextets_bound (Byte.to_N y) 0 Hy) as (_ & _ & _ & _ & _ & B6); [lia|].
    cbn [Base64.b2a_base64].
    repeat (constructor; [first [now apply b2a_alphabet | exact Hpad]|]). constructor.
  - pose proof (to_N_lt_256 x) as Hx. pose proof (to_N_lt_256 y) as Hy.
    pose proof (to_N_lt_256 z) as Hz.
    destruct (sextets_bound (Byte.to_N x) (Byte.to_N y) Hx Hy) as (B1 & B2 & _).
    destruct (sextets_bound (Byte.to_N y) (Byte.to_N z) Hy Hz) as (_ & _ & _ & B4 & _).
    destruct (sextets_bound (Byte.to_N z) 0 Hz) as (_ & _ & B3 & _); [lia|].
    cbn [Base64.b2a_base64]. repeat (constructor; [now apply b2a_alphabet|]). exact IH.
Qed.

(** ** ASCII text *)

Lemma utf8_decode_ascii (b : bytes) (pos : nat) :
  Forall (fun x => (Byte.to_N x < 128)%N) b ->
  UTF8.decode_from pos b = Return (map Byte.to_N b).
Proof.
  intros H. revert pos. induction H as [|x b Hx Hb IH]; intros pos; [reflexivity|].
  cbn [UTF8.decode_from map].
  apply N.ltb_lt in Hx. rewrite Hx, IH. reflexivity.
Qed.

Lemma ascii_bytes_to_N (b : bytes) :
  Forall (fun x => (Byte.to_N x < 128)%N) b ->
  Base64.ascii_bytes (map Byte.to_N b) = Return b.
Proof.
  intros H. unfold Base64.ascii_bytes.
  assert (E : forallb (fun c => (c <? 128)%N) (map Byte.to_N b) = true).
  { apply forallb_forall. intros c Hc. apply in_map_iff in Hc as (x & <- & Hx).
    rewrite Forall_forall in H. apply N.ltb_lt. now apply H. }
  rewrite E, map_map. f_equal.
  rewrite <- (map_id b) at 2. apply map_ext. intros x. apply byte_of_N_to_N.
Qed.

Lemma pad_base64_quads (s : str) :
  (List.length s mod 4 = 0)%nat -> pad_base64 s = s.
Proof. intros H. unfold pad_base64. now rewrite H. Qed.

(** The text that [encrypt] returns for an envelope decodes back to the
    envelope. *)
Lemma b64decode_b64encode (data : bytes) :
  UTF8.decode (Base64.b64encode data) = Return (map Byte.to_N (Base64.b64encode data)) /\
  pad_base64 (map Byte.to_N (Base64.b64encode data)) = map Byte.to_N (Base64.b64encode data) /\
  Base64.b64decode (map Byte.to_N (Base64.b64encode data)) = Return data.
Proof.
  unfold Base64.b64encode, Base64.b64decode, UTF8.decode.
  pose proof (b2a_base64_ascii data) as Hascii.
  repeat split.
  - now apply utf8_decode_ascii.
  - apply pad_base64_quads. rewrite length_map. apply b2a_base64_length.
  - rewrite ascii_bytes_to_N by assumption. apply a2b_base64_b2a_base64.
Qed.

(** ** UTF-8: decoding inverts encoding *)

Ltac decide_tests :=
  repeat match goal with
  | |- context [(?a <? ?b)%N] => destruct (N.ltb_spec a b); try lia
  | |- context [(?a <=? ?b)%N] => destruct (N.leb_spec a b); try lia
  | |- context [(?a =? ?b)%N] => destruct (N.eqb_spec a b); try lia
  end.

Lemma utf8_encode_char_length (c : N) :
  (1 <= List.length (UTF8.encode_char c) <= 4)%nat.
Proof.
  unfold UTF8.encode_char.
  destruct (c <? 128)%N; [cbn; lia|].
  destruct (c <? 2048)%N; [cbn; lia|].
  destruct (c <? 65536)%N; cbn; lia.
Qed.

Lemma utf8_decode_encode_char (c : N) (rest : bytes) (pos : nat) :
  UTF8.is_scalar c = true ->
  UTF8.decode_from pos (UTF8.encode_char c ++ rest) =
  Outcome_map (cons c) (UTF8.decode_from (List.length (UTF8.encode_char c) + pos) rest).
Proof.
  intros Hc. unfold UTF8.is_scalar, UTF8.is_surrogate in Hc.
  apply andb_true_iff in Hc as [Hmax Hsur]. apply N.leb_le in Hmax.
  assert (Hns : (c < 0xD800 \/ 0xDFFF < c)%N).
  { apply negb_true_iff, andb_false_iff in Hsur as [H|H];
      [apply N.leb_gt in H | apply N.leb_gt in H]; lia. }
  clear Hsur.
  pose proof (N.div_mod c 64 ltac:(discriminate)) as E1.
  pose proof (N.mod_lt c 64 ltac:(discriminate)) as L1.
  pose proof (N.div_mod (c / 64) 64 ltac:(discriminate)) as E2.
  pose proof (N.mod_lt (c / 64) 64 ltac:(discriminate)) as L2.
  pose proof (N.div_mod (c / 64 / 64) 64 ltac:(discriminate)) as E3.
  pose proof (N.mod_lt (c / 64 / 64) 64 ltac:(discriminate)) as L3.
  unfold UTF8.encode_char.
  replace (c / 4096)%N with (c / 64 / 64)%N by (now rewrite N.Div0.div_div).
  replace (c / 262144)%N with (c / 64 / 64 / 64)%N by (now rewrite !N.Div0.div_div).
  set (r1 := (c mod 64)%N) in *. set (q1 := (c / 64)%N) in *.
  set (r2 := (q1 mod 64)%N) in *. set (q2 := (q1 / 64)%N) in *.
  set (r3 := (q2 mod 64)%N) in *. set (q3 := (q2 / 64)%N) in *.
  clearbody r1 q1 r2 q2 r3 q3.
  destruct (N.ltb_spec c 128) as [H1|H1];
    [|destruct (N.ltb_spec c 2048) as [H2|H2];
      [|destruct (N.ltb_spec c 65536) as [H3|H3]]];
    cbn [app UTF8.decode_from List.length]; unfold UTF8.is_cont;
    rewrite !to_N_byte_of_N by lia; cbv zeta;
    decide_tests; cbn [negb orb andb];
    f_equal; f_equal; lia.
Qed.

Lemma utf8_decode_encode_from (s : str) :
  forall (p q : nat) (b : bytes),
    UTF8.encode_from p s = Return b -> UTF8.decode_from q b = Return s.
Proof.
  induction s as [|c s IH]; intros p q b H; cbn [UTF8.encode_from] in H.
  - inversion H. reflexivity.
  - destruct (UTF8.is_scalar c) eqn:Hc; [|discriminate].
    destruct (UTF8.encode_from (S p) s) as [b'|e] eqn:Hs; [|discriminate].
    cbn in H. inversion H; subst b.
    rewrite utf8_decode_encode_char by assumption.
    now rewrite (IH _ _ _ Hs).
Qed.

Lemma utf8_decode_encode (s : str) (b : bytes) :
  UTF8.encode s = Return b -> UTF8.decode b = Return s.
Proof. apply utf8_decode_encode_from. Qed.

(** Text is well formed when each code point is a Unicode scalar value:
    these are the strings that have a UTF-8 encoding. *)
Lemma utf8_encode_scalars (s : str) (p : nat) :
  forallb UTF8.is_scalar s = true ->
  UTF8.encode_from p s = Return (flat_map UTF8.encode_char s).
Proof.
  revert p. induction s as [|c s IH]; intros p H; [reflexivity|].
  cbn [forallb] in H. apply andb_true_iff in H as [Hc Hs].
  cbn [UTF8.encode_from flat_map]. now rewrite Hc, IH.
Qed.

Lemma utf8_encode_nonempty (s : str) :
  s <> [] -> flat_map UTF8.encode_char s <> [].
Proof.
  destruct s as [|c s]; [congruence|]. intros _ H.
  apply (f_equal (@List.length byte)) in H. cbn [flat_map] in H.
  rewrite length_app in H. pose proof (utf8_encode_char_length c). cbn in H. lia.
Qed.

(** ** Running [encrypt] and [decrypt] *)

(** From here on the primitives are used through the lemmas above. *)
Opaque PBKDF2HMAC_SHA256_derive GCM.encrypt GCM.decrypt AES.encrypt_block.

Lemma drawn_length (w : World) (n : nat) : List.length (drawn w n) = n.
Proof. unfold drawn. now rewrite length_map, length_seq. Qed.

Lemma fresh_salt_length (w : World) : List.length (fresh_salt w) = 16%nat.
Proof. apply drawn_length. Qed.

Lemma fresh_iv_length (w : World) : List.length (fresh_iv w) = 12%nat.
Proof. unfold fresh_iv. now rewrite length_map, length_seq. Qed.

Lemma key_of_length (password_bytes salt : bytes) :
  List.length (key_of password_bytes salt) = 32%nat.
Proof. unfold KEY_SIZE. apply PBKDF2_derive_length. Qed.

Lemma derive_key_run (password : str) (salt : bytes) (w : World) :
  encodable password = true ->
  derive_key password salt w =
  (Return (key_of (utf8 password) salt),
   mkWorld (entropy w) (cursor w) (calls w ++ [call_pbkdf2_derive])).
Proof.
  intros H. unfold derive_key, bind, lift, UTF8.encode.
  rewrite (utf8_encode_scalars password 0 H). reflexivity.
Qed.

Lemma derive_key_raise (password : str) (salt : bytes) (w : World) (e : exn) :
  UTF8.encode password = Raise e -> derive_key password salt w = (Raise e, w).
Proof. intros H. unfold derive_key, bind, lift. now rewrite H. Qed.

Lemma AESGCM_new_key_of (password_bytes salt : bytes) :
  AESGCM.new (key_of password_bytes salt) = Return (key_of password_bytes salt).
Proof. unfold AESGCM.new. now rewrite key_of_length. Qed.

(** A successful [encrypt], step by step. *)
Lemma encrypt_run (p k : str) (w : World) :
  p <> [] -> k <> [] -> encodable p = true -> encodable k = true ->
  encrypt p k w =
  (Return (ascii_text (Base64.b64encode
     (envelope (fresh_salt w) (fresh_iv w)
        (GCM.encrypt (AES.encrypt_block (key_of (utf8 k) (fresh_salt w)))
                     (fresh_iv w) [] (utf8 p))))),
   after_encrypt w).
Proof.
  intros Hp Hk Ep Ek.
  unfold encrypt.
  destruct p as [|c p]; [congruence|]. destruct k as [|d k]; [congruence|].
  cbn [is_empty orb].
  unfold bind at 1. unfold urandom at 1. fold (fresh_salt w).
  unfold bind at 1. unfold urandom at 1. cbn [entropy cursor calls].
  change (drawn (mkWorld (entropy w) (cursor w + SALT_SIZE) (calls w ++ [call_urandom SALT_SIZE]))
                IV_SIZE) with (fresh_iv w).
  unfold bind at 1. rewrite derive_key_run by assumption. cbn [entropy cursor calls].
  unfold bind at 1. unfold lift at 1. rewrite AESGCM_new_key_of.
  unfold bind at 1. unfold lift at 1. unfold UTF8.encode.
  rewrite (utf8_encode_scalars (c :: p) 0 Ep).
  unfold bind at 1. unfold AESGCM.encrypt, bind, log, lift, ret, AESGCM.check_nonce.
  cbn [entropy cursor calls].
  rewrite (fresh_iv_length w). cbn [Nat.leb andb].
  fold (envelope (fresh_salt w) (fresh_iv w)
          (GCM.encrypt (AES.encrypt_block (key_of (utf8 (d :: k)) (fresh_salt w)))
             (fresh_iv w) [] (utf8 (c :: p)))).
  destruct (b64decode_b64encode
              (envelope (fresh_salt w) (fresh_iv w)
                 (GCM.encrypt (AES.encrypt_block (key_of (utf8 (d :: k)) (fresh_salt w)))
                    (fresh_iv w) [] (utf8 (c :: p))))) as (Hdec & _ & _).
  rewrite Hdec. unfold after_encrypt, ascii_text.
  rewrite <- !app_assoc. reflexivity.
Qed.

(** The exceptions of the codecs. *)
Lemma Outcome_map_Raise {A B} (f : A -> B) (o : Outcome A) (e : exn) :
  Outcome_map f o = Raise e -> o = Raise e.
Proof. destruct o; cbn; congruence. Qed.

Lemma utf8_decode_raises (b : bytes) :
  forall (pos : nat) (e : exn),
    UTF8.decode_from pos b = Raise e ->
    exists p len first reason, e = UTF8.decode_error p len first reason.
Proof.
  assert (H : forall n b, (List.length b <= n)%nat -> forall pos e,
             UTF8.decode_from pos b = Raise e ->
             exists p len first reason, e = UTF8.decode_error p len first reason).
  { clear b. induction n as [|n IH]; intros b Hn pos e He.
    - destruct b; [discriminate | cbn in Hn; lia].
    - destruct b as [|b1 r1]; [discriminate|].
      cbn [UTF8.decode_from] in He. cbv zeta in He. cbn [List.length] in Hn.
      repeat match type of He with
      | Raise (UTF8.decode_error _ _ _ _) = Raise _ =>
          inversion He; eauto
      | Outcome_map _ _ = Raise _ =>
          apply Outcome_map_Raise in He; eapply IH; [|exact He]; cbn [List.length] in *; lia
      | (if ?c then _ else _) = Raise _ => destruct c
      | match ?l with [] => _ | _ :: _ => _ end = Raise _ =>
          destruct l; cbn [List.length] in Hn
      end. }
  intros pos e. apply (H (List.length b)). lia.
Qed.

Lemma decode_error_kind (p len : nat) (first : N) (reason : string) :
  error_kind (CryptException
                ("Decryption failed: " ++ str_of_exn (UTF8.decode_error p len first reason)))
  = Some AuthenticationFailed.
Proof. unfold UTF8.decode_error. destruct (len =? 1)%nat; reflexivity. Qed.

Lemma opened_kind (r : option bytes) (e : exn) :
  opened r = Raise e -> error_kind e = Some AuthenticationFailed.
Proof.
  unfold opened. destruct r as [b|]; [|intros H; inversion H; reflexivity].
  destruct (UTF8.decode b) as [s|e'] eqn:E; [discriminate|].
  intros H; inversion H; subst e.
  apply utf8_decode_raises in E as (p & len & first & reason & ->).
  apply decode_error_kind.
Qed.

Lemma slice_length (i j : nat) (b : bytes) :
  (j <= List.length b)%nat -> List.length (slice i j b) = (j - i)%nat.
Proof. intros H. unfold slice. rewrite length_firstn, length_skipn. lia. Qed.

(** [decrypt] on an envelope that passes the length and version checks:
    one key derivation, one call of the cipher, and the handler. *)
Lemma decrypt_opens (text password : str) (data : bytes) (w : World) :
  Base64.b64decode (pad_base64 text) = Return data ->
  (min_size <= List.length data)%nat ->
  Byte.to_N (nth 0 data x00) = VERSION_ID ->
  encodable password = true ->
  decrypt text password w =
  (opened (GCM.decrypt
             (AES.encrypt_block
                (key_of (utf8 password) (slice 1 (1 + SALT_SIZE) data)))
             (slice (1 + SALT_SIZE) (1 + SALT_SIZE + IV_SIZE) data) []
             (skipn (1 + SALT_SIZE + IV_SIZE) data)),
   after_decrypt w).
Proof.
  intros Hdec Hlen Hver Hpw.
  unfold decrypt, try_except, decrypt_try.
  unfold bind at 1. unfold lift at 1. rewrite Hdec.
  apply Nat.ltb_ge in Hlen. rewrite Hlen.
  rewrite Hver, N.eqb_refl. cbn [negb].
  unfold bind at 1. rewrite derive_key_run by assumption.
  unfold bind at 1. unfold lift at 1. rewrite AESGCM_new_key_of.
  unfold bind at 1. unfold AESGCM.decrypt.
  unfold bind at 1. unfold log at 1. cbn [entropy cursor calls].
  unfold bind at 1. unfold lift at 1. unfold AESGCM.check_nonce.
  apply Nat.ltb_ge in Hlen. unfold min_size, SALT_SIZE, IV_SIZE, TAG_SIZE in Hlen.
  rewrite slice_length by (unfold SALT_SIZE, IV_SIZE; lia).
  change (1 + SALT_SIZE + IV_SIZE - (1 + SALT_SIZE))%nat with 12%nat.
  cbn [Nat.leb andb].
  assert (Hct : (List.length (skipn (1 + SALT_SIZE + IV_SIZE) data) <? 16)%nat = false).
  { apply Nat.ltb_ge. rewrite length_skipn. unfold SALT_SIZE, IV_SIZE. lia. }
  rewrite Hct. unfold after_decrypt. rewrite <- app_assoc. cbn [app].
  destruct (GCM.decrypt _ _ _ _) as [b|]; cbn [opened].
  - unfold ret, lift. destruct (UTF8.decode b) as [s|e] eqn:E; [reflexivity|].
    apply utf8_decode_raises in E as (q & len & first & reason & ->).
    reflexivity.
  - reflexivity.
Qed.

Lemma skipn_app_exact {A} (n : nat) (a b : list A) :
  List.length a = n -> skipn n (a ++ b) = b.
Proof.
  intros <-. now rewrite skipn_app, skipn_all, Nat.sub_diag, skipn_O.
Qed.

Lemma firstn_app_exact {A} (n : nat) (a b : list A) :
  List.length a = n -> firstn n (a ++ b) = a.
Proof.
  intros <-. now rewrite firstn_app, firstn_all, Nat.sub_diag, firstn_O, app_nil_r.
Qed.

(** The fields of an envelope are where [decrypt] reads them. *)
Lemma envelope_fields (salt iv ciphertext : bytes) :
  List.length salt = 16%nat -> List.length iv = 12%nat ->
  nth 0 (envelope salt iv ciphertext) x00 = byte_of_N VERSION_ID /\
  slice 1 (1 + SALT_SIZE) (envelope salt iv ciphertext) = salt /\
  slice (1 + SALT_SIZE) (1 + SALT_SIZE + IV_SIZE) (envelope salt iv ciphertext) = iv /\
  skipn (1 + SALT_SIZE + IV_SIZE) (envelope salt iv ciphertext) = ciphertext /\
  List.length (envelope salt iv ciphertext) = (29 + List.length ciphertext)%nat.
Proof.
  intros Hs Hi. unfold envelope, slice, SALT_SIZE, IV_SIZE.
  change (1 + 16 - 1)%nat with 16%nat.
  change (1 + 16 + 12 - (1 + 16))%nat with 12%nat.
  change (1 + 16 + 12)%nat with 29%nat. change (1 + 16)%nat with 17%nat.
  split; [reflexivity|]. split; [|split; [|split]].
  - rewrite (skipn_app_exact 1) by reflexivity. now apply firstn_app_exact.
  - rewrite (app_assoc [byte_of_N VERSION_ID] salt).
    rewrite (skipn_app_exact 17) by (rewrite length_app, Hs; reflexivity).
    now apply firstn_app_exact.
  - rewrite (app_assoc [byte_of_N VERSION_ID] salt), (app_assoc _ iv).
    apply skipn_app_exact. rewrite !length_app, Hs, Hi. reflexivity.
  - rewrite !length_app, Hs, Hi. cbn [List.length]. lia.
Qed.

(** [decrypt] on the text of an envelope: the cipher is run on the
    embedded salt, nonce and ciphertext with the key of the password. *)
Lemma decrypt_sealed (salt iv ciphertext : bytes) (password : str) (w : World) :
  List.length salt = 16%nat -> List.length iv = 12%nat ->
  (17 <= List.length ciphertext)%nat ->
  encodable password = true ->
  decrypt (ascii_text (Base64.b64encode (envelope salt iv ciphertext))) password w =
  (opened (GCM.decrypt (AES.encrypt_block (key_of (utf8 password) salt)) iv [] ciphertext),
   after_decrypt w).
Proof.
  intros Hs Hi Hc Hpw.
  destruct (envelope_fields salt iv ciphertext Hs Hi) as (F0 & F1 & F2 & F3 & F4).
  destruct (b64decode_b64encode (envelope salt iv ciphertext)) as (_ & Hpad & Hdec).
  unfold ascii_text.
  rewrite (decrypt_opens _ password (envelope salt iv ciphertext) w).
  - now rewrite F1, F2, F3.
  - now rewrite Hpad.
  - rewrite F4. unfold min_size, SALT_SIZE, IV_SIZE, TAG_SIZE. lia.
  - rewrite F0. reflexivity.
  - assumption.
Qed.

Lemma opened_utf8 (s : str) :
  encodable s = true -> opened (Some (utf8 s)) = Return s.
Proof.
  intros H. unfold opened.
  rewrite (utf8_decode_encode s (utf8 s)); [reflexivity|].
  apply utf8_encode_scalars. exact H.
Qed.

Lemma utf8_length_pos (s : str) : s <> [] -> (1 <= List.length (utf8 s))%nat.
Proof.
  intros H. apply utf8_encode_nonempty in H.
  destruct (utf8 s); [congruence | cbn; lia].
Qed.

(** [decrypt] applied to what [encrypt] returns, for any two passwords. *)
Lemma decrypt_encrypted (p k1 k2 : str) (w : World) :
  p <> [] -> k1 <> [] ->
  encodable p = true -> encodable k1 = true -> encodable k2 = true ->
  bind (encrypt p k1) (fun text => decrypt text k2) w =
  (opened (GCM.decrypt (AES.encrypt_block (key_of (utf8 k2) (fresh_salt w))) (fresh_iv w) []
             (GCM.encrypt (AES.encrypt_block (key_of (utf8 k1) (fresh_salt w)))
                          (fresh_iv w) [] (utf8 p))),
   after_decrypt (after_encrypt w)).
Proof.
  intros Hp Hk1 Ep Ek1 Ek2.
  unfold bind. rewrite encrypt_run by assumption.
  apply decrypt_sealed; try assumption.
  - apply fresh_salt_length.
  - apply fresh_iv_length.
  - rewrite gcm_encrypt_length. pose proof (utf8_length_pos p Hp). lia.
Qed.

(** ** The properties of the specification *)

(** C1.  Round trip: for non-empty text [p] and a non-empty password [k],
    both with a UTF-8 encoding, [decrypt(encrypt(p, k), k)] returns [p],
    whatever salt and nonce the generator gives. *)
Theorem decrypt_encrypt_roundtrip (p k : str) (w : World) :
  p <> [] -> k <> [] -> encodable p = true -> encodable k = true ->
  bind (encrypt p k) (fun text => decrypt text k) w =
  (Return p, after_decrypt (after_encrypt w)).
Proof.
  intros Hp Hk Ep Ek.
  rewrite decrypt_encrypted by assumption.
  rewrite gcm_decrypt_encrypt, opened_utf8 by assumption.
  reflexivity.
Qed.

Lemma decrypt_encrypt_roundtrip_witness :
  bind (encrypt (lit "hello world") (lit "correct horse"))
       (fun text => decrypt text (lit "correct horse")) counting_world =
  (Return (lit "hello world"), after_decrypt (after_encrypt counting_world)).
Proof.
  apply decrypt_encrypt_roundtrip; [discriminate | discriminate | reflexivity | reflexivity].
Defined.

(** HMAC fills a short key with zero bytes, so a password and the same
    password followed by U+0000 have one key block, hence one key. *)
Lemma key_of_key_block (k1 k2 salt : bytes) :
  hmac_key_block k1 = hmac_key_block k2 -> key_of k1 salt = key_of k2 salt.
Proof. apply PBKDF2_derive_key_block. Qed.

Lemma wrong_password_cases (p k1 k2 : str) (w : World) :
  p <> [] -> k1 <> [] ->
  encodable p = true -> encodable k1 = true -> encodable k2 = true ->
  let salt := fresh_salt w in
  let iv := fresh_iv w in
  let sealed := GCM.encrypt (AES.encrypt_block (key_of (utf8 k1) salt)) iv [] (utf8 p) in
  let verdict := GCM.decrypt (AES.encrypt_block (key_of (utf8 k2) salt)) iv [] sealed in
  bind (encrypt p k1) (fun text => decrypt text k2) w =
    (opened verdict, after_decrypt (after_encrypt w)) /\
  (verdict = None ->
   opened verdict = Raise (CryptException "Decryption failed: Invalid tag (wrong password?)")) /\
  (forall e, opened verdict = Raise e -> error_kind e = Some AuthenticationFailed) /\
  (key_of (utf8 k2) salt = key_of (utf8 k1) salt -> opened verdict = Return p).
Proof.
  intros Hp Hk1 Ep Ek1 Ek2 salt iv sealed verdict.
  split; [|split; [|split]].
  - now apply decrypt_encrypted.
  - intros ->. reflexivity.
  - intros e. apply opened_kind.
  - intros Hkey. unfold verdict, sealed. rewrite Hkey, gcm_decrypt_encrypt.
    now apply opened_utf8.
Qed.

(** C2 does not hold as the specification states it: the password ["a"]
    followed by U+0000 is another non-empty password, and it opens what
    ["a"] sealed. *)
Lemma wrong_password_accepted :
  lit "a" <> [97; 0]%N /\ lit "a" <> [] /\ [97; 0]%N <> [] /\
  bind (encrypt (lit "x") (lit "a")) (fun text => decrypt text [97; 0]%N) counting_world =
  (Return (lit "x"), after_decrypt (after_encrypt counting_world)).
Proof.
  split; [discriminate|]. split; [discriminate|]. split; [discriminate|].
  assert (Hp : lit "x" <> []) by discriminate.
  assert (Hk : lit "a" <> []) by discriminate.
  assert (Ep : encodable (lit "x") = true) by reflexivity.
  assert (Ek1 : encodable (lit "a") = true) by reflexivity.
  assert (Ek2 : encodable [97; 0]%N = true) by reflexivity.
  destruct (wrong_password_cases (lit "x") (lit "a") [97; 0]%N counting_world Hp Hk Ep Ek1 Ek2)
    as (Hrun & _ & _ & Hsame).
  rewrite Hrun, Hsame; [reflexivity|].
  apply key_of_key_block. vm_compute. reflexivity.
Qed.

(** C2, amended.  For non-empty [p] and passwords [k1], [k2] (all with
    a UTF-8 encoding), [decrypt(encrypt(p, k1), k2)] runs the cipher once
    under the key of [k2].  When the tag does not verify it fails with the
    one error of kind AuthenticationFailed, the same for every envelope
    whose tag does not verify, tampered or not; it never fails with another
    kind; and when [k2] has the key of [k1] it returns [p]. *)
Theorem wrong_password_outcome (p k1 k2 : str) (w : World) :
  p <> [] -> k1 <> [] -> k2 <> [] ->
  encodable p = true -> encodable k1 = true -> encodable k2 = true ->
  let salt := fresh_salt w in
  let iv := fresh_iv w in
  let key2 := key_of (utf8 k2) salt in
  let sealed := GCM.encrypt (AES.encrypt_block (key_of (utf8 k1) salt)) iv [] (utf8 p) in
  let verdict := GCM.decrypt (AES.encrypt_block key2) iv [] sealed in
  bind (encrypt p k1) (fun text => decrypt text k2) w =
    (opened verdict, after_decrypt (after_encrypt w)) /\
  (verdict = None ->
   opened verdict = Raise (CryptException "Decryption failed: Invalid tag (wrong password?)")) /\
  (forall e, opened verdict = Raise e -> error_kind e = Some AuthenticationFailed) /\
  (key2 = key_of (utf8 k1) salt -> opened verdict = Return p) /\
  (forall (other : bytes) (w' : World),
      (17 <= List.length other)%nat ->
      GCM.decrypt (AES.encrypt_block key2) iv [] other = None ->
      decrypt (ascii_text (Base64.b64encode (envelope salt iv other))) k2 w' =
      (Raise (CryptException "Decryption failed: Invalid tag (wrong password?)"),
       after_decrypt w')).
Proof.
  intros Hp Hk1 Hk2 Ep Ek1 Ek2 salt iv key2 sealed verdict.
  destruct (wrong_password_cases p k1 k2 w Hp Hk1 Ep Ek1 Ek2) as (H1 & H2 & H3 & H4).
  repeat (split; [assumption|]).
  intros other w' Hlen Hbad.
  rewrite decrypt_sealed; try assumption.
  - fold key2. now rewrite Hbad.
  - apply fresh_salt_length.
  - apply fresh_iv_length.
Qed.

Lemma wrong_password_outcome_witness :
  let p := lit "hello world" in
  let k1 := lit "correct horse" in
  let k2 := lit "wrong horse" in
  let salt := fresh_salt counting_world in
  let iv := fresh_iv counting_world in
  let verdict :=
    GCM.decrypt (AES.encrypt_block (key_of (utf8 k2) salt)) iv []
      (GCM.encrypt (AES.encrypt_block (key_of (utf8 k1) salt)) iv [] (utf8 p)) in
  bind (encrypt p k1) (fun text => decrypt text k2) counting_world =
    (opened verdict, after_decrypt (after_encrypt counting_world)).
Proof.
  intros p k1 k2 salt iv verdict.
  assert (Hp : p <> []) by discriminate.
  assert (Hk1 : k1 <> []) by discriminate.
  assert (Hk2 : k2 <> []) by discriminate.
  assert (Ep : encodable p = true) by reflexivity.
  assert (Ek1 : encodable k1 = true) by reflexivity.
  assert (Ek2 : encodable k2 = true) by reflexivity.
  exact (proj1 (wrong_password_outcome p k1 k2 counting_world Hp Hk1 Hk2 Ep Ek1 Ek2)).
Defined.

Lemma decrypt_rejects_short_aux (text password : str) (data : bytes) (w : World) :
  Base64.b64decode (pad_base64 text) = Return data ->
  (List.length data < min_size)%nat ->
  decrypt text password w =
    (Raise (CryptException "Decryption failed: Encrypted data too short"), w).
Proof.
  intros Hdec Hlen.
  unfold decrypt, try_except, decrypt_try, bind, lift. rewrite Hdec.
  apply Nat.ltb_lt in Hlen. rewrite Hlen. reflexivity.
Qed.

(** C3.  Truncation: when the text decodes to fewer than 46 bytes,
    [decrypt] fails with the MalformedEnvelope error, whose text says the
    data is too short; nothing else has been attempted. *)
Theorem decrypt_rejects_short (text password : str) (data : bytes) (w : World) :
  Base64.b64decode (pad_base64 text) = Return data ->
  (List.length data < 46)%nat ->
  decrypt text password w =
    (Raise (CryptException "Decryption failed: Encrypted data too short"), w) /\
  error_kind (CryptException "Decryption failed: Encrypted data too short") =
    Some MalformedEnvelope.
Proof.
  intros Hdec Hlen. split; [|reflexivity].
  now apply (decrypt_rejects_short_aux text password data w).
Qed.

(** The 45-byte buffer of the specification: 45 zero bytes, that is 60
    times the letter A. *)
Lemma decrypt_rejects_short_witness :
  decrypt (repeat (ord "A") 60) (lit "correct horse") counting_world =
    (Raise (CryptException "Decryption failed: Encrypted data too short"), counting_world) /\
  error_kind (CryptException "Decryption failed: Encrypted data too short") =
    Some MalformedEnvelope.
Proof.
  apply (decrypt_rejects_short (repeat (ord "A") 60) (lit "correct horse") (repeat x00 45)).
  - vm_compute. reflexivity.
  - vm_compute. lia.
Defined.

(** C4.  Version rejection: when the text decodes to at least 46 bytes
    and the first is not 0x08, [decrypt] fails with the UnsupportedVersion
    error for every password, and the world is as it was: no key has been
    derived and the cipher has not been called. *)
Theorem decrypt_rejects_version (text password : str) (data : bytes) (w : World) :
  Base64.b64decode (pad_base64 text) = Return data ->
  (46 <= List.length data)%nat ->
  Byte.to_N (nth 0 data x00) <> VERSION_ID ->
  let msg := ("Decryption failed: Unsupported version ID: " ++
              hex_fixed 2 (Byte.to_N (nth 0 data x00)))%string in
  decrypt text password w = (Raise (CryptException msg), w) /\
  calls (snd (decrypt text password w)) = calls w /\
  error_kind (CryptException msg) = Some UnsupportedVersion.
Proof.
  intros Hdec Hlen Hver msg.
  assert (Hrun : decrypt text password w = (Raise (CryptException msg), w)).
  { unfold decrypt, try_except, decrypt_try, bind, lift. rewrite Hdec.
    assert (E : (List.length data <? min_size)%nat = false) by (apply Nat.ltb_ge; exact Hlen).
    rewrite E. apply N.eqb_neq in Hver. rewrite Hver. reflexivity. }
  split; [exact Hrun|]. split; [now rewrite Hrun|]. reflexivity.
Qed.

(** An envelope of 46 bytes with version 0x01, given without its
    padding. *)
Lemma decrypt_rejects_version_witness :
  let text := lit "AQ" ++ repeat (ord "A") 60 in
  decrypt text (lit "correct horse") counting_world =
    (Raise (CryptException "Decryption failed: Unsupported version ID: 01"), counting_world).
Proof.
  intros text.
  apply (decrypt_rejects_version text (lit "correct horse") (x01 :: repeat x00 45)).
  - vm_compute. reflexivity.
  - vm_compute. lia.
  - vm_compute. discriminate.
Defined.

(** C5.  Empty input: with an empty plaintext or an empty password
    [encrypt] fails with the InvalidInput error; it returns no envelope
    and has drawn no randomness. *)
Theorem encrypt_rejects_empty (p k : str) (w : World) :
  p = [] \/ k = [] ->
  encrypt p k w = (Raise (CryptException "Plaintext and password cannot be empty"), w) /\
  error_kind (CryptException "Plaintext and password cannot be empty") = Some InvalidInput.
Proof.
  intros H. split; [|reflexivity]. unfold encrypt.
  destruct H as [-> | ->]; [reflexivity|].
  destruct p; reflexivity.
Qed.

Lemma encrypt_rejects_empty_witness :
  encrypt [] (lit "correct horse") counting_world =
    (Raise (CryptException "Plaintext and password cannot be empty"), counting_world) /\
  error_kind (CryptException "Plaintext and password cannot be empty") = Some InvalidInput.
Proof. apply encrypt_rejects_empty. left. reflexivity. Defined.

(** Only encodable text is encoded. *)
Lemma utf8_encode_Return (s : str) :
  forall (pos : nat) (b : bytes), UTF8.encode_from pos s = Return b -> encodable s = true.
Proof.
  induction s as [|c s IH]; intros pos b H; [reflexivity|].
  cbn [UTF8.encode_from] in H. unfold encodable. cbn [forallb].
  destruct (UTF8.is_scalar c); [|discriminate].
  destruct (UTF8.encode_from (S pos) s) as [b'|] eqn:E; [|discriminate].
  apply (IH _ _ E).
Qed.

(** A successful [encrypt] had non-empty, encodable arguments. *)
Lemma encrypt_Return (p k : str) (w w1 : World) (text : str) :
  encrypt p k w = (Return text, w1) ->
  p <> [] /\ k <> [] /\ encodable p = true /\ encodable k = true.
Proof.
  intros H. unfold encrypt in H.
  destruct p as [|c p]; [discriminate|]. destruct k as [|d k]; [discriminate|].
  cbn [is_empty orb] in H.
  unfold bind at 1 in H. unfold urandom at 1 in H.
  unfold bind at 1 in H. unfold urandom at 1 in H.
  unfold bind at 1 in H. unfold derive_key at 1 in H.
  unfold bind at 1 in H. unfold lift at 1 in H.
  destruct (UTF8.encode (d :: k)) as [kb|] eqn:Ek; [|discriminate].
  apply utf8_encode_Return in Ek.
  unfold bind at 1 in H. unfold log at 1 in H. unfold ret at 1 in H.
  unfold bind at 1 in H. unfold lift at 1 in H.
  destruct (AESGCM.new _) as [key|]; [|discriminate].
  unfold bind at 1 in H. unfold lift at 1 in H.
  destruct (UTF8.encode (c :: p)) as [pb|] eqn:Ep; [|discriminate].
  apply utf8_encode_Return in Ep.
  repeat split; congruence.
Qed.

(** C6.  Envelope layout: what a successful [encrypt] returns is the
    padded base64 text, in the standard alphabet, of the version byte
    0x08, the 16-byte salt, the 12-byte nonce, the ciphertext (as long as
    the UTF-8 plaintext, so not empty) and the 16-byte tag; it decodes to
    these bytes, at least 46 of them. *)
Theorem encrypt_envelope_layout (p k : str) (w w1 : World) (text : str) :
  encrypt p k w = (Return text, w1) ->
  exists salt iv ciphertext tag : bytes,
    let output := [x08] ++ salt ++ iv ++ ciphertext ++ tag in
    text = ascii_text (Base64.b64encode output) /\
    salt = fresh_salt w /\ iv = fresh_iv w /\
    List.length salt = 16%nat /\ List.length iv = 12%nat /\
    List.length ciphertext = List.length (utf8 p) /\
    (1 <= List.length ciphertext)%nat /\
    List.length tag = 16%nat /\
    ciphertext ++ tag =
      GCM.encrypt (AES.encrypt_block (key_of (utf8 k) salt)) iv [] (utf8 p) /\
    (List.length text mod 4 = 0)%nat /\
    Forall (fun c => In c (ascii_text (Base64.table_b2a_base64 ++ [Base64.PAD]))) text /\
    Base64.b64decode text = Return output /\
    (46 <= List.length output)%nat.
Proof.
  intros H.
  destruct (encrypt_Return p k w w1 text H) as (Hp & Hk & Ep & Ek).
  pose proof (encrypt_run p k w Hp Hk Ep Ek) as Hrun. rewrite H in Hrun.
  assert (Htext : text = ascii_text (Base64.b64encode
            (envelope (fresh_salt w) (fresh_iv w)
               (GCM.encrypt (AES.encrypt_block (key_of (utf8 k) (fresh_salt w)))
                  (fresh_iv w) [] (utf8 p))))) by congruence.
  clear H Hrun.
  destruct (gcm_encrypt_parts (AES.encrypt_block (key_of (utf8 k) (fresh_salt w)))
              (fresh_iv w) [] (utf8 p)) as (c & t & Hparts & Hc & Ht).
  exists (fresh_salt w), (fresh_iv w), c, t. cbv zeta.
  rewrite Hparts in Htext. unfold envelope in Htext.
  change (byte_of_N VERSION_ID) with x08 in Htext.
  set (output := [x08] ++ fresh_salt w ++ fresh_iv w ++ c ++ t) in *.
  destruct (b64decode_b64encode output) as (_ & _ & Hdec).
  pose proof (utf8_length_pos p Hp) as Hpos.
  split; [exact Htext|]. split; [reflexivity|]. split; [reflexivity|].
  split; [apply fresh_salt_length|]. split; [apply fresh_iv_length|].
  split; [exact Hc|]. split; [lia|]. split; [exact Ht|].
  split; [symmetry; exact Hparts|].
  split; [|split; [|split]].
  - rewrite Htext. unfold ascii_text. rewrite length_map. apply b2a_base64_length.
  - rewrite Htext. unfold ascii_text. apply Forall_map.
    eapply Forall_impl; [|apply b2a_base64_alphabet].
    intros b Hb. now apply in_map.
  - rewrite Htext. exact Hdec.
  - unfold output. rewrite !length_app, fresh_salt_length, fresh_iv_length, Hc, Ht.
    cbn [List.length]. lia.
Qed.

Lemma encrypt_envelope_layout_witness :
  exists text salt iv ciphertext tag : bytes,
    encrypt (lit "hello world") (lit "correct horse") counting_world =
      (Return (ascii_text text), after_encrypt counting_world) /\
    text = Base64.b64encode ([x08] ++ salt ++ iv ++ ciphertext ++ tag) /\
    List.length salt = 16%nat /\ List.length iv = 12%nat /\
    List.length ciphertext = 11%nat /\ List.length tag = 16%nat.
Proof.
  assert (Hp : lit "hello world" <> []) by discriminate.
  assert (Hk : lit "correct horse" <> []) by discriminate.
  assert (Ep : encodable (lit "hello world") = true) by reflexivity.
  assert (Ek : encodable (lit "correct horse") = true) by reflexivity.
  pose proof (encrypt_run (lit "hello world") (lit "correct horse") counting_world Hp Hk Ep Ek)
    as Hrun.
  destruct (encrypt_envelope_layout _ _ _ _ _ Hrun)
    as (salt & iv & c & t & Htext & _ & _ & Hs & Hi & Hc & _ & Ht & _).
  exists (Base64.b64encode ([x08] ++ salt ++ iv ++ c ++ t)), salt, iv, c, t.
  split; [rewrite <- Htext; exact Hrun|].
  split; [reflexivity|]. split; [exact Hs|]. split; [exact Hi|].
  split; [exact Hc | exact Ht].
Defined.

(** The errors of the base64 decoder, and their kind. *)
Lemma a2b_loop_raises (data : bytes) :
  forall (quad_pos : nat) (leftchar : N) (pads : nat) (out : bytes) (e : exn),
    Base64.a2b_loop data quad_pos leftchar pads out = Raise e ->
    e = binascii_Error "Incorrect padding" \/
    exists n, e = binascii_Error
                    ("Invalid base64-encoded string: number of data characters (" ++
                     dec n ++ ") cannot be 1 more than a multiple of 4").
Proof.
  induction data as [|ch rest IH]; intros quad_pos leftchar pads out e H.
  - cbn [Base64.a2b_loop] in H.
    destruct quad_pos as [|[|q]]; [discriminate | right | left].
    + eexists. injection H as <-. reflexivity.
    + injection H as <-. reflexivity.
  - cbn [Base64.a2b_loop] in H.
    destruct (Byte.eqb ch Base64.PAD).
    + destruct (2 <=? quad_pos)%nat; [|eauto].
      destruct (4 <=? quad_pos + (pads + 1))%nat; [discriminate | eauto].
    + destruct (Base64.table_a2b_base64 ch); [|eauto].
      destruct quad_pos as [|[|[|q]]]; eauto.
Qed.

Lemma b64decode_raises (s : str) (e : exn) :
  Base64.b64decode s = Raise e ->
  error_kind (CryptException ("Decryption failed: " ++ str_of_exn e)) = Some MalformedEnvelope /\
  decrypt_except e = raise (CryptException ("Decryption failed: " ++ str_of_exn e)).
Proof.
  unfold Base64.b64decode, Base64.ascii_bytes.
  destruct (forallb _ s).
  - intros H. apply a2b_loop_raises in H as [-> | (n & ->)]; split; reflexivity.
  - intros H. inversion H. split; reflexivity.
Qed.

Lemma pad_base64_spec (text : str) :
  (List.length (pad_base64 text) mod 4 = 0)%nat /\
  exists n, (n < 4)%nat /\ pad_base64 text = text ++ repeat (ord "=") n /\
            ((List.length text mod 4 = 0)%nat -> n = 0%nat).
Proof.
  unfold pad_base64.
  pose proof (Nat.mod_upper_bound (List.length text) 4 ltac:(discriminate)) as Hlt.
  pose proof (Nat.div_mod_eq (List.length text) 4) as Hdm.
  destruct (Nat.eqb_spec (List.length text mod 4) 0) as [E|E].
  - split; [exact E|]. exists 0%nat. cbn [repeat]. rewrite app_nil_r.
    repeat split; auto; lia.
  - split.
    + rewrite length_app, repeat_length.
      replace (List.length text + (4 - List.length text mod 4))%nat
        with ((List.length text / 4 + 1) * 4)%nat by lia.
      apply Nat.Div0.mod_mul.
    + exists (4 - List.length text mod 4)%nat. repeat split; [lia | lia].
Qed.

(** C7.  Transport decoding: [decrypt] first fills the text with ['=']
    up to a multiple of 4 characters (adding nothing when it is one
    already), then decodes it as base64; when the decoder rejects the
    text, [decrypt] fails with that reason as a MalformedEnvelope error,
    and nothing else has been attempted. *)
Theorem decrypt_transport_decoding (text password : str) (e : exn) (w : World) :
  Base64.b64decode (pad_base64 text) = Raise e ->
  ((List.length (pad_base64 text) mod 4 = 0)%nat /\
   exists n, (n < 4)%nat /\ pad_base64 text = text ++ repeat (ord "=") n /\
             ((List.length text mod 4 = 0)%nat -> n = 0%nat)) /\
  decrypt text password w =
    (Raise (CryptException ("Decryption failed: " ++ str_of_exn e)), w) /\
  error_kind (CryptException ("Decryption failed: " ++ str_of_exn e)) = Some MalformedEnvelope.
Proof.
  intros H. split; [apply pad_base64_spec|].
  destruct (b64decode_raises _ _ H) as (Hkind & Hexc).
  split; [|exact Hkind].
  unfold decrypt, try_except, decrypt_try, bind, lift. rewrite H, Hexc. reflexivity.
Qed.

(** The one-letter text ["a"] is filled to ["a==="], which is no base64. *)
Lemma decrypt_transport_decoding_witness :
  pad_base64 (lit "a") = lit "a===" /\
  decrypt (lit "a") (lit "correct horse") counting_world =
    (Raise (CryptException
       "Decryption failed: Invalid base64-encoded string: number of data characters (1) cannot be 1 more than a multiple of 4"),
     counting_world).
Proof.
  split; [reflexivity|].
  apply (decrypt_transport_decoding (lit "a") (lit "correct horse")
           (binascii_Error
              "Invalid base64-encoded string: number of data characters (1) cannot be 1 more than a multiple of 4")).
  vm_compute. reflexivity.
Defined.

(** C8.  Non-UTF-8 after authentication: when the envelope passes the
    length and version checks and its tag verifies under the key of the
    password, but the recovered bytes are not UTF-8, [decrypt] fails with
    a [CryptException] of kind AuthenticationFailed that carries the
    decoder's reason; the decoder's own exception does not escape. *)
Theorem decrypt_non_utf8 (text password : str) (data plain : bytes) (e : exn) (w : World) :
  Base64.b64decode (pad_base64 text) = Return data ->
  (min_size <= List.length data)%nat ->
  Byte.to_N (nth 0 data x00) = VERSION_ID ->
  encodable password = true ->
  GCM.decrypt
    (AES.encrypt_block (key_of (utf8 password) (slice 1 (1 + SALT_SIZE) data)))
    (slice (1 + SALT_SIZE) (1 + SALT_SIZE + IV_SIZE) data) []
    (skipn (1 + SALT_SIZE + IV_SIZE) data) = Some plain ->
  UTF8.decode plain = Raise e ->
  decrypt text password w =
    (Raise (CryptException ("Decryption failed: " ++ str_of_exn e)), after_decrypt w) /\
  error_kind (CryptException ("Decryption failed: " ++ str_of_exn e)) =
    Some AuthenticationFailed.
Proof.
  intros Hdec Hlen Hver Hpw Hopen Hutf.
  rewrite (decrypt_opens text password data w Hdec Hlen Hver Hpw), Hopen.
  unfold opened. rewrite Hutf. split; [reflexivity|].
  apply utf8_decode_raises in Hutf as (q & len & first & reason & ->).
  apply decode_error_kind.
Qed.

(** The single byte 0xff, which is not UTF-8, sealed under the key of the
    password. *)
Lemma decrypt_non_utf8_witness :
  let password := lit "correct horse" in
  let salt := repeat x00 16 in
  let iv := repeat x00 12 in
  let sealed := GCM.encrypt (AES.encrypt_block (key_of (utf8 password) salt)) iv [] [xff] in
  decrypt (ascii_text (Base64.b64encode (envelope salt iv sealed))) password counting_world =
    (Raise (CryptException
       "Decryption failed: 'utf-8' codec can't decode byte 0xff in position 0: invalid start byte"),
     after_decrypt counting_world).
Proof.
  intros password salt iv sealed.
  assert (Hs : List.length salt = 16%nat) by reflexivity.
  assert (Hi : List.length iv = 12%nat) by reflexivity.
  destruct (envelope_fields salt iv sealed Hs Hi) as (F0 & F1 & F2 & F3 & F4).
  destruct (b64decode_b64encode (envelope salt iv sealed)) as (_ & Hpad & Hdec).
  assert (Hlen : List.length sealed = 17%nat) by (unfold sealed; now rewrite gcm_encrypt_length).
  apply (decrypt_non_utf8 (ascii_text (Base64.b64encode (envelope salt iv sealed))) password
           (envelope salt iv sealed) [xff]
           (UTF8.decode_error 0 1 255 "invalid start byte")).
  - unfold ascii_text. now rewrite Hpad.
  - rewrite F4, Hlen. unfold min_size, SALT_SIZE, IV_SIZE, TAG_SIZE. lia.
  - rewrite F0. reflexivity.
  - reflexivity.
  - rewrite F1, F2, F3. apply gcm_decrypt_encrypt.
  - reflexivity.
Defined.

(** C9.  Error totality: [decrypt] returns a string or raises a
    [CryptException] whose text starts with "Decryption failed: "; the
    handler turns every exception of the body into one, the body's own
    [CryptException]s included. *)
Theorem decrypt_total (text password : str) (w : World) :
  (forall (e : exn) (w' : World), exists msg,
      decrypt_except e w' = (Raise (CryptException ("Decryption failed: " ++ msg)), w')) /\
  (forall (m : string) (w' : World),
      decrypt_except (CryptException m) w' =
        (Raise (CryptException ("Decryption failed: " ++ m)), w')) /\
  ((exists s w', decrypt text password w = (Return s, w')) \/
   (exists msg w',
      decrypt text password w = (Raise (CryptException ("Decryption failed: " ++ msg)), w'))).
Proof.
  assert (Hh : forall (e : exn) (w' : World), exists msg,
             decrypt_except e w' = (Raise (CryptException ("Decryption failed: " ++ msg)), w')).
  { intros e w'. destruct e; eexists; reflexivity. }
  split; [exact Hh|]. split; [reflexivity|].
  unfold decrypt, try_except.
  destruct (decrypt_try text password w) as [[s|e] w'].
  - left. eauto.
  - right. destruct (Hh e w') as (msg & Hmsg). eauto.
Qed.

(** C10 does not hold as the specification states it: the empty password
    has the key of the password U+0000, so it opens the envelope that
    U+0000 sealed. *)
Lemma empty_password_accepted :
  [0%N] <> [] /\
  bind (encrypt (lit "x") [0%N]) (fun text => decrypt text []) counting_world =
  (Return (lit "x"), after_decrypt (after_encrypt counting_world)).
Proof.
  split; [discriminate|].
  assert (Hp : lit "x" <> []) by discriminate.
  assert (Hk : [0%N] <> []) by discriminate.
  assert (Ep : encodable (lit "x") = true) by reflexivity.
  assert (Ek1 : encodable [0%N] = true) by reflexivity.
  assert (Ek2 : encodable [] = true) by reflexivity.
  destruct (wrong_password_cases (lit "x") [0%N] [] counting_world Hp Hk Ep Ek1 Ek2)
    as (Hrun & _ & _ & Hsame).
  rewrite Hrun, Hsame; [reflexivity|].
  apply key_of_key_block. vm_compute. reflexivity.
Qed.

(** C10, amended.  [decrypt] has no emptiness check.  The empty text
    decodes to no bytes and fails as too short (MalformedEnvelope).  The
    empty password goes through key derivation and the cipher like any
    other: on what [encrypt] returned for non-empty [p] and [k1] the
    result is that of the cipher under the key of the empty password, an
    AuthenticationFailed error when the tag does not verify, never an
    error of another kind, and [p] when the empty password has the key
    of [k1]. *)
Theorem decrypt_no_emptiness_check (p k1 password : str) (w w' : World) :
  p <> [] -> k1 <> [] -> encodable p = true -> encodable k1 = true ->
  Base64.b64decode (pad_base64 []) = Return [] /\
  decrypt [] password w' =
    (Raise (CryptException "Decryption failed: Encrypted data too short"), w') /\
  error_kind (CryptException "Decryption failed: Encrypted data too short") =
    Some MalformedEnvelope /\
  let salt := fresh_salt w in
  let iv := fresh_iv w in
  let sealed := GCM.encrypt (AES.encrypt_block (key_of (utf8 k1) salt)) iv [] (utf8 p) in
  let verdict := GCM.decrypt (AES.encrypt_block (key_of [] salt)) iv [] sealed in
  bind (encrypt p k1) (fun text => decrypt text []) w =
    (opened verdict, after_decrypt (after_encrypt w)) /\
  calls (after_decrypt (after_encrypt w)) =
    calls (after_encrypt w) ++ [call_pbkdf2_derive; call_aesgcm_decrypt] /\
  (verdict = None ->
   opened verdict = Raise (CryptException "Decryption failed: Invalid tag (wrong password?)")) /\
  (forall e, opened verdict = Raise e -> error_kind e = Some AuthenticationFailed) /\
  (key_of [] salt = key_of (utf8 k1) salt -> opened verdict = Return p).
Proof.
  intros Hp Hk1 Ep Ek1.
  split; [reflexivity|].
  split; [apply (decrypt_rejects_short_aux [] password [] w'); [reflexivity | cbn; lia]|].
  split; [reflexivity|].
  assert (Ek2 : encodable [] = true) by reflexivity.
  destruct (wrong_password_cases p k1 [] w Hp Hk1 Ep Ek1 Ek2) as (H1 & H2 & H3 & H4).
  cbv zeta. split; [exact H1|]. split; [reflexivity|].
  split; [exact H2|]. split; [exact H3 | exact H4].
Qed.

Lemma decrypt_no_emptiness_check_witness :
  decrypt [] [] counting_world =
    (Raise (CryptException "Decryption failed: Encrypted data too short"), counting_world).
Proof.
  assert (Hp : lit "hello world" <> []) by discriminate.
  assert (Hk : lit "correct horse" <> []) by discriminate.
  assert (Ep : encodable (lit "hello world") = true) by reflexivity.
  assert (Ek : encodable (lit "correct horse") = true) by reflexivity.
  exact (proj1 (proj2 (decrypt_no_emptiness_check (lit "hello world") (lit "correct horse") []
                         counting_world counting_world Hp Hk Ep Ek))).
Defined.

(* ================================================================== *)
(** * Further properties of [cli/crypt.py] *)

(** ** The cipher, once more *)

Transparent GCM.encrypt GCM.decrypt.

Lemma gcm_encrypt_tag (ciph : N -> N) (iv aad p : bytes) :
  exists c, GCM.encrypt ciph iv aad p = c ++ GCM.tag ciph iv aad c /\
            List.length c = List.length p.
Proof.
  exists (GCM.gctr ciph (GCM.inc32 (GCM.J0 (ciph 0%N) iv)) p).
  split; [reflexivity | apply gctr_length].
Qed.

Lemma gcm_decrypt_wrong_tag (ciph : N -> N) (iv aad c t : bytes) :
  List.length t = 16%nat -> t <> GCM.tag ciph iv aad c ->
  GCM.decrypt ciph iv aad (c ++ t) = None.
Proof.
  intros Hlen Hne. unfold GCM.decrypt.
  rewrite length_app, Hlen, Nat.add_sub.
  rewrite (firstn_app_exact (List.length c) c t eq_refl).
  rewrite (skipn_app_exact (List.length c) c t eq_refl).
  destruct (bytes_eqb (GCM.tag ciph iv aad c) t) eqn:E; [|reflexivity].
  apply bytes_eqb_eq in E. congruence.
Qed.

Opaque GCM.encrypt GCM.decrypt.

(** ** Replacing a byte *)

Lemma replace_byte_length (i : nat) (b : byte) (l : bytes) :
  (i < List.length l)%nat -> List.length (replace_byte i b l) = List.length l.
Proof.
  intros H. unfold replace_byte.
  rewrite length_app, length_firstn. cbn [List.length]. rewrite length_skipn. lia.
Qed.

Lemma replace_byte_nth (i : nat) (b : byte) (l : bytes) :
  (i < List.length l)%nat -> nth i (replace_byte i b l) x00 = b.
Proof.
  intros H. unfold replace_byte.
  rewrite app_nth2; rewrite length_firstn; [|lia].
  replace (i - Nat.min i (List.length l))%nat with 0%nat by lia. reflexivity.
Qed.

Lemma replace_byte_app_r (i : nat) (b : byte) (a l : bytes) :
  (List.length a <= i)%nat ->
  replace_byte i b (a ++ l) = a ++ replace_byte (i - List.length a) b l.
Proof.
  intros H. unfold replace_byte.
  rewrite firstn_app, (firstn_all2 a) by lia.
  rewrite skipn_app, (skipn_all2 a) by lia.
  replace (S i - List.length a)%nat with (S (i - List.length a)) by lia.
  now rewrite <- app_assoc.
Qed.

Lemma byte_xor_1_neq (a : byte) : byte_xor a x01 <> a.
Proof. destruct a; vm_compute; discriminate. Qed.

(** ** Tampering with the tag *)

(** X1.  Replacing any one of the last 16 bytes (the tag) of the
    envelope that [encrypt] made by a different byte makes [decrypt]
    fail, under the right password, with the tag error. *)
Theorem tampered_tag_rejected (p k : str) (w w' : World) (i : nat) (b : byte) :
  p <> [] -> k <> [] -> encodable p = true -> encodable k = true ->
  let data := envelope (fresh_salt w) (fresh_iv w)
                (GCM.encrypt (AES.encrypt_block (key_of (utf8 k) (fresh_salt w)))
                             (fresh_iv w) [] (utf8 p)) in
  (List.length data - 16 <= i < List.length data)%nat ->
  b <> nth i data x00 ->
  encrypt p k w = (Return (ascii_text (Base64.b64encode data)), after_encrypt w) /\
  decrypt (ascii_text (Base64.b64encode (replace_byte i b data))) k w' =
    (Raise (CryptException "Decryption failed: Invalid tag (wrong password?)"),
     after_decrypt w').
Proof.
  intros Hp Hk Ep Ek data Hi Hb.
  split; [now apply encrypt_run|].
  destruct (gcm_encrypt_tag (AES.encrypt_block (key_of (utf8 k) (fresh_salt w)))
              (fresh_iv w) [] (utf8 p)) as (c & Hparts & Hc).
  set (t := GCM.tag (AES.encrypt_block (key_of (utf8 k) (fresh_salt w))) (fresh_iv w) [] c)
    in *.
  assert (Ht : List.length t = 16%nat) by apply gcm_tag_length.
  pose proof (fresh_salt_length w) as Hs. pose proof (fresh_iv_length w) as Hv.
  assert (Hdata : data = ([byte_of_N VERSION_ID] ++ fresh_salt w ++ fresh_iv w ++ c) ++ t).
  { unfold data, envelope. rewrite Hparts. now rewrite <- !app_assoc. }
  assert (Hpre : List.length ([byte_of_N VERSION_ID] ++ fresh_salt w ++ fresh_iv w ++ c)
                 = (29 + List.length c)%nat).
  { rewrite !length_app, Hs, Hv. cbn [List.length]. lia. }
  assert (Hlen : List.length data = (45 + List.length c)%nat).
  { rewrite Hdata, length_app, Hpre, Ht. lia. }
  rewrite Hlen in Hi.
  rewrite Hdata in Hb |- *.
  rewrite app_nth2 in Hb by lia.
  rewrite replace_byte_app_r by lia.
  rewrite Hpre in Hb |- *.
  set (j := (i - (29 + List.length c))%nat) in *.
  assert (Hj : (j < List.length t)%nat) by (unfold j; lia).
  set (t' := replace_byte j b t).
  assert (Ht' : List.length t' = 16%nat) by (unfold t'; now rewrite replace_byte_length).
  assert (Hne : t' <> t).
  { intros E. apply Hb. rewrite <- E. unfold t'. now rewrite replace_byte_nth. }
  rewrite <- !app_assoc. fold (envelope (fresh_salt w) (fresh_iv w) (c ++ t')).
  rewrite decrypt_sealed; try assumption.
  - rewrite gcm_decrypt_wrong_tag; [reflexivity | assumption | assumption].
  - rewrite length_app, Ht', Hc. pose proof (utf8_length_pos p Hp). lia.
Qed.

Lemma tampered_tag_rejected_witness :
  let p := lit "hello world" in
  let k := lit "correct horse" in
  let w := counting_world in
  let data := envelope (fresh_salt w) (fresh_iv w)
                (GCM.encrypt (AES.encrypt_block (key_of (utf8 k) (fresh_salt w)))
                             (fresh_iv w) [] (utf8 p)) in
  decrypt (ascii_text (Base64.b64encode
             (replace_byte 55 (byte_xor (nth 55 data x00) x01) data))) k w =
    (Raise (CryptException "Decryption failed: Invalid tag (wrong password?)"),
     after_decrypt w).
Proof.
  intros p k w data.
  assert (Hp : p <> []) by discriminate.
  assert (Hk : k <> []) by discriminate.
  assert (Ep : encodable p = true) by reflexivity.
  assert (Ek : encodable k = true) by reflexivity.
  assert (Hlen : List.length data = 56%nat).
  { unfold data.
    destruct (envelope_fields (fresh_salt w) (fresh_iv w)
                (GCM.encrypt (AES.encrypt_block (key_of (utf8 k) (fresh_salt w)))
                   (fresh_iv w) [] (utf8 p)) (fresh_salt_length w) (fresh_iv_length w))
      as (_ & _ & _ & _ & F4).
    rewrite F4, gcm_encrypt_length. reflexivity. }
  assert (Hi : (List.length data - 16 <= 55 < List.length data)%nat) by (rewrite Hlen; lia).
  exact (proj2 (tampered_tag_rejected p k w w 55 (byte_xor (nth 55 data x00) x01)
                  Hp Hk Ep Ek Hi (byte_xor_1_neq (nth 55 data x00)))).
Defined.

(** ** Two encryptions *)

Lemma envelope_text_inj (s1 i1 c1 s2 i2 c2 : bytes) :
  List.length s1 = 16%nat -> List.length i1 = 12%nat ->
  List.length s2 = 16%nat -> List.length i2 = 12%nat ->
  ascii_text (Base64.b64encode (envelope s1 i1 c1)) =
  ascii_text (Base64.b64encode (envelope s2 i2 c2)) ->
  s1 = s2 /\ i1 = i2 /\ c1 = c2.
Proof.
  intros Hs1 Hi1 Hs2 Hi2 H.
  destruct (b64decode_b64encode (envelope s1 i1 c1)) as (_ & _ & D1).
  destruct (b64decode_b64encode (envelope s2 i2 c2)) as (_ & _ & D2).
  unfold ascii_text in H. rewrite H, D2 in D1.
  assert (E : envelope s2 i2 c2 = envelope s1 i1 c1) by congruence.
  destruct (envelope_fields s1 i1 c1 Hs1 Hi1) as (_ & A1 & A2 & A3 & _).
  destruct (envelope_fields s2 i2 c2 Hs2 Hi2) as (_ & B1 & B2 & B3 & _).
  rewrite E in B1, B2, B3. repeat split; congruence.
Qed.

(** X2.  Two calls of [encrypt] in a row on the same plaintext and
    password: the second draws the 28 bytes after those of the first, the
    two texts differ as soon as the drawn salts or nonces differ, and
    [decrypt] returns the plaintext from either. *)
Theorem encrypt_twice (p k : str) (w w' : World) :
  p <> [] -> k <> [] -> encodable p = true -> encodable k = true ->
  exists text1 text2 : str,
    bind (encrypt p k) (fun t1 => bind (encrypt p k) (fun t2 => ret (t1, t2))) w =
      (Return (text1, text2), after_encrypt (after_encrypt w)) /\
    fresh_salt (after_encrypt w) ++ fresh_iv (after_encrypt w) =
      map (fun i => entropy w (cursor w + 28 + i)) (seq 0 28) /\
    ((fresh_salt w, fresh_iv w) <> (fresh_salt (after_encrypt w), fresh_iv (after_encrypt w)) ->
     text1 <> text2) /\
    decrypt text1 k w' = (Return p, after_decrypt w') /\
    decrypt text2 k w' = (Return p, after_decrypt w').
Proof.
  intros Hp Hk Ep Ek.
  pose proof (encrypt_run p k w Hp Hk Ep Ek) as R1.
  pose proof (encrypt_run p k (after_encrypt w) Hp Hk Ep Ek) as R2.
  eexists _, _. split; [|split; [|split; [|split]]].
  - unfold bind at 1. rewrite R1. unfold bind at 1. rewrite R2. reflexivity.
  - unfold fresh_salt, fresh_iv, drawn, after_encrypt, SALT_SIZE, IV_SIZE.
    cbn [entropy cursor].
    change (seq 0 28) with (seq 0 16 ++ seq 16 12).
    rewrite map_app. f_equal.
    + apply map_ext. intros i. f_equal. lia.
    + change (seq 16 12) with (map (fun i => 16 + i)%nat (seq 0 12)).
      rewrite map_map. apply map_ext. intros i. f_equal. lia.
  - intros Hne Heq. apply Hne.
    apply envelope_text_inj in Heq as (-> & -> & _);
      auto using fresh_salt_length, fresh_iv_length.
  - rewrite decrypt_sealed; auto using fresh_salt_length, fresh_iv_length.
    + now rewrite gcm_decrypt_encrypt, opened_utf8.
    + rewrite gcm_encrypt_length. pose proof (utf8_length_pos p Hp). lia.
  - rewrite decrypt_sealed; auto using fresh_salt_length, fresh_iv_length.
    + now rewrite gcm_decrypt_encrypt, opened_utf8.
    + rewrite gcm_encrypt_length. pose proof (utf8_length_pos p Hp). lia.
Qed.

Lemma encrypt_twice_witness :
  exists text1 text2 : str,
    bind (encrypt (lit "hello world") (lit "correct horse"))
         (fun t1 => bind (encrypt (lit "hello world") (lit "correct horse"))
                         (fun t2 => ret (t1, t2))) counting_world =
      (Return (text1, text2), after_encrypt (after_encrypt counting_world)) /\
    text1 <> text2.
Proof.
  assert (Hp : lit "hello world" <> []) by discriminate.
  assert (Hk : lit "correct horse" <> []) by discriminate.
  assert (Ep : encodable (lit "hello world") = true) by reflexivity.
  assert (Ek : encodable (lit "correct horse") = true) by reflexivity.
  destruct (encrypt_twice (lit "hello world") (lit "correct horse")
              counting_world counting_world Hp Hk Ep Ek)
    as (t1 & t2 & Hrun & _ & Hdiff & _).
  exists t1, t2. split; [exact Hrun|].
  apply Hdiff. vm_compute. discriminate.
Defined.

(** ** Passwords with the same key *)

Lemma hmac_key_block_zeros (b : bytes) (n : nat) :
  (List.length b + n <= 64)%nat ->
  hmac_key_block (b ++ repeat x00 n) = hmac_key_block b.
Proof.
  intros H. unfold hmac_key_block, SHA256.block_size.
  assert (E1 : (64 <? List.length (b ++ repeat x00 n))%nat = false).
  { apply Nat.ltb_ge. rewrite length_app, repeat_length. lia. }
  assert (E2 : (64 <? List.length b)%nat = false) by (apply Nat.ltb_ge; lia).
  rewrite E1, E2, length_app, repeat_length, <- app_assoc, <- repeat_app.
  do 2 f_equal. lia.
Qed.

Lemma utf8_zeros (n : nat) : utf8 (repeat 0%N n) = repeat x00 n.
Proof. induction n as [|n IH]; [reflexivity|]. cbn [repeat flat_map]. now rewrite IH. Qed.

Lemma encodable_app (a b : str) :
  encodable a = true -> encodable b = true -> encodable (a ++ b) = true.
Proof. intros Ha Hb. unfold encodable in *. now rewrite forallb_app, Ha, Hb. Qed.

Lemma encodable_zeros (n : nat) : encodable (repeat 0%N n) = true.
Proof. induction n as [|n IH]; [reflexivity|]. unfold encodable in *. cbn. exact IH. Qed.

(** X3.  U+0000 characters at the end of a password do not count, up to
    64 bytes: a password of at most 64 UTF-8 bytes and the same password
    followed by U+0000 characters (64 bytes in all at most) derive the
    same key from every salt, so each opens what the other sealed. *)
Theorem trailing_nul_same_key (p k : str) (n : nat) (salt : bytes) (w : World) :
  p <> [] -> k <> [] -> encodable p = true -> encodable k = true ->
  (List.length (utf8 k) + n <= 64)%nat ->
  fst (derive_key (k ++ repeat 0%N n) salt w) = fst (derive_key k salt w) /\
  bind (encrypt p k) (fun text => decrypt text (k ++ repeat 0%N n)) w =
    (Return p, after_decrypt (after_encrypt w)) /\
  bind (encrypt p (k ++ repeat 0%N n)) (fun text => decrypt text k) w =
    (Return p, after_decrypt (after_encrypt w)).
Proof.
  intros Hp Hk Ep Ek Hlen.
  assert (Ekn : encodable (k ++ repeat 0%N n) = true)
    by (apply encodable_app; [assumption | apply encodable_zeros]).
  assert (Hkn : k ++ repeat 0%N n <> []) by (destruct k; [congruence | discriminate]).
  assert (Hkey : forall s, key_of (utf8 (k ++ repeat 0%N n)) s = key_of (utf8 k) s).
  { intros s. apply PBKDF2_derive_key_block.
    rewrite flat_map_app, utf8_zeros. now apply hmac_key_block_zeros. }
  split; [|split].
  - rewrite !derive_key_run by assumption. cbn [fst]. now rewrite Hkey.
  - rewrite decrypt_encrypted by assumption.
    now rewrite Hkey, gcm_decrypt_encrypt, opened_utf8.
  - rewrite decrypt_encrypted by assumption.
    now rewrite Hkey, gcm_decrypt_encrypt, opened_utf8.
Qed.

Lemma trailing_nul_same_key_witness :
  bind (encrypt (lit "hello world") (lit "correct horse"))
       (fun text => decrypt text (lit "correct horse" ++ repeat 0%N 3)) counting_world =
    (Return (lit "hello world"), after_decrypt (after_encrypt counting_world)).
Proof.
  assert (Hp : lit "hello world" <> []) by discriminate.
  assert (Hk : lit "correct horse" <> []) by discriminate.
  assert (Ep : encodable (lit "hello world") = true) by reflexivity.
  assert (Ek : encodable (lit "correct horse") = true) by reflexivity.
  assert (Hlen : (List.length (utf8 (lit "correct horse")) + 3 <= 64)%nat)
    by (vm_compute; lia).
  exact (proj1 (proj2 (trailing_nul_same_key (lit "hello world") (lit "correct horse") 3 []
                         counting_world Hp Hk Ep Ek Hlen))).
Defined.

(** ** Text without a UTF-8 encoding *)

Lemma utf8_encode_unencodable (s : str) :
  forall pos, encodable s = false ->
              exists msg, UTF8.encode_from pos s = Raise (UnicodeEncodeError msg).
Proof.
  induction s as [|c s IH]; intros pos H; [discriminate|].
  unfold encodable in H. cbn [forallb] in H. cbn [UTF8.encode_from].
  destruct (UTF8.is_scalar c).
  - cbn [andb] in H. destruct (IH (S pos) H) as (msg & ->). eexists. reflexivity.
  - unfold UTF8.encode_error. eexists. reflexivity.
Qed.

Lemma utf8_encode_raises (s : str) :
  forall (pos : nat) (e : exn),
    UTF8.encode_from pos s = Raise e -> exists pos' s', e = UTF8.encode_error pos' s'.
Proof.
  induction s as [|c s IH]; intros pos e H; [discriminate|].
  cbn [UTF8.encode_from] in H. destruct (UTF8.is_scalar c).
  - apply Outcome_map_Raise in H. apply (IH _ _ H).
  - inversion H. eauto.
Qed.

Lemma encode_error_kind (pos : nat) (s : str) :
  error_kind (CryptException ("Decryption failed: " ++ str_of_exn (UTF8.encode_error pos s)))
  = None.
Proof. unfold UTF8.encode_error. destruct (UTF8.bad_run s =? 1)%nat; reflexivity. Qed.

Lemma encrypt_unencodable_aux (p k : str) (w : World) :
  p <> [] -> k <> [] -> encodable k && encodable p = false ->
  exists msg,
    encrypt p k w =
      (Raise (UnicodeEncodeError msg),
       mkWorld (entropy w) (cursor w + SALT_SIZE + IV_SIZE)
         (calls w ++ [call_urandom SALT_SIZE; call_urandom IV_SIZE] ++
          (if encodable k then [call_pbkdf2_derive] else []))).
Proof.
  intros Hp Hk H. unfold encrypt.
  destruct p as [|c p]; [congruence|]. destruct k as [|d k]; [congruence|].
  cbn [is_empty orb].
  unfold bind at 1. unfold urandom at 1.
  unfold bind at 1. unfold urandom at 1. cbn [entropy cursor calls].
  unfold bind at 1.
  destruct (encodable (d :: k)) eqn:Ek.
  - cbn [andb] in H. rewrite derive_key_run by assumption. cbn [entropy cursor calls].
    unfold bind at 1. unfold lift at 1. rewrite AESGCM_new_key_of.
    unfold bind at 1. unfold lift at 1. unfold UTF8.encode.
    destruct (utf8_encode_unencodable (c :: p) 0 H) as (msg & ->).
    exists msg. rewrite <- !app_assoc. reflexivity.
  - unfold derive_key, bind, lift, UTF8.encode.
    destruct (utf8_encode_unencodable (d :: k) 0 Ek) as (msg & ->).
    exists msg. rewrite <- !app_assoc. reflexivity.
Qed.

(** X4.  [encrypt] does not turn an encoding failure into a
    [CryptException]: for non-empty arguments one of which has no UTF-8
    encoding it raises [UnicodeEncodeError] itself, after drawing the salt
    and the nonce; the password is encoded first, and a plaintext that
    cannot be encoded is found only after the key has been derived.  The
    cipher is not called. *)
Theorem encrypt_unencodable (p k : str) (w : World) :
  p <> [] -> k <> [] -> encodable k && encodable p = false ->
  exists msg,
    encrypt p k w =
      (Raise (UnicodeEncodeError msg),
       mkWorld (entropy w) (cursor w + SALT_SIZE + IV_SIZE)
         (calls w ++ [call_urandom SALT_SIZE; call_urandom IV_SIZE] ++
          (if encodable k then [call_pbkdf2_derive] else []))).
Proof. apply encrypt_unencodable_aux. Qed.

Lemma encrypt_unencodable_witness :
  exists msg,
    encrypt (lit "hello world") [0xD800%N] counting_world =
      (Raise (UnicodeEncodeError msg),
       mkWorld (entropy counting_world) 28 [call_urandom 16; call_urandom 12]).
Proof.
  apply (encrypt_unencodable (lit "hello world") [0xD800%N] counting_world);
    [discriminate | discriminate | reflexivity].
Defined.

(** X5.  [decrypt] with a password that has no UTF-8 encoding, on an
    envelope that passes the length and version checks: the encoder's
    error comes back as a [CryptException] (of none of the four kinds),
    and no key has been derived. *)
Theorem decrypt_unencodable_password (text password : str) (data : bytes) (w : World) :
  Base64.b64decode (pad_base64 text) = Return data ->
  (min_size <= List.length data)%nat ->
  Byte.to_N (nth 0 data x00) = VERSION_ID ->
  encodable password = false ->
  exists msg,
    UTF8.encode password = Raise (UnicodeEncodeError msg) /\
    decrypt text password w = (Raise (CryptException ("Decryption failed: " ++ msg)), w).
Proof.
  intros Hdec Hlen Hver Hpw.
  destruct (utf8_encode_unencodable password 0 Hpw) as (msg & Hmsg).
  exists msg. split; [exact Hmsg|].
  unfold decrypt, try_except, decrypt_try.
  unfold bind at 1. unfold lift at 1. rewrite Hdec.
  apply Nat.ltb_ge in Hlen. rewrite Hlen, Hver, N.eqb_refl. cbn [negb].
  unfold bind at 1. rewrite (derive_key_raise password _ w _ Hmsg). reflexivity.
Qed.

Lemma decrypt_unencodable_password_witness :
  exists msg,
    decrypt (lit "CA" ++ repeat (ord "A") 60) [0xDFFF%N] counting_world =
      (Raise (CryptException ("Decryption failed: " ++ msg)), counting_world).
Proof.
  destruct (decrypt_unencodable_password (lit "CA" ++ repeat (ord "A") 60) [0xDFFF%N]
              (x08 :: repeat x00 45) counting_world) as (msg & _ & H).
  - vm_compute. reflexivity.
  - vm_compute. lia.
  - reflexivity.
  - reflexivity.
  - exists msg. exact H.
Defined.

(** ** What [decrypt] does to the world *)

(** X6.  [decrypt] never draws randomness and calls the library all or
    nothing: either it fails with a [CryptException] and the world is as
    it was (nothing was derived), or it has made exactly one key
    derivation followed by one call of the cipher, and then it returns a
    string or fails with an error of kind AuthenticationFailed. *)
Theorem decrypt_effects (text password : str) (w : World) :
  (exists msg, decrypt text password w = (Raise (CryptException msg), w) /\
               error_kind (CryptException msg) <> Some AuthenticationFailed) \/
  (exists r, decrypt text password w = (r, after_decrypt w) /\
             ((exists s, r = Return s) \/
              (exists e, r = Raise e /\ error_kind e = Some AuthenticationFailed))).
Proof.
  destruct (Base64.b64decode (pad_base64 text)) as [data|e] eqn:Hdec.
  - destruct (Nat.ltb_spec (List.length data) min_size) as [Hlen|Hlen].
    + left. eexists. split.
      * apply (decrypt_rejects_short_aux text password data w Hdec Hlen).
      * discriminate.
    + destruct (N.eq_dec (Byte.to_N (nth 0 data x00)) VERSION_ID) as [Hver|Hver].
      * destruct (encodable password) eqn:Hpw.
        -- right. eexists. split.
           ++ apply (decrypt_opens text password data w Hdec Hlen Hver Hpw).
           ++ destruct (opened _) as [s|e] eqn:Ho; [left; eauto|].
              right. exists e. split; [reflexivity|]. apply (opened_kind _ _ Ho).
        -- left. destruct (utf8_encode_unencodable password 0 Hpw) as (msg & Hmsg).
           exists ("Decryption failed: " ++ msg)%string. split.
           ++ unfold decrypt, try_except, decrypt_try.
              unfold bind at 1. unfold lift at 1. rewrite Hdec.
              apply Nat.ltb_ge in Hlen. rewrite Hlen, Hver, N.eqb_refl. cbn [negb].
              unfold bind at 1. rewrite (derive_key_raise password _ w _ Hmsg). reflexivity.
           ++ destruct (utf8_encode_raises password 0 _ Hmsg) as (pos & s & Hs).
              replace msg with (str_of_exn (UTF8.encode_error pos s))
                by (now rewrite <- Hs).
              rewrite encode_error_kind. discriminate.
      * left. eexists. split.
        -- unfold decrypt, try_except, decrypt_try, bind, lift. rewrite Hdec.
           apply Nat.ltb_ge in Hlen. rewrite Hlen. apply N.eqb_neq in Hver. rewrite Hver.
           reflexivity.
        -- discriminate.
  - left. destruct (b64decode_raises _ _ Hdec) as (Hkind & Hexc). eexists. split.
    + unfold decrypt, try_except, decrypt_try, bind, lift. rewrite Hdec, Hexc. reflexivity.
    + rewrite Hkind. discriminate.
Qed.

(** ** The derived key *)

(** X7.  [derive_key] with an encodable password returns 32 bytes
    whatever the length of the salt, so that [AESGCM(key)] accepts the
    key; it makes one call of the key derivation and nothing else. *)
Theorem derive_key_size (password : str) (salt key : bytes) (w w' : World) :
  derive_key password salt w = (Return key, w') ->
  List.length key = KEY_SIZE /\ AESGCM.new key = Return key /\
  encodable password = true /\
  w' = mkWorld (entropy w) (cursor w) (calls w ++ [call_pbkdf2_derive]).
Proof.
  intros H.
  assert (Hpw : encodable password = true).
  { unfold derive_key, bind, lift in H.
    destruct (UTF8.encode password) as [b|] eqn:E; [|discriminate].
    apply (utf8_encode_Return _ _ _ E). }
  rewrite (derive_key_run password salt w Hpw) in H.
  assert (Hkey : key = key_of (utf8 password) salt) by congruence.
  assert (Hw : w' = mkWorld (entropy w) (cursor w) (calls w ++ [call_pbkdf2_derive]))
    by congruence.
  subst key. split; [apply key_of_length|]. split; [apply AESGCM_new_key_of|].
  split; [exact Hpw | exact Hw].
Qed.

Lemma derive_key_size_witness :
  List.length (key_of (utf8 (lit "correct horse")) []) = KEY_SIZE.
Proof.
  assert (Hpw : encodable (lit "correct horse") = true) by reflexivity.
  exact (proj1 (derive_key_size (lit "correct horse") [] _ counting_world _
                  (derive_key_run (lit "correct horse") [] counting_world Hpw))).
Defined.

(** ** Text that is not exactly what [encrypt] printed *)

(** [decrypt] reads its text through the decoder only. *)
Lemma decrypt_same_bytes (t1 t2 password : str) (w : World) :
  Base64.b64decode (pad_base64 t1) = Base64.b64decode (pad_base64 t2) ->
  decrypt t1 password w = decrypt t2 password w.
Proof.
  intros H. unfold decrypt, try_except, decrypt_try.
  unfold bind at 1 3. unfold lift at 1 5. (* the decoding step of either side *)
  now rewrite H.
Qed.

Lemma a2b_loop_pads (n : nat) (out : bytes) :
  Base64.a2b_loop (repeat Base64.PAD n) 0 0 0 out = Return out.
Proof.
  induction n as [|n IH]; [reflexivity|].
  cbn [repeat]. rewrite a2b_loop_pad. exact IH.
Qed.

(** Pad characters after a complete encoding change nothing. *)
Lemma a2b_loop_b2a_base64_pads (data : bytes) (n : nat) (out : bytes) :
  Base64.a2b_loop (Base64.b2a_base64 data ++ repeat Base64.PAD n) 0 0 0 out =
  Return (out ++ data).
Proof.
  revert out. induction data as [|x|x y|x y z l IH] using list_ind3; intros out.
  - cbn [Base64.b2a_base64 app]. now rewrite a2b_loop_pads, app_nil_r.
  - pose proof (to_N_lt_256 x) as Hx.
    destruct (sextets_bound (Byte.to_N x) 0 Hx) as (B1 & _ & _ & _ & B5 & _); [lia|].
    cbn [Base64.b2a_base64 app].
    rewrite !a2b_loop_sextet by assumption.
    rewrite !a2b_loop_pad. cbn [Nat.leb Nat.add].
    now rewrite regroup1_last, byte_of_N_to_N.
  - pose proof (to_N_lt_256 x) as Hx. pose proof (to_N_lt_256 y) as Hy.
    destruct (sextets_bound (Byte.to_N x) (Byte.to_N y) Hx Hy) as (B1 & B2 & _).
    destruct (sextets_bound (Byte.to_N y) 0 Hy) as (_ & _ & _ & _ & _ & B6); [lia|].
    cbn [Base64.b2a_base64 app].
    rewrite !a2b_loop_sextet by assumption.
    rewrite !a2b_loop_pad. cbn [Nat.leb Nat.add].
    rewrite regroup1, regroup2_last, !byte_of_N_to_N by assumption.
    now rewrite <- app_assoc.
  - pose proof (to_N_lt_256 x) as Hx. pose proof (to_N_lt_256 y) as Hy.
    pose proof (to_N_lt_256 z) as Hz.
    destruct (sextets_bound (Byte.to_N x) (Byte.to_N y) Hx Hy) as (B1 & B2 & _).
    destruct (sextets_bound (Byte.to_N y) (Byte.to_N z) Hy Hz) as (_ & _ & _ & B4 & _).
    destruct (sextets_bound (Byte.to_N z) 0 Hz) as (_ & _ & B3 & _); [lia|].
    cbn [Base64.b2a_base64 app].
    rewrite !a2b_loop_sextet by assumption.
    rewrite regroup1, regroup2, regroup3, !byte_of_N_to_N by assumption.
    rewrite IH, <- !app_assoc. reflexivity.
Qed.

(** The decoder steps over what it does not read. *)
Lemma a2b_loop_filter (data : bytes) :
  forall (quad_pos : nat) (leftchar : N) (pads : nat) (out : bytes),
    Base64.a2b_loop data quad_pos leftchar pads out =
    Base64.a2b_loop (filter is_base64_byte data) quad_pos leftchar pads out.
Proof.
  induction data as [|ch rest IH]; intros quad_pos leftchar pads out; [reflexivity|].
  cbn [filter]. unfold is_base64_byte at 1.
  destruct (Byte.eqb ch Base64.PAD) eqn:Epad.
  - cbn [orb Base64.a2b_loop]. rewrite Epad.
    destruct (2 <=? quad_pos)%nat; [|apply IH].
    destruct (4 <=? quad_pos + (pads + 1))%nat; [reflexivity | apply IH].
  - cbn [orb]. destruct (Base64.table_a2b_base64 ch) as [v|] eqn:Etab.
    + cbn [Base64.a2b_loop]. rewrite Epad, Etab.
      destruct quad_pos as [|[|[|q]]]; apply IH.
    + cbn [Base64.a2b_loop]. rewrite Epad, Etab. apply IH.
Qed.

Lemma ascii_bytes_ascii (s : str) :
  forallb (fun c => (c <? 128)%N) s = true -> Base64.ascii_bytes s = Return (map byte_of_N s).
Proof. intros H. unfold Base64.ascii_bytes. now rewrite H. Qed.

Lemma filter_base64_bytes (s : str) :
  forallb (fun c => (c <? 128)%N) s = true ->
  filter is_base64_byte (map byte_of_N s) = map byte_of_N (filter is_base64_char s).
Proof.
  induction s as [|c s IH]; intros H; [reflexivity|].
  cbn [forallb] in H. apply andb_true_iff in H as [Hc Hs].
  cbn [map filter]. unfold is_base64_char at 1. rewrite Hc. cbn [andb].
  destruct (is_base64_byte (byte_of_N c)); cbn [map]; now rewrite IH.
Qed.

Lemma map_byte_of_N_ascii_text (b : bytes) : map byte_of_N (ascii_text b) = b.
Proof.
  unfold ascii_text. rewrite map_map. rewrite <- (map_id b) at 2.
  apply map_ext. intros x. apply byte_of_N_to_N.
Qed.

(** X9.  [decrypt] skips what the base64 decoder skips: ASCII characters
    outside the alphabet (line feeds, blanks, hyphens...) put anywhere
    into the text of an envelope leave the result of [decrypt] as it is
    for the clean text, for every password. *)
Theorem decrypt_skips_other_characters (data : bytes) (text password : str) (w : World) :
  forallb (fun c => (c <? 128)%N) text = true ->
  filter is_base64_char text = ascii_text (Base64.b64encode data) ->
  Base64.b64decode (pad_base64 text) = Return data /\
  decrypt text password w = decrypt (ascii_text (Base64.b64encode data)) password w.
Proof.
  intros Hascii Hfilter.
  assert (Hdec : Base64.b64decode (pad_base64 text) = Return data).
  { destruct (pad_base64_spec text) as (_ & n & _ & Hpad & _). rewrite Hpad.
    unfold Base64.b64decode.
    assert (Hall : forallb (fun c => (c <? 128)%N) (text ++ repeat (ord "=") n) = true).
    { rewrite forallb_app, Hascii. cbn [andb]. clear. induction n; [reflexivity | exact IHn]. }
    rewrite (ascii_bytes_ascii _ Hall). unfold Base64.a2b_base64.
    rewrite a2b_loop_filter, filter_base64_bytes by exact Hall.
    rewrite filter_app, Hfilter, map_app, map_byte_of_N_ascii_text.
    assert (Hpads : map byte_of_N (filter is_base64_char (repeat (ord "=") n)) =
                    repeat Base64.PAD n).
    { clear. induction n as [|n IH]; [reflexivity|]. cbn [repeat filter].
      change (is_base64_char (ord "=")) with true. cbn [map]. now rewrite IH. }
    rewrite Hpads. unfold Base64.b64encode. now rewrite a2b_loop_b2a_base64_pads. }
  split; [exact Hdec|].
  apply decrypt_same_bytes. rewrite Hdec.
  destruct (b64decode_b64encode data) as (_ & Hpad & Hok).
  unfold ascii_text. now rewrite Hpad, Hok.
Qed.

(** ["Zm9vYmFy"] cut in two lines with a blank. *)
Lemma decrypt_skips_other_characters_witness :
  Base64.b64decode (pad_base64 (lit "Zm9v" ++ [10%N] ++ lit "Ym Fy")) =
  Return (map byte_of_N (lit "foobar")).
Proof.
  apply (decrypt_skips_other_characters (map byte_of_N (lit "foobar"))
           (lit "Zm9v" ++ [10%N] ++ lit "Ym Fy") [] counting_world).
  - vm_compute. reflexivity.
  - vm_compute. reflexivity.
Defined.

(** The encoder's text: characters of the alphabet, then 0, 1 or 2 pad
    characters that fill the last quad. *)
Lemma b2a_base64_shape (data : bytes) :
  exists (body : bytes) (n : nat),
    Base64.b2a_base64 data = body ++ repeat Base64.PAD n /\
    Forall (fun b => b <> Base64.PAD) body /\
    (n = 0 /\ List.length body mod 4 = 0 \/
     n = 1 /\ List.length body mod 4 = 3 \/
     n = 2 /\ List.length body mod 4 = 2)%nat.
Proof.
  assert (Hne : forall v, (v < 64)%N -> Base64.b2a v <> Base64.PAD).
  { intros v Hv E. destruct (b2a_spec v Hv) as (_ & H & _).
    rewrite E in H. vm_compute in H. discriminate. }
  induction data as [|x|x y|x y z l IH] using list_ind3.
  - exists [], 0%nat. repeat split; auto.
  - pose proof (to_N_lt_256 x) as Hx.
    destruct (sextets_bound (Byte.to_N x) 0 Hx) as (B1 & _ & _ & _ & B5 & _); [lia|].
    eexists [_; _], 2%nat. split; [reflexivity|]. split; [|auto].
    repeat constructor; now apply Hne.
  - pose proof (to_N_lt_256 x) as Hx. pose proof (to_N_lt_256 y) as Hy.
    destruct (sextets_bound (Byte.to_N x) (Byte.to_N y) Hx Hy) as (B1 & B2 & _).
    destruct (sextets_bound (Byte.to_N y) 0 Hy) as (_ & _ & _ & _ & _ & B6); [lia|].
    eexists [_; _; _], 1%nat. split; [reflexivity|]. split; [|auto].
    repeat constructor; now apply Hne.
  - pose proof (to_N_lt_256 x) as Hx. pose proof (to_N_lt_256 y) as Hy.
    pose proof (to_N_lt_256 z) as Hz.
    destruct (sextets_bound (Byte.to_N x) (Byte.to_N y) Hx Hy) as (B1 & B2 & _).
    destruct (sextets_bound (Byte.to_N y) (Byte.to_N z) Hy Hz) as (_ & _ & _ & B4 & _).
    destruct (sextets_bound (Byte.to_N z) 0 Hz) as (_ & _ & B3 & _); [lia|].
    destruct IH as (body & n & Hb & Hf & Hn).
    eexists (_ :: _ :: _ :: _ :: body), n. cbn [Base64.b2a_base64]. rewrite Hb.
    split; [reflexivity|]. split.
    + repeat (constructor; [now apply Hne|]). exact Hf.
    + cbn [List.length].
      change (S (S (S (S (List.length body))))) with (1 * 4 + List.length body)%nat.
      rewrite (Nat.add_comm (1 * 4)), Nat.Div0.mod_add. exact Hn.
Qed.

Lemma lstrip_char_repeat (ch : N) (n : nat) (s : str) :
  lstrip_char ch (repeat ch n ++ s) = lstrip_char ch s.
Proof.
  induction n as [|n IH]; [reflexivity|].
  cbn [repeat app lstrip_char]. now rewrite N.eqb_refl.
Qed.

Lemma lstrip_char_none (ch : N) (s : str) :
  Forall (fun c => c <> ch) s -> lstrip_char ch s = s.
Proof.
  intros H. destruct H as [|c s Hc Hs]; [reflexivity|].
  cbn [lstrip_char]. apply N.eqb_neq in Hc. now rewrite Hc.
Qed.

(** Stripping the pad characters and filling them in again. *)
Lemma pad_base64_rstrip_pad (data : bytes) :
  pad_base64 (rstrip_pad (ascii_text (Base64.b64encode data))) =
  ascii_text (Base64.b64encode data).
Proof.
  unfold Base64.b64encode.
  destruct (b2a_base64_shape data) as (body & n & Hb & Hf & Hn). rewrite Hb.
  assert (Hpad : ascii_text (repeat Base64.PAD n) = repeat (ord "=") n).
  { clear. induction n as [|n IH]; [reflexivity|]. unfold ascii_text in *. cbn [repeat map].
    now rewrite IH. }
  assert (Hstrip : rstrip_pad (ascii_text (body ++ repeat Base64.PAD n)) = ascii_text body).
  { unfold rstrip_pad, ascii_text. rewrite map_app. fold (ascii_text (repeat Base64.PAD n)).
    rewrite Hpad, rev_app_distr, rev_repeat, lstrip_char_repeat.
    rewrite lstrip_char_none; [apply rev_involutive|].
    apply Forall_rev, Forall_map. eapply Forall_impl; [|exact Hf].
    intros b Hne E. apply Hne. apply byte_to_N_inj. exact E. }
  rewrite Hstrip. unfold pad_base64, ascii_text. rewrite length_map, map_app.
  fold (ascii_text (repeat Base64.PAD n)). rewrite Hpad.
  destruct Hn as [(-> & Hm) | [(-> & Hm) | (-> & Hm)]]; rewrite Hm; cbn [Nat.eqb Nat.sub repeat].
  - now rewrite app_nil_r.
  - reflexivity.
  - reflexivity.
Qed.

(** X8.  The text that [encrypt] returns can lose its pad characters:
    [decrypt] fills them in, gives for every password what it gives on
    the whole text, and so returns the plaintext under the right one. *)
Theorem decrypt_restores_padding (p k password : str) (data : bytes) (w w' : World) :
  p <> [] -> k <> [] -> encodable p = true -> encodable k = true ->
  decrypt (rstrip_pad (ascii_text (Base64.b64encode data))) password w' =
    decrypt (ascii_text (Base64.b64encode data)) password w' /\
  bind (encrypt p k) (fun text => decrypt (rstrip_pad text) k) w =
    (Return p, after_decrypt (after_encrypt w)).
Proof.
  intros Hp Hk Ep Ek.
  assert (Hsame : forall d pw v,
             decrypt (rstrip_pad (ascii_text (Base64.b64encode d))) pw v =
             decrypt (ascii_text (Base64.b64encode d)) pw v).
  { intros d pw v. apply decrypt_same_bytes. rewrite pad_base64_rstrip_pad.
    destruct (b64decode_b64encode d) as (_ & Hpad & _). unfold ascii_text. now rewrite Hpad. }
  split; [apply Hsame|].
  unfold bind. rewrite (encrypt_run p k w Hp Hk Ep Ek). rewrite Hsame.
  rewrite decrypt_sealed; auto using fresh_salt_length, fresh_iv_length.
  - now rewrite gcm_decrypt_encrypt, opened_utf8.
  - rewrite gcm_encrypt_length. pose proof (utf8_length_pos p Hp). lia.
Qed.

Lemma decrypt_restores_padding_witness :
  bind (encrypt (lit "hello world") (lit "correct horse"))
       (fun text => decrypt (rstrip_pad text) (lit "correct horse")) counting_world =
    (Return (lit "hello world"), after_decrypt (after_encrypt counting_world)).
Proof.
  assert (Hp : lit "hello world" <> []) by discriminate.
  assert (Hk : lit "correct horse" <> []) by discriminate.
  assert (Ep : encodable (lit "hello world") = true) by reflexivity.
  assert (Ek : encodable (lit "correct horse") = true) by reflexivity.
  exact (proj2 (decrypt_restores_padding (lit "hello world") (lit "correct horse") [] []
                  counting_world counting_world Hp Hk Ep Ek)).
Defined.

(** ** The command line *)

Lemma str_eqb_refl (s : str) : str_eqb s s = true.
Proof. unfold str_eqb. destruct (list_eq_dec N.eq_dec s s); congruence. Qed.

Lemma str_eqb_neq (a b : str) : a <> b -> str_eqb a b = false.
Proof. intros H. unfold str_eqb. destruct (list_eq_dec N.eq_dec a b); congruence. Qed.

Lemma flat_map_length_const' {A B} (f : A -> list B) (n : nat) (l : list A) :
  (forall a, List.length (f a) = n) -> List.length (flat_map f l) = (n * List.length l)%nat.
Proof.
  intros H. induction l as [|a l IH]; cbn [flat_map List.length]; [lia|].
  rewrite length_app, H, IH. lia.
Qed.

Lemma get_verified_password_loop_match (fuel : nat) (c : Console) (k : str) (rest : list str) :
  keyboard c = k :: k :: rest ->
  get_verified_password_loop (S fuel) c =
  (Next k, mkConsole (world c) rest
             (prompts c ++ ["Enter password: "; "Confirm password: "]%string)
             (stdout c) (stderr c)).
Proof.
  intros H. cbn [get_verified_password_loop]. unfold cli_bind, getpass.
  rewrite H. cbn [world keyboard prompts stdout stderr].
  rewrite str_eqb_refl. unfold cli_ret. now rewrite <- app_assoc.
Qed.

Lemma get_verified_password_loop_mismatch (fuel : nat) (c : Console) (a b : str)
    (rest : list str) :
  keyboard c = a :: b :: rest -> a <> b ->
  get_verified_password_loop (S fuel) c =
  get_verified_password_loop fuel
    (mkConsole (world c) rest
       (prompts c ++ ["Enter password: "; "Confirm password: "]%string)
       (stdout c)
       (stderr c ++ [lit "Passwords do not match. Please try again."])).
Proof.
  intros H Hne. cbn [get_verified_password_loop]. unfold cli_bind at 1 2. unfold getpass.
  rewrite H. cbn [world keyboard prompts stdout stderr].
  rewrite (str_eqb_neq a b Hne). unfold cli_bind, print_err.
  cbn [world keyboard prompts stdout stderr]. now rewrite <- app_assoc.
Qed.

Lemma get_verified_password_loop_rounds (wrong : list (str * str)) :
  forall (fuel : nat) (c : Console) (k : str) (rest : list str),
    Forall (fun ab => fst ab <> snd ab) wrong ->
    keyboard c = flat_map (fun ab => [fst ab; snd ab]) wrong ++ k :: k :: rest ->
    (List.length wrong < fuel)%nat ->
    get_verified_password_loop fuel c =
    (Next k,
     mkConsole (world c) rest
       (prompts c ++
        flat_map (fun _ => ["Enter password: "; "Confirm password: "]%string) wrong ++
        ["Enter password: "; "Confirm password: "]%string)
       (stdout c)
       (stderr c ++
        map (fun _ => lit "Passwords do not match. Please try again.") wrong)).
Proof.
  induction wrong as [|[a b] wrong IH]; intros fuel c k rest Hw Hkb Hfuel.
  - destruct fuel as [|fuel]; [cbn in Hfuel; lia|].
    cbn [flat_map app map] in *. rewrite (get_verified_password_loop_match fuel c k rest Hkb).
    now rewrite app_nil_r.
  - destruct fuel as [|fuel]; [cbn in Hfuel; lia|].
    inversion Hw as [|x l Hab Hrest]; subst. cbn [fst snd] in Hab.
    cbn [flat_map app fst snd] in Hkb.
    rewrite (get_verified_password_loop_mismatch fuel c a b _ Hkb Hab).
    rewrite (IH fuel _ k rest Hrest); [| reflexivity | cbn [List.length] in Hfuel; lia].
    cbn [world keyboard prompts stdout stderr flat_map map].
    now rewrite <- !app_assoc.
Qed.

Lemma get_verified_password_run (wrong : list (str * str)) (c : Console) (k : str)
    (rest : list str) :
  Forall (fun ab => fst ab <> snd ab) wrong ->
  keyboard c = flat_map (fun ab => [fst ab; snd ab]) wrong ++ k :: k :: rest ->
  get_verified_password c =
  (Next k,
   mkConsole (world c) rest
     (prompts c ++
      flat_map (fun _ => ["Enter password: "; "Confirm password: "]%string) wrong ++
      ["Enter password: "; "Confirm password: "]%string)
     (stdout c)
     (stderr c ++ map (fun _ => lit "Passwords do not match. Please try again.") wrong)).
Proof.
  intros Hw Hkb. unfold get_verified_password.
  apply get_verified_password_loop_rounds; [assumption | assumption |].
  rewrite Hkb, length_app.
  rewrite (flat_map_length_const' _ 2) by reflexivity. cbn [List.length]. lia.
Qed.

(** X10.  [get_verified_password] returns the first password that was
    typed twice in a row at an even position: after any number of rounds
    whose two entries differ, each answered with one line on the error
    stream, the round with two equal entries ends the loop, and the rest
    of the keyboard is left unread. *)
Theorem get_verified_password_rounds (wrong : list (str * str)) (c : Console) (k : str)
    (rest : list str) :
  Forall (fun ab => fst ab <> snd ab) wrong ->
  keyboard c = flat_map (fun ab => [fst ab; snd ab]) wrong ++ k :: k :: rest ->
  get_verified_password c =
  (Next k,
   mkConsole (world c) rest
     (prompts c ++
      flat_map (fun _ => ["Enter password: "; "Confirm password: "]%string) wrong ++
      ["Enter password: "; "Confirm password: "]%string)
     (stdout c)
     (stderr c ++ map (fun _ => lit "Passwords do not match. Please try again.") wrong)).
Proof. apply get_verified_password_run. Qed.

Lemma get_verified_password_rounds_witness :
  get_verified_password
    (console_with [lit "horse"; lit "hores"; lit "correct horse"; lit "correct horse"]) =
  (Next (lit "correct horse"),
   mkConsole counting_world []
     ["Enter password: "; "Confirm password: "; "Enter password: "; "Confirm password: "]%string
     [] [lit "Passwords do not match. Please try again."]).
Proof.
  apply (get_verified_password_rounds [(lit "horse", lit "hores")]
           (console_with [lit "horse"; lit "hores"; lit "correct horse"; lit "correct horse"])
           (lit "correct horse") []).
  - repeat constructor. discriminate.
  - reflexivity.
Defined.

(** [main] once the input is known, in the two modes. *)
Lemma main_input (argv0 mode input : str) (stdin_isatty : bool) (stdin : str) :
  main argv0 [mode; input] stdin_isatty stdin =
  except_CryptException
    (if str_eqb mode (lit "encrypt") then
       cli_bind get_verified_password (fun password =>
       cli_bind (call (encrypt input password)) (fun encrypted => print encrypted))
     else if str_eqb mode (lit "decrypt") then
       cli_bind (getpass "Enter password: ") (fun password =>
       cli_bind (call (decrypt input password)) (fun decrypted => print decrypted))
     else
       cli_bind (print (lit "Invalid mode. Use 'encrypt' or 'decrypt'.")) (fun _ => sys_exit 1))
    (fun msg => cli_bind (print_err (lit "Error: " ++ lit msg)) (fun _ => sys_exit 1)).
Proof. reflexivity. Qed.

Lemma main_piped (argv0 mode : str) (stdin : str) :
  main argv0 [mode] false stdin = main argv0 [mode; strip stdin] true [].
Proof. reflexivity. Qed.

Lemma main_decrypt_mode (argv0 text : str) (stdin_isatty : bool) (stdin : str)
    (c : Console) (k : str) (rest : list str) :
  keyboard c = k :: rest ->
  main argv0 [lit "decrypt"; text] stdin_isatty stdin c =
  let after w' out err :=
    mkConsole w' rest (prompts c ++ ["Enter password: "%string]) out err in
  match decrypt text k (world c) with
  | (Return s, w') => (Next tt, after w' (stdout c ++ [s]) (stderr c))
  | (Raise (CryptException msg), w') =>
      (Stop (SystemExit 1), after w' (stdout c) (stderr c ++ [lit "Error: " ++ lit msg]))
  | (Raise e, w') => (Stop (Uncaught e), after w' (stdout c) (stderr c))
  end.
Proof.
  intros H. rewrite main_input.
  change (str_eqb (lit "decrypt") (lit "encrypt")) with false.
  change (str_eqb (lit "decrypt") (lit "decrypt")) with true. cbv iota.
  unfold except_CryptException, cli_bind at 1, getpass. rewrite H.
  unfold cli_bind at 1, call. cbn [world keyboard prompts stdout stderr].
  destruct (decrypt text k (world c)) as [[s|e] w'].
  - reflexivity.
  - destruct e; reflexivity.
Qed.

Lemma main_encrypt_mode (argv0 input : str) (stdin_isatty : bool) (stdin : str)
    (c : Console) (k : str) (rest : list str) :
  keyboard c = k :: k :: rest ->
  main argv0 [lit "encrypt"; input] stdin_isatty stdin c =
  let after w' out err :=
    mkConsole w' rest (prompts c ++ ["Enter password: "; "Confirm password: "]%string)
              out err in
  match encrypt input k (world c) with
  | (Return s, w') => (Next tt, after w' (stdout c ++ [s]) (stderr c))
  | (Raise (CryptException msg), w') =>
      (Stop (SystemExit 1), after w' (stdout c) (stderr c ++ [lit "Error: " ++ lit msg]))
  | (Raise e, w') => (Stop (Uncaught e), after w' (stdout c) (stderr c))
  end.
Proof.
  intros H. rewrite main_input.
  change (str_eqb (lit "encrypt") (lit "encrypt")) with true. cbv iota.
  unfold except_CryptException, cli_bind at 1.
  rewrite (get_verified_password_run [] c k rest (Forall_nil _) H).
  cbn [flat_map map app]. rewrite app_nil_r.
  unfold cli_bind at 1, call. cbn [world keyboard prompts stdout stderr].
  destruct (encrypt input k (world c)) as [[s|e] w'].
  - reflexivity.
  - destruct e; reflexivity.
Qed.

(** X11.  With no argument or with more than two, [main] prints the two
    usage lines and exits with status 1; it reads no input and asks for
    no password. *)
Theorem main_usage (argv0 : str) (args : list str) (stdin_isatty : bool) (stdin : str)
    (c : Console) :
  args = [] \/ (2 < List.length args)%nat ->
  main argv0 args stdin_isatty stdin c =
  (Stop (SystemExit 1),
   mkConsole (world c) (keyboard c) (prompts c)
     (stdout c ++
      [[10%N] ++ lit "Usage: " ++ argv0 ++ lit " {encrypt|decrypt} [<string>]";
       [10%N] ++
       lit "If no string is provided as an argument, input will be read from stdin." ++
       [10%N]])
     (stderr c)).
Proof.
  intros H. unfold main.
  assert (E : ((S (List.length args) <? 2) || (3 <? S (List.length args)))%nat = true).
  { destruct H as [-> | H]; [reflexivity|].
    apply orb_true_iff. right. apply Nat.ltb_lt. lia. }
  rewrite E. unfold cli_bind, print, sys_exit. cbn [world keyboard prompts stdout stderr].
  now rewrite <- app_assoc.
Qed.

Lemma main_usage_witness :
  fst (main (lit "crypt.py") [] true [] (console_with [])) = Stop (SystemExit 1).
Proof.
  rewrite (main_usage (lit "crypt.py") [] true [] (console_with []) (or_introl eq_refl)).
  reflexivity.
Defined.

(** X12.  The two modes compose: [encrypt] with a non-empty argument and
    a non-empty password typed twice prints one line, the envelope text,
    and ends normally; [decrypt] with that line as its argument and the
    password typed once prints the plaintext and ends normally. *)
Theorem main_round_trip (argv0 p k : str) (isatty1 isatty2 : bool) (stdin1 stdin2 : str)
    (c c' : Console) (rest rest' : list str) :
  p <> [] -> k <> [] -> encodable p = true -> encodable k = true ->
  keyboard c = k :: k :: rest ->
  keyboard c' = k :: rest' ->
  exists text,
    main argv0 [lit "encrypt"; p] isatty1 stdin1 c =
      (Next tt,
       mkConsole (after_encrypt (world c)) rest
         (prompts c ++ ["Enter password: "; "Confirm password: "]%string)
         (stdout c ++ [text]) (stderr c)) /\
    main argv0 [lit "decrypt"; text] isatty2 stdin2 c' =
      (Next tt,
       mkConsole (after_decrypt (world c')) rest'
         (prompts c' ++ ["Enter password: "%string])
         (stdout c' ++ [p]) (stderr c')).
Proof.
  intros Hp Hk Ep Ek Hc Hc'.
  eexists. split.
  - rewrite (main_encrypt_mode argv0 p isatty1 stdin1 c k rest Hc).
    rewrite (encrypt_run p k (world c) Hp Hk Ep Ek). reflexivity.
  - rewrite (main_decrypt_mode argv0 _ isatty2 stdin2 c' k rest' Hc').
    rewrite decrypt_sealed; auto using fresh_salt_length, fresh_iv_length.
    + now rewrite gcm_decrypt_encrypt, opened_utf8.
    + rewrite gcm_encrypt_length. pose proof (utf8_length_pos p Hp). lia.
Qed.

Lemma main_round_trip_witness :
  exists text,
    main (lit "crypt.py") [lit "decrypt"; text] true []
         (console_with [lit "correct horse"]) =
      (Next tt,
       mkConsole (after_decrypt counting_world) [] ["Enter password: "%string]
         [lit "hello world"] []).
Proof.
  assert (Hp : lit "hello world" <> []) by discriminate.
  assert (Hk : lit "correct horse" <> []) by discriminate.
  assert (Ep : encodable (lit "hello world") = true) by reflexivity.
  assert (Ek : encodable (lit "correct horse") = true) by reflexivity.
  destruct (main_round_trip (lit "crypt.py") (lit "hello world") (lit "correct horse")
              true true [] []
              (console_with [lit "correct horse"; lit "correct horse"])
              (console_with [lit "correct horse"]) [] [] Hp Hk Ep Ek eq_refl eq_refl)
    as (text & _ & H).
  exists text. exact H.
Defined.

Lemma decrypt_outcome (text password : str) (w : World) :
  (exists s w', decrypt text password w = (Return s, w')) \/
  (exists msg w',
     decrypt text password w = (Raise (CryptException ("Decryption failed: " ++ msg)), w')).
Proof.
  unfold decrypt, try_except.
  destruct (decrypt_try text password w) as [[s|e] w'].
  - left. eauto.
  - right. destruct e; eexists _, _; reflexivity.
Qed.

(** X13.  In [decrypt] mode, once a password has been typed, [main]
    ends in one of two ways whatever the text is: it prints the string
    that [decrypt] returned and ends normally, or it prints one line
    ["Error: Decryption failed: ..."] on the error stream and exits with
    status 1.  No exception of the codec escapes. *)
Theorem main_decrypt_ends (argv0 text : str) (stdin_isatty : bool) (stdin : str)
    (c : Console) (k : str) (rest : list str) :
  keyboard c = k :: rest ->
  (exists s w',
     decrypt text k (world c) = (Return s, w') /\
     main argv0 [lit "decrypt"; text] stdin_isatty stdin c =
       (Next tt,
        mkConsole w' rest (prompts c ++ ["Enter password: "%string])
          (stdout c ++ [s]) (stderr c))) \/
  (exists msg w',
     decrypt text k (world c) =
       (Raise (CryptException ("Decryption failed: " ++ msg)), w') /\
     main argv0 [lit "decrypt"; text] stdin_isatty stdin c =
       (Stop (SystemExit 1),
        mkConsole w' rest (prompts c ++ ["Enter password: "%string])
          (stdout c)
          (stderr c ++ [lit "Error: " ++ lit ("Decryption failed: " ++ msg)]))).
Proof.
  intros H.
  rewrite (main_decrypt_mode argv0 text stdin_isatty stdin c k rest H).
  destruct (decrypt_outcome text k (world c)) as [(s & w' & E) | (msg & w' & E)];
    rewrite E; [left | right]; eauto.
Qed.

Lemma main_decrypt_ends_witness :
  main (lit "crypt.py") [lit "decrypt"; lit "a"] true [] (console_with [lit "correct horse"]) =
  (Stop (SystemExit 1),
   mkConsole counting_world [] ["Enter password: "%string] []
     [lit "Error: Decryption failed: Invalid base64-encoded string: number of data characters (1) cannot be 1 more than a multiple of 4"]).
Proof.
  destruct (main_decrypt_ends (lit "crypt.py") (lit "a") true []
              (console_with [lit "correct horse"]) (lit "correct horse") [] eq_refl)
    as [(s & w' & E & _) | (msg & w' & E & H)].
  - vm_compute in E. discriminate.
  - rewrite H. vm_compute in E. inversion E. reflexivity.
Defined.

(** X14.  In [encrypt] mode [main] catches only [CryptException]: with
    a password typed twice, an empty input or an empty password gives the
    line ["Error: Plaintext and password cannot be empty"] and status 1,
    after the password has been asked for, while text that has no UTF-8
    encoding ends the program with the uncaught [UnicodeEncodeError] of
    [encrypt] and nothing printed. *)
Theorem main_encrypt_failures (argv0 input : str) (stdin_isatty : bool) (stdin : str)
    (c : Console) (k : str) (rest : list str) :
  keyboard c = k :: k :: rest ->
  let after w' out err :=
    mkConsole w' rest (prompts c ++ ["Enter password: "; "Confirm password: "]%string)
              out err in
  (input = [] \/ k = [] ->
   main argv0 [lit "encrypt"; input] stdin_isatty stdin c =
     (Stop (SystemExit 1),
      after (world c) (stdout c)
        (stderr c ++ [lit "Error: Plaintext and password cannot be empty"]))) /\
  (input <> [] -> k <> [] -> encodable k && encodable input = false ->
   exists msg w',
     main argv0 [lit "encrypt"; input] stdin_isatty stdin c =
       (Stop (Uncaught (UnicodeEncodeError msg)), after w' (stdout c) (stderr c))).
Proof.
  intros H after. split.
  - intros He. rewrite (main_encrypt_mode argv0 input stdin_isatty stdin c k rest H).
    assert (E : encrypt input k (world c) =
                (Raise (CryptException "Plaintext and password cannot be empty"), world c)).
    { unfold encrypt. destruct He as [-> | ->]; [reflexivity|]. destruct input; reflexivity. }
    rewrite E. reflexivity.
  - intros Hi Hk Hbad. rewrite (main_encrypt_mode argv0 input stdin_isatty stdin c k rest H).
    destruct (encrypt_unencodable_aux input k (world c) Hi Hk Hbad) as (msg & E).
    rewrite E. eexists _, _. reflexivity.
Qed.

Lemma main_encrypt_failures_witness :
  main (lit "crypt.py") [lit "encrypt"; []] true [] (console_with [lit "k"; lit "k"]) =
  (Stop (SystemExit 1),
   mkConsole counting_world [] ["Enter password: "; "Confirm password: "]%string []
     [lit "Error: Plaintext and password cannot be empty"]).
Proof.
  exact (proj1 (main_encrypt_failures (lit "crypt.py") [] true []
                  (console_with [lit "k"; lit "k"]) (lit "k") [] eq_refl)
               (or_introl eq_refl)).
Defined.

Lemma lstrip_spaces (s : str) : forallb is_space s = true -> lstrip s = [].
Proof.
  induction s as [|c s IH]; [reflexivity|]. cbn [forallb lstrip].
  intros H. apply andb_true_iff in H as [Hc Hs]. rewrite Hc. now apply IH.
Qed.

(** X15.  Input piped to [main] is stripped of the white space around
    it before it is used, as if the stripped text were the argument; so
    text made of white space only is an empty plaintext, which [encrypt]
    mode rejects (after the password has been typed twice). *)
Theorem main_piped_input (argv0 mode stdin : str) (c : Console) (k : str) (rest : list str) :
  keyboard c = k :: k :: rest ->
  main argv0 [mode] false stdin c = main argv0 [mode; strip stdin] true [] c /\
  (forallb is_space stdin = true ->
   main argv0 [lit "encrypt"] false stdin c =
     (Stop (SystemExit 1),
      mkConsole (world c) rest
        (prompts c ++ ["Enter password: "; "Confirm password: "]%string)
        (stdout c)
        (stderr c ++ [lit "Error: Plaintext and password cannot be empty"]))).
Proof.
  intros H. split; [now rewrite main_piped|].
  intros Hs. rewrite main_piped.
  assert (E : strip stdin = []) by (unfold strip; now rewrite (lstrip_spaces stdin Hs)).
  rewrite E, (main_encrypt_mode argv0 [] true [] c k rest H). reflexivity.
Qed.

Lemma main_piped_input_witness :
  main (lit "crypt.py") [lit "encrypt"] false [32%N; 10%N]
       (console_with [lit "k"; lit "k"]) =
  (Stop (SystemExit 1),
   mkConsole counting_world [] ["Enter password: "; "Confirm password: "]%string []
     [lit "Error: Plaintext and password cannot be empty"]).
Proof.
  exact (proj2 (main_piped_input (lit "crypt.py") (lit "encrypt") [32%N; 10%N]
                  (console_with [lit "k"; lit "k"]) (lit "k") [] eq_refl) eq_refl).
Defined.

(** X16.  [main] looks for its input before it looks at the mode: with
    one argument and a terminal as standard input it reports that no
    input was provided, whatever the mode; with input, a mode other than
    ["encrypt"] and ["decrypt"] is reported on the standard output.  Both
    exit with status 1 and no password is asked for. *)
Theorem main_bad_invocation (argv0 mode input stdin : str) (c : Console) :
  main argv0 [mode] true stdin c =
    (Stop (SystemExit 1),
     mkConsole (world c) (keyboard c) (prompts c) (stdout c)
       (stderr c ++ [lit "Error: No input provided (use argument or pipe data to stdin)"])) /\
  (mode <> lit "encrypt" -> mode <> lit "decrypt" ->
   main argv0 [mode; input] true stdin c =
     (Stop (SystemExit 1),
      mkConsole (world c) (keyboard c) (prompts c)
        (stdout c ++ [lit "Invalid mode. Use 'encrypt' or 'decrypt'."]) (stderr c)) /\
   main argv0 [mode] false stdin c =
     (Stop (SystemExit 1),
      mkConsole (world c) (keyboard c) (prompts c)
        (stdout c ++ [lit "Invalid mode. Use 'encrypt' or 'decrypt'."]) (stderr c))).
Proof.
  split; [reflexivity|].
  intros He Hd.
  assert (H : forall i b s,
             main argv0 [mode; i] b s c =
             (Stop (SystemExit 1),
              mkConsole (world c) (keyboard c) (prompts c)
                (stdout c ++ [lit "Invalid mode. Use 'encrypt' or 'decrypt'."]) (stderr c))).
  { intros i b s. rewrite main_input.
    rewrite (str_eqb_neq _ _ He), (str_eqb_neq _ _ Hd). reflexivity. }
  split; [apply H|]. rewrite main_piped. apply H.
Qed.

Lemma main_bad_invocation_witness :
  main (lit "crypt.py") [lit "verify"; lit "hello"] true [] (console_with []) =
  (Stop (SystemExit 1),
   mkConsole counting_world [] [] [lit "Invalid mode. Use 'encrypt' or 'decrypt'."] []).
Proof.
  apply (main_bad_invocation (lit "crypt.py") (lit "verify") (lit "hello") []
           (console_with [])); discriminate.
Defined.

(** * [cli/codegen/code_generator.py] *)

Import Script CodeGenerator.

(** ** The shift and mask steps as arithmetic *)

Lemma lor_shiftl_5 (bits v : N) :
  (v < 32)%N -> N.lor (N.shiftl bits 5) v = (bits * 32 + v)%N.
Proof.
  intros Hv.
  assert (E : N.land (N.shiftl bits 5) v = 0%N).
  { apply N.bits_inj. intros i. rewrite N.land_spec, N.bits_0.
    destruct (N.lt_ge_cases i 5) as [Hi|Hi].
    - now rewrite N.shiftl_spec_low.
    - replace (N.testbit v i) with false; [apply andb_false_r|].
      symmetry. destruct (N.eq_dec v 0) as [->|Hv0]; [apply N.bits_0|].
      apply N.bits_above_log2. apply N.lt_le_trans with 5%N; [|exact Hi].
      apply N.log2_lt_pow2; [lia|exact Hv]. }
  rewrite <- N.lxor_lor by exact E.
  rewrite <- N.add_nocarry_lxor by exact E.
  now rewrite N.shiftl_mul_pow2.
Qed.

Lemma land_255 (x : N) : N.land x 255 = (x mod 256)%N.
Proof. change 255%N with (N.ones 8). now rewrite N.land_ones. Qed.

Lemma b32_index (v : N) :
  (v < 32)%N -> index alphabet (b32 v) = Some (N.to_nat v).
Proof.
  intros Hv.
  assert (Hall : forallb (fun i =>
            match index alphabet (b32 (N.of_nat i)) with
            | Some j => (j =? i)%nat
            | None => false
            end) (seq 0 32) = true) by (vm_compute; reflexivity).
  rewrite forallb_forall in Hall.
  specialize (Hall (N.to_nat v)). rewrite N2Nat.id in Hall.
  assert (Hin : In (N.to_nat v) (seq 0 32)) by (apply in_seq; lia).
  specialize (Hall Hin).
  destruct (index alphabet (b32 v)) as [j|]; [|discriminate].
  apply Nat.eqb_eq in Hall. now subst j.
Qed.

(** One character of the alphabet through the loop. *)
Lemma base32_loop_b32 (v : N) (rest : str) (bits : N) (bit_count : nat) (out : bytes) :
  (v < 32)%N ->
  base32_loop (b32 v :: rest) bits bit_count out =
  if (8 <=? bit_count + 5)%nat then
    base32_loop rest (bits * 32 + v) (bit_count + 5 - 8)
      (out ++ [byte_of_N (((bits * 32 + v) / 2 ^ N.of_nat (bit_count + 5 - 8)) mod 256)])
  else base32_loop rest (bits * 32 + v) (bit_count + 5) out.
Proof.
  intros Hv. cbn [base32_loop]. rewrite (b32_index v Hv).
  rewrite N2Nat.id, (lor_shiftl_5 bits v Hv).
  destruct (8 <=? bit_count + 5)%nat; [|reflexivity].
  change 0xFF%N with 255%N. now rewrite land_255, N.shiftr_div_pow2.
Qed.

Ltac euclid_lia := zify; Z.to_euclidean_division_equations; lia.

Ltac pow2_numerals :=
  repeat match goal with
  | |- context [(2 ^ N.of_nat ?k)%N] =>
      let x := eval vm_compute in (2 ^ N.of_nat k)%N in
      change (2 ^ N.of_nat k)%N with x
  | |- context [N.of_nat ?k] =>
      let x := eval vm_compute in (N.of_nat k) in
      change (N.of_nat k) with x
  end.

Lemma index_lt (s : str) (c : N) (i : nat) :
  index s c = Some i -> (i < List.length s)%nat.
Proof.
  revert i. induction s as [|x s IH]; intros i; cbn [index List.length]; [discriminate|].
  destruct (x =? c)%N.
  - intros [= <-]. lia.
  - destruct (index s c) as [j|]; [|discriminate].
    intros [= <-]. specialize (IH j eq_refl). lia.
Qed.

(** Only the low [bit_count] bits of the accumulator are ever used. *)
Lemma base32_loop_mask (chars : str) :
  forall (bits : N) (bit_count : nat) (out : bytes),
  (bit_count < 8)%nat ->
  base32_loop chars bits bit_count out =
  base32_loop chars (bits mod 2 ^ N.of_nat bit_count) bit_count out.
Proof.
  induction chars as [|c chars IH]; intros bits k out Hk; [reflexivity|].
  cbn [base32_loop]. destruct (index alphabet c) as [i|] eqn:E; [|reflexivity].
  apply index_lt in E. change (List.length alphabet) with 32%nat in E.
  assert (Hv : (N.of_nat i < 32)%N) by lia.
  rewrite !lor_shiftl_5 by exact Hv. change 0xFF%N with 255%N.
  rewrite !land_255, !N.shiftr_div_pow2.
  generalize dependent (N.of_nat i). clear E i. intros v Hv.
  assert (Hcases : (k = 0 \/ k = 1 \/ k = 2 \/ k = 3 \/ k = 4 \/ k = 5 \/ k = 6 \/ k = 7)%nat)
    by lia.
  clear Hk.
  destruct Hcases as [->|[->|[->|[->|[->|[->|[->| ->]]]]]]];
    cbn [Nat.leb Nat.add Nat.sub];
    first [ rewrite (IH (bits * 32 + v)%N), (IH (_ mod _ * 32 + v)%N) by lia
          | idtac ];
    pow2_numerals.
  all: match goal with
       | |- base32_loop _ ?x _ (_ ++ [byte_of_N ?p]) = base32_loop _ ?y _ (_ ++ [byte_of_N ?q]) =>
           replace y with x by euclid_lia; replace q with p by euclid_lia; reflexivity
       | |- base32_loop _ ?x _ _ = base32_loop _ ?y _ _ =>
           replace y with x by euclid_lia; reflexivity
       end.
Qed.

Lemma list_ind5 {A} (P : list A -> Prop) :
  P [] -> (forall x, P [x]) -> (forall x y, P [x; y]) -> (forall x y z, P [x; y; z]) ->
  (forall x y z u, P [x; y; z; u]) ->
  (forall x y z u v l, P l -> P (x :: y :: z :: u :: v :: l)) ->
  forall l, P l.
Proof.
  intros H0 H1 H2 H3 H4 H5 l.
  enough (H : P l /\ (forall x, P (x :: l)) /\ (forall x y, P (x :: y :: l)) /\
              (forall x y z, P (x :: y :: z :: l)) /\
              (forall x y z u, P (x :: y :: z :: u :: l))) by apply H.
  induction l as [|a l (IH0 & IH1 & IH2 & IH3 & IH4)].
  - repeat split; auto.
  - repeat split; auto.
Qed.

(** A character that completes no byte, and one that completes a byte,
    with [m] the bits still in use. *)
Lemma base32_loop_keep (m v : N) (rest : str) (bits : N) (bit_count : nat) (out : bytes) :
  (v < 32)%N -> (bit_count < 3)%nat -> (bits mod 2 ^ N.of_nat bit_count = m)%N ->
  base32_loop (b32 v :: rest) bits bit_count out =
  base32_loop rest (m * 32 + v) (bit_count + 5) out.
Proof.
  intros Hv Hk Hm. rewrite base32_loop_b32 by exact Hv.
  replace (8 <=? bit_count + 5)%nat with false by (symmetry; apply Nat.leb_gt; lia).
  rewrite (base32_loop_mask rest (bits * 32 + v)), (base32_loop_mask rest (m * 32 + v)) by lia.
  subst m. f_equal.
  assert (Hcases : (bit_count = 0 \/ bit_count = 1 \/ bit_count = 2)%nat) by lia.
  destruct Hcases as [->|[->| ->]]; cbn [Nat.add]; pow2_numerals; euclid_lia.
Qed.

Lemma base32_loop_emit (m v : N) (rest : str) (bits : N) (bit_count : nat) (out : bytes) :
  (v < 32)%N -> (3 <= bit_count < 8)%nat -> (bits mod 2 ^ N.of_nat bit_count = m)%N ->
  base32_loop (b32 v :: rest) bits bit_count out =
  base32_loop rest (m * 32 + v) (bit_count - 3)
    (out ++ [byte_of_N ((m * 32 + v) / 2 ^ N.of_nat (bit_count - 3))]).
Proof.
  intros Hv Hk Hm. rewrite base32_loop_b32 by exact Hv.
  replace (8 <=? bit_count + 5)%nat with true by (symmetry; apply Nat.leb_le; lia).
  replace (bit_count + 5 - 8)%nat with (bit_count - 3)%nat by lia.
  rewrite (base32_loop_mask rest (bits * 32 + v)), (base32_loop_mask rest (m * 32 + v)) by lia.
  subst m.
  assert (Hcases : (bit_count = 3 \/ bit_count = 4 \/ bit_count = 5 \/ bit_count = 6 \/
                    bit_count = 7)%nat) by lia.
  destruct Hcases as [->|[->|[->|[->| ->]]]]; cbn [Nat.sub]; pow2_numerals;
    (f_equal; [euclid_lia | do 3 f_equal; euclid_lia]).
Qed.

Ltac b32_keep m :=
  rewrite (base32_loop_keep m) by (first [lia | pow2_numerals; euclid_lia]);
  cbn [Nat.add].

Ltac b32_emit m x :=
  rewrite (base32_loop_emit m) by (first [lia | pow2_numerals; euclid_lia]);
  cbn [Nat.sub]; pow2_numerals;
  match goal with
  | |- context [byte_of_N ?p] =>
      lazymatch p with
      | Byte.to_N _ => fail
      | _ => replace p with (Byte.to_N x) by euclid_lia; rewrite (byte_of_N_to_N x)
      end
  end.

(** Decoding inverts the RFC 4648 encoding, whatever the accumulator
    holds when the group starts. *)
Lemma base32_loop_b32encode (data : bytes) :
  forall (bits : N) (out : bytes),
  base32_loop (b32encode_body data) bits 0 out = Ok (out ++ data).
Proof.
  induction data as [|x|x y|x y z|x y z u|x y z u w l IH] using list_ind5; intros bits out;
    try pose proof (to_N_lt_256 x) as Hx; try pose proof (to_N_lt_256 y) as Hy;
    try pose proof (to_N_lt_256 z) as Hz; try pose proof (to_N_lt_256 u) as Hu;
    try pose proof (to_N_lt_256 w) as Hw;
    cbn [b32encode_body].
  - cbn. now rewrite app_nil_r.
  - b32_keep 0%N. b32_emit (Byte.to_N x / 8)%N x.
    reflexivity.
  - b32_keep 0%N. b32_emit (Byte.to_N x / 8)%N x.
    b32_keep (Byte.to_N y / 64)%N.
    b32_emit (Byte.to_N y / 64 * 32 + Byte.to_N y / 2 mod 32)%N y.
    cbn [base32_loop]. now rewrite <- !app_assoc.
  - b32_keep 0%N. b32_emit (Byte.to_N x / 8)%N x.
    b32_keep (Byte.to_N y / 64)%N.
    b32_emit (Byte.to_N y / 64 * 32 + Byte.to_N y / 2 mod 32)%N y.
    b32_emit (Byte.to_N z / 16)%N z.
    cbn [base32_loop]. now rewrite <- !app_assoc.
  - b32_keep 0%N. b32_emit (Byte.to_N x / 8)%N x.
    b32_keep (Byte.to_N y / 64)%N.
    b32_emit (Byte.to_N y / 64 * 32 + Byte.to_N y / 2 mod 32)%N y.
    b32_emit (Byte.to_N z / 16)%N z.
    b32_keep (Byte.to_N u / 128)%N.
    b32_emit (Byte.to_N u / 128 * 32 + Byte.to_N u / 4 mod 32)%N u.
    cbn [base32_loop]. now rewrite <- !app_assoc.
  - b32_keep 0%N. b32_emit (Byte.to_N x / 8)%N x.
    b32_keep (Byte.to_N y / 64)%N.
    b32_emit (Byte.to_N y / 64 * 32 + Byte.to_N y / 2 mod 32)%N y.
    b32_emit (Byte.to_N z / 16)%N z.
    b32_keep (Byte.to_N u / 128)%N.
    b32_emit (Byte.to_N u / 128 * 32 + Byte.to_N u / 4 mod 32)%N u.
    b32_emit (Byte.to_N w / 32)%N w.
    rewrite IH, <- !app_assoc. reflexivity.
Qed.

Lemma base32_decode_loop (to_upper_full : N -> list N) (s : str) :
  base32_decode to_upper_full s =
  base32_loop (remove_char (ord "=") (upper to_upper_full s)) 0 0 [].
Proof. reflexivity. Qed.

Lemma b32_alphabet (v : N) : (v < 32)%N -> In (b32 v) alphabet.
Proof.
  intros Hv. unfold b32. apply nth_In. change (List.length alphabet) with 32%nat. lia.
Qed.

Lemma alphabet_chars (c : N) : In c alphabet -> (c < 91)%N /\ c <> ord "=" /\ is_space c = false.
Proof.
  intros Hc.
  assert (Hall : forallb (fun c => (c <? 91)%N && negb (c =? ord "=")%N && negb (is_space c))
                   alphabet = true) by (vm_compute; reflexivity).
  rewrite forallb_forall in Hall. specialize (Hall c Hc).
  apply andb_true_iff in Hall as [Hall H3]. apply andb_true_iff in Hall as [H1 H2].
  apply N.ltb_lt in H1. apply negb_true_iff in H2. apply N.eqb_neq in H2.
  apply negb_true_iff in H3. auto.
Qed.

Lemma b32encode_body_alphabet (data : bytes) :
  Forall (fun c => In c alphabet) (b32encode_body data).
Proof.
  induction data as [|x|x y|x y z|x y z u|x y z u w l IH] using list_ind5;
    try pose proof (to_N_lt_256 x) as Hx; try pose proof (to_N_lt_256 y) as Hy;
    try pose proof (to_N_lt_256 z) as Hz; try pose proof (to_N_lt_256 u) as Hu;
    try pose proof (to_N_lt_256 w) as Hw;
    cbn [b32encode_body];
    repeat (constructor; [apply b32_alphabet; euclid_lia|]); try constructor.
  exact IH.
Qed.

Lemma b32encode_body_nonempty (data : bytes) : data <> [] -> b32encode_body data <> [].
Proof.
  destruct data as [|x [|y [|z [|u [|w l]]]]]; cbn [b32encode_body]; congruence.
Qed.

Lemma ascii_upper_small (c : N) : (ascii_upper c < 91)%N -> (c < 128)%N.
Proof.
  unfold ascii_upper. destruct ((97 <=? c) && (c <=? 122))%N eqn:E.
  - apply andb_true_iff in E as [_ E]. apply N.leb_le in E. lia.
  - lia.
Qed.

(** A spelling, in any letter case, of text over the alphabet: its
    characters are ASCII, none is ['='] and none is white space. *)
Lemma spelling_chars (s body : str) :
  map ascii_upper s = body -> Forall (fun c => In c alphabet) body ->
  Forall (fun c => (c < 128)%N /\ is_space c = false) s.
Proof.
  intros <- H. rewrite Forall_map in H. apply Forall_impl with (2 := H).
  intros c Hc. destruct (alphabet_chars _ Hc) as (H1 & _ & H3).
  split; [now apply ascii_upper_small|].
  unfold ascii_upper in H3. destruct ((97 <=? c) && (c <=? 122))%N eqn:E; [|exact H3].
  apply andb_true_iff in E as [E1 E2]. apply N.leb_le in E1. apply N.leb_le in E2.
  unfold is_space.
  repeat match goal with
  | |- context [(?a <=? c)%N] =>
      let b := fresh in destruct (N.leb_spec a c) as [b|b]; try lia
  | |- context [(c <=? ?a)%N] =>
      let b := fresh in destruct (N.leb_spec c a) as [b|b]; try lia
  | |- context [(c =? ?a)%N] =>
      let b := fresh in destruct (N.eqb_spec c a) as [b|b]; try lia
  end; reflexivity.
Qed.

Section AsciiUpper.
Variable to_upper_full : N -> list N.
Hypothesis to_upper_ascii : forall c, (c < 128)%N -> to_upper_full c = [ascii_upper c].

Lemma upper_ascii (s : str) :
  Forall (fun c => (c < 128)%N) s -> upper to_upper_full s = map ascii_upper s.
Proof.
  induction 1 as [|c s Hc _ IH]; [reflexivity|].
  unfold upper in *. cbn [flat_map map]. now rewrite IH, to_upper_ascii.
Qed.

Lemma upper_pads (n : nat) :
  upper to_upper_full (repeat (ord "=") n) = repeat (ord "=") n.
Proof.
  rewrite upper_ascii.
  - induction n as [|n IH]; [reflexivity|]. cbn [repeat map]. now rewrite IH.
  - apply Forall_forall. intros c Hc. apply repeat_spec in Hc. subst c. reflexivity.
Qed.

Lemma base32_chars_spelling (s : str) (data : bytes) (n : nat) :
  map ascii_upper s = b32encode_body data ->
  remove_char (ord "=") (upper to_upper_full (s ++ repeat (ord "=") n)) =
  b32encode_body data.
Proof.
  intros Hs.
  pose proof (spelling_chars s _ Hs (b32encode_body_alphabet data)) as Hchars.
  unfold upper. rewrite flat_map_app. fold (upper to_upper_full s).
  fold (upper to_upper_full (repeat (ord "=") n)).
  rewrite upper_pads, upper_ascii, Hs
    by (apply Forall_impl with (2 := Hchars); now intros c [H _]).
  unfold remove_char. rewrite filter_app.
  replace (filter _ (repeat (ord "=") n)) with (@nil N).
  - rewrite app_nil_r. apply forallb_filter_id. apply forallb_forall.
    intros c Hc. pose proof (b32encode_body_alphabet data) as Ha.
    rewrite Forall_forall in Ha. destruct (alphabet_chars c (Ha c Hc)) as (_ & H & _).
    apply negb_true_iff. now apply N.eqb_neq.
  - induction n as [|n IH]; [reflexivity|]. cbn [repeat filter].
    rewrite N.eqb_refl. exact IH.
Qed.
End AsciiUpper.

(** ** [base32_decode] *)

(** X17.  [base32_decode] inverts the RFC 4648 encoding: the base32 text
    of any bytes, spelled in upper or lower case or a mix of them and
    followed by any number of ['='], decodes to those bytes.  (Of the
    interpreter's upper-case tables only their ASCII part is used.) *)
Theorem base32_decode_b32encode (to_upper_full : N -> list N) (data : bytes)
    (s : str) (n : nat) :
  (forall c, (c < 128)%N -> to_upper_full c = [ascii_upper c]) ->
  map ascii_upper s = b32encode_body data ->
  base32_decode to_upper_full (s ++ repeat (ord "=") n) = Ok data.
Proof.
  intros Hup Hs. rewrite base32_decode_loop, (base32_chars_spelling _ Hup s data n Hs).
  apply (base32_loop_b32encode data 0%N []).
Qed.

Lemma base32_decode_b32encode_witness :
  base32_decode (fun c => [ascii_upper c]) (lit "mZxw6Ytb" ++ repeat (ord "=") 3) =
  Ok (map byte_of_N (lit "fooba")).
Proof.
  apply (base32_decode_b32encode (fun c => [ascii_upper c]) (map byte_of_N (lit "fooba"))
           (lit "mZxw6Ytb") 3).
  - reflexivity.
  - vm_compute. reflexivity.
Defined.

Lemma base32_loop_invalid (pre : str) (c : N) (post : str) :
  Forall (fun x => index alphabet x <> None) pre -> index alphabet c = None ->
  forall (bits : N) (bit_count : nat) (out : bytes),
  base32_loop (pre ++ c :: post) bits bit_count out =
  Err (ValueError (lit "Invalid base32 character: " ++ [c])).
Proof.
  intros Hpre Hc. induction Hpre as [|x pre Hx _ IH]; intros bits k out.
  - cbn [app base32_loop]. now rewrite Hc.
  - cbn [app base32_loop]. destruct (index alphabet x) as [i|]; [|congruence].
    destruct (8 <=? k + 5)%nat; apply IH.
Qed.

(** X18.  [base32_decode] fails at the first character that, once the
    text is in upper case and its ['='] are dropped, is not in the
    alphabet: a [ValueError] that names that (upper-case) character. *)
Theorem base32_decode_invalid (to_upper_full : N -> list N) (s pre : str) (c : N)
    (post : str) :
  remove_char (ord "=") (upper to_upper_full s) = pre ++ c :: post ->
  Forall (fun x => index alphabet x <> None) pre ->
  index alphabet c = None ->
  base32_decode to_upper_full s =
  Err (ValueError (lit "Invalid base32 character: " ++ [c])).
Proof.
  intros Hs Hpre Hc. rewrite base32_decode_loop, Hs.
  now apply base32_loop_invalid.
Qed.

Lemma base32_decode_invalid_witness :
  base32_decode (fun c => [ascii_upper c]) (lit "mz=x1w6y") =
  Err (ValueError (lit "Invalid base32 character: 1")).
Proof.
  apply (base32_decode_invalid (fun c => [ascii_upper c]) (lit "mz=x1w6y") (lit "MZX")
           (ord "1") (lit "W6Y")).
  - reflexivity.
  - repeat constructor; discriminate.
  - reflexivity.
Defined.

Lemma base32_loop_length (chars : str) :
  Forall (fun x => index alphabet x <> None) chars ->
  forall (bits : N) (bit_count : nat) (out : bytes),
  (bit_count < 8)%nat ->
  exists data,
    base32_loop chars bits bit_count out = Ok data /\
    List.length data = (List.length out + (bit_count + 5 * List.length chars) / 8)%nat.
Proof.
  induction 1 as [|x chars Hx _ IH]; intros bits k out Hk.
  - exists out. split; [reflexivity|]. cbn [List.length]. rewrite Nat.div_small; lia.
  - cbn [base32_loop]. destruct (index alphabet x) as [i|]; [|congruence].
    destruct (Nat.leb_spec 8 (k + 5)) as [H8|H8].
    + destruct (IH (N.lor (N.shiftl bits 5) (N.of_nat i)) (k + 5 - 8)%nat
                 (out ++ [byte_of_N (N.land (N.shiftr (N.lor (N.shiftl bits 5) (N.of_nat i))
                                                      (N.of_nat (k + 5 - 8))) 0xFF)]))
        as (data & E & L); [lia|].
      exists data. split; [exact E|]. rewrite L, length_app. cbn [List.length].
      replace (k + 5 * S (List.length chars))%nat
        with (k + 5 - 8 + 5 * List.length chars + 1 * 8)%nat by lia.
      rewrite Nat.div_add by lia. lia.
    + destruct (IH (N.lor (N.shiftl bits 5) (N.of_nat i)) (k + 5)%nat out)
        as (data & E & L); [lia|].
      exists data. split; [exact E|]. rewrite L. cbn [List.length].
      do 2 f_equal. lia.
Qed.

(** X19.  [base32_decode] checks nothing but the alphabet: text whose
    characters, in upper case and without ['='], are all in the alphabet
    always decodes, whatever its length, padding or last bits, to one byte
    for every eight bits complete; the bits left over are dropped. *)
Theorem base32_decode_lenient (to_upper_full : N -> list N) (s : str) :
  Forall (fun x => index alphabet x <> None) (remove_char (ord "=") (upper to_upper_full s)) ->
  exists data,
    base32_decode to_upper_full s = Ok data /\
    List.length data =
      (5 * List.length (remove_char (ord "=") (upper to_upper_full s)) / 8)%nat.
Proof.
  intros H. rewrite base32_decode_loop.
  destruct (base32_loop_length _ H 0%N 0%nat []) as (data & E & L); [lia|].
  exists data. split; [exact E|]. rewrite L. reflexivity.
Qed.

Lemma base32_decode_lenient_witness :
  exists data,
    base32_decode (fun c => [ascii_upper c]) (lit "=7=a7") = Ok data /\
    List.length data = 1%nat.
Proof.
  apply (base32_decode_lenient (fun c => [ascii_upper c]) (lit "=7=a7")).
  repeat constructor; discriminate.
Defined.

(** ** [generate_totp] *)

(** RFC 6238, appendix B, the SHA-1 rows (six digits of the eight). *)
Example totp_rfc6238 :
  let secret := map byte_of_N (lit "12345678901234567890") in
  generate_totp secret (Some 59%Z) 0 = Ok (lit "287082") /\
  generate_totp secret (Some 1111111109%Z) 0 = Ok (lit "081804") /\
  generate_totp secret (Some 1234567890%Z) 0 = Ok (lit "005924") /\
  generate_totp secret None 2000000000 = Ok (lit "279037") /\
  generate_totp secret (Some 20000000000%Z) 0 = Ok (lit "353130").
Proof. vm_compute. repeat split; reflexivity. Qed.







Arguments hmac_with : simpl never.
Arguments SHA1.sha1 : simpl never.
Arguments format_06d : simpl never.








(** ** [read_secret_bytes] *)

Lemma lstrip_spaces_app (ws t : str) :
  forallb is_space ws = true -> lstrip (ws ++ t) = lstrip t.
Proof.
  induction ws as [|c ws IH]; [reflexivity|]. cbn [forallb app lstrip].
  intros H. apply andb_true_iff in H as [Hc Hs]. rewrite Hc. now apply IH.
Qed.

Lemma lstrip_nonspace_app (t u : str) :
  t <> [] -> Forall (fun c => is_space c = false) t -> lstrip (t ++ u) = t ++ u.
Proof.
  intros Ht H. destruct H as [|c t Hc _]; [contradiction|].
  cbn [app lstrip]. now rewrite Hc.
Qed.

Lemma strip_spaces_around (ws1 t ws2 : str) :
  forallb is_space ws1 = true -> forallb is_space ws2 = true ->
  t <> [] -> Forall (fun c => is_space c = false) t ->
  strip (ws1 ++ t ++ ws2) = t.
Proof.
  intros H1 H2 Ht H. unfold strip.
  rewrite (lstrip_spaces_app ws1 _ H1), (lstrip_nonspace_app t ws2 Ht H).
  rewrite rev_app_distr, lstrip_spaces_app.
  - rewrite <- (app_nil_r (rev t)), lstrip_nonspace_app, app_nil_r.
    + apply rev_involutive.
    + intros E. apply (f_equal (@rev N)) in E. rewrite rev_involutive in E. now apply Ht.
    + now apply Forall_rev.
  - apply forallb_forall. intros c Hc. apply in_rev in Hc.
    rewrite forallb_forall in H2. now apply H2.
Qed.

Lemma mode_cases (m : N) :
  negb ((N.land m 0x1FF =? 0x180)%N || (N.land m 0x1FF =? 0x100)%N) = false ->
  N.land m 0x3F = 0%N.
Proof.
  intros H. apply negb_false_iff, orb_true_iff in H.
  replace (N.land m 0x3F) with (N.land (N.land m 0x1FF) 0x3F)
    by (rewrite <- N.land_assoc; reflexivity).
  destruct H as [H|H]; apply N.eqb_eq in H; rewrite H; reflexivity.
Qed.

(** X23.  A seed file of mode 600 or 400 (whatever its other mode bits
    above the permissions) that holds the RFC 4648 base32 text of a
    non-empty secret, in any letter case, with any padding and with white
    space before and after it, gives that secret. *)
Theorem read_secret_bytes_seed (to_upper_full : N -> list N) (fs : FileSystem)
    (filename : str) (file : File) (ws1 s ws2 : str) (n : nat) (data : bytes) :
  (forall c, (c < 128)%N -> to_upper_full c = [ascii_upper c]) ->
  fs filename = Some file ->
  N.land (st_mode file) 0x1FF = 0x180%N \/ N.land (st_mode file) 0x1FF = 0x100%N ->
  read file = Ok (ws1 ++ (s ++ repeat (ord "=") n) ++ ws2) ->
  forallb is_space ws1 = true -> forallb is_space ws2 = true ->
  map ascii_upper s = b32encode_body data -> data <> [] ->
  read_secret_bytes to_upper_full fs filename = Ok data.
Proof.
  intros Hup Hfs Hmode Hread H1 H2 Hs Hdata. unfold read_secret_bytes.
  rewrite Hfs, Hread.
  replace (negb _) with false
    by (destruct Hmode as [-> | ->]; reflexivity).
  assert (Hne : s <> []).
  { intros ->. now apply (b32encode_body_nonempty data Hdata). }
  rewrite strip_spaces_around; try assumption.
  - destruct (s ++ repeat (ord "=") n) as [|c rest] eqn:E.
    + apply app_eq_nil in E as [E _]. contradiction.
    + rewrite <- E, base32_decode_loop, (base32_chars_spelling _ Hup s data n Hs).
      apply (base32_loop_b32encode data 0%N []).
  - intros E. apply app_eq_nil in E as [E _]. contradiction.
  - apply Forall_app. split.
    + pose proof (spelling_chars s _ Hs (b32encode_body_alphabet data)) as Hc.
      apply Forall_impl with (2 := Hc). now intros c [_ H].
    + apply Forall_forall. intros c Hc. apply repeat_spec in Hc. subst c. reflexivity.
Qed.

Lemma read_secret_bytes_seed_witness :
  read_secret_bytes (fun c => [ascii_upper c])
    (fun name => if str_eqb name (lit "seed.txt")
                 then Some (mkFile 0x8180 (Ok (lit " mzxw6ytb==" ++ [10%N])))
                 else None)
    (lit "seed.txt") = Ok (map byte_of_N (lit "fooba")).
Proof.
  apply (read_secret_bytes_seed (fun c => [ascii_upper c]) _ (lit "seed.txt")
           (mkFile 0x8180 (Ok (lit " mzxw6ytb==" ++ [10%N])))
           (lit " ") (lit "mzxw6ytb") [10%N] 2 (map byte_of_N (lit "fooba"))).
  - reflexivity.
  - reflexivity.
  - left. reflexivity.
  - reflexivity.
  - reflexivity.
  - reflexivity.
  - vm_compute. reflexivity.
  - discriminate.
Defined.

(** X24.  A seed file that its group or others can read, write or
    execute is refused before anything is read from it: the result is the
    [PermissionError], whatever the file holds and whether or not it can
    be read. *)
Theorem read_secret_bytes_permissions (to_upper_full : N -> list N) (fs : FileSystem)
    (filename : str) (file : File) :
  fs filename = Some file ->
  N.land (st_mode file) 0x3F <> 0%N ->
  read_secret_bytes to_upper_full fs filename =
  Err (PermissionError (filename ++ lit " has insecure permissions (must be 600 or 400)")).
Proof.
  intros Hfs Hmode. unfold read_secret_bytes. rewrite Hfs.
  destruct (negb _) eqn:E; [reflexivity|].
  apply mode_cases in E. contradiction.
Qed.

Lemma read_secret_bytes_permissions_witness :
  read_secret_bytes (fun c => [ascii_upper c])
    (fun _ => Some (mkFile 0x81A4 (Err (OtherError (lit "OSError") []))))
    (lit "seed.txt") =
  Err (PermissionError (lit "seed.txt has insecure permissions (must be 600 or 400)")).
Proof.
  apply (read_secret_bytes_permissions (fun c => [ascii_upper c])
           (fun _ => Some (mkFile 0x81A4 (Err (OtherError (lit "OSError") []))))
           (lit "seed.txt") (mkFile 0x81A4 (Err (OtherError (lit "OSError") [])))).
  - reflexivity.
  - discriminate.
Defined.

(** X25.  A seed file of white space only is refused as empty. *)
Theorem read_secret_bytes_blank (to_upper_full : N -> list N) (fs : FileSystem)
    (filename : str) (file : File) (text : str) :
  fs filename = Some file ->
  N.land (st_mode file) 0x1FF = 0x180%N \/ N.land (st_mode file) 0x1FF = 0x100%N ->
  read file = Ok text -> forallb is_space text = true ->
  read_secret_bytes to_upper_full fs filename =
  Err (ValueError (filename ++ lit " is empty")).
Proof.
  intros Hfs Hmode Hread Hs. unfold read_secret_bytes. rewrite Hfs, Hread.
  replace (negb _) with false
    by (destruct Hmode as [-> | ->]; reflexivity).
  unfold strip. now rewrite (lstrip_spaces text Hs).
Qed.

Lemma read_secret_bytes_blank_witness :
  read_secret_bytes (fun c => [ascii_upper c])
    (fun _ => Some (mkFile 0x8180 (Ok [32; 10]%N)))
    (lit "seed.txt") = Err (ValueError (lit "seed.txt is empty")).
Proof.
  apply (read_secret_bytes_blank (fun c => [ascii_upper c])
           (fun _ => Some (mkFile 0x8180 (Ok [32; 10]%N)))
           (lit "seed.txt") (mkFile 0x8180 (Ok [32; 10]%N)) [32; 10]%N).
  - reflexivity.
  - left. reflexivity.
  - reflexivity.
  - reflexivity.
Defined.

(** X26.  The emptiness check of [read_secret_bytes] is on the text, not
    on the secret: a file of ['='] signs only is accepted and gives the
    secret of no bytes. *)
Theorem read_secret_bytes_padding_only (to_upper_full : N -> list N) (fs : FileSystem)
    (filename : str) (file : File) (n : nat) :
  (forall c, (c < 128)%N -> to_upper_full c = [ascii_upper c]) ->
  fs filename = Some file ->
  N.land (st_mode file) 0x1FF = 0x180%N \/ N.land (st_mode file) 0x1FF = 0x100%N ->
  read file = Ok (repeat (ord "=") (S n)) ->
  read_secret_bytes to_upper_full fs filename = Ok [].
Proof.
  intros Hup Hfs Hmode Hread. unfold read_secret_bytes. rewrite Hfs, Hread.
  replace (negb _) with false
    by (destruct Hmode as [-> | ->]; reflexivity).
  assert (E : strip (repeat (ord "=") (S n)) = repeat (ord "=") (S n)).
  { pose proof (strip_spaces_around [] (repeat (ord "=") (S n)) []) as E.
    cbn [app] in E. rewrite app_nil_r in E. apply E; try reflexivity.
    - discriminate.
    - apply Forall_forall. intros c Hc. apply repeat_spec in Hc. subst c. reflexivity. }
  rewrite E. cbn [repeat].
  change (ord "=" :: repeat (ord "=") n) with ([] ++ repeat (ord "=") (S n)).
  rewrite base32_decode_loop, (base32_chars_spelling _ Hup [] [] (S n) eq_refl).
  reflexivity.
Qed.

Lemma read_secret_bytes_padding_only_witness :
  read_secret_bytes (fun c => [ascii_upper c])
    (fun _ => Some (mkFile 0x8100 (Ok (lit "==="))))
    (lit "seed.txt") = Ok [].
Proof.
  apply (read_secret_bytes_padding_only (fun c => [ascii_upper c])
           (fun _ => Some (mkFile 0x8100 (Ok (lit "==="))))
           (lit "seed.txt") (mkFile 0x8100 (Ok (lit "==="))) 2).
  - reflexivity.
  - reflexivity.
  - right. reflexivity.
  - reflexivity.
Defined.

(** * [cli/qr_parse.py] *)

Import QrParse.

Lemma lstrip_chars_all (chars s : str) :
  Forall (fun c => In c chars) s -> lstrip_chars chars s = [].
Proof.
  induction 1 as [|c s Hc _ IH]; [reflexivity|]. cbn [lstrip_chars].
  replace (existsb (N.eqb c) chars) with true; [exact IH|].
  symmetry. apply existsb_exists. exists c. split; [exact Hc|apply N.eqb_refl].
Qed.

Lemma lstrip_chars_spec (chars s : str) :
  exists junk,
    s = junk ++ lstrip_chars chars s /\
    Forall (fun c => In c chars) junk /\
    match lstrip_chars chars s with
    | [] => True
    | c :: _ => ~ In c chars
    end.
Proof.
  induction s as [|c s (junk & E & Hj & Hh)].
  - exists []. repeat split; constructor.
  - cbn [lstrip_chars]. destruct (existsb (N.eqb c) chars) eqn:Hc.
    + exists (c :: junk). split; [cbn [app]; now f_equal|]. split; [|exact Hh].
      constructor; [|exact Hj].
      apply existsb_exists in Hc as (x & Hx & Ex). apply N.eqb_eq in Ex. now subst x.
    + exists []. split; [reflexivity|]. split; [constructor|].
      intros Hin. assert (existsb (N.eqb c) chars = true); [|congruence].
      apply existsb_exists. exists c. split; [exact Hin|apply N.eqb_refl].
Qed.

(** X27.  The label of the URL is taken from the path with
    [lstrip("/totp/")], which drops leading characters out of the set
    ['/'], ['t'], ['o'], ['p'] and not a prefix: a URL whose path is made
    of these characters only is refused as having no name, whatever its
    parameters. *)
Theorem parse_totp_url_label_lost (urlparse : str -> Result ParseResult)
    (parse_qs : str -> list (str * list str)) (url : str) (parsed : ParseResult) :
  startswith (lit "otpauth://totp/") url = true ->
  urlparse url = Ok parsed ->
  Forall (fun c => In c (lit "/top")) (path parsed) ->
  parse_totp_url urlparse parse_qs url =
  Err (ValueError (lit "TOTP URL must include a name/label")).
Proof.
  intros Hs Hp Hpath. unfold parse_totp_url. rewrite Hs, Hp. cbn [negb].
  rewrite lstrip_chars_all; [reflexivity|].
  apply Forall_impl with (2 := Hpath). intros c Hc. cbn in Hc |- *. tauto.
Qed.

Lemma parse_totp_url_label_lost_witness :
  parse_totp_url (fun _ => Ok (mkParseResult (lit "/otto") (lit "secret=GEZDGNBV")))
    (fun _ => [(lit "secret", [lit "GEZDGNBV"])])
    (lit "otpauth://totp/otto?secret=GEZDGNBV") =
  Err (ValueError (lit "TOTP URL must include a name/label")).
Proof.
  apply (parse_totp_url_label_lost
           (fun _ => Ok (mkParseResult (lit "/otto") (lit "secret=GEZDGNBV")))
           (fun _ => [(lit "secret", [lit "GEZDGNBV"])])
           (lit "otpauth://totp/otto?secret=GEZDGNBV")
           (mkParseResult (lit "/otto") (lit "secret=GEZDGNBV"))).
  - reflexivity.
  - reflexivity.
  - repeat constructor; cbn; tauto.
Defined.

(** X28.  What a result of [parse_totp_url] guarantees: the URL starts
    with [otpauth://totp/] and is returned unchanged, the secret is the
    first value of the [secret] parameter and is not empty, the issuer is
    the first value of the [issuer] parameter if there is one, and the
    name is not empty and is the path without its longest prefix of
    characters out of ['/'], ['t'], ['o'], ['p'], so that it never starts
    with one of them. *)
Theorem parse_totp_url_result (urlparse : str -> Result ParseResult)
    (parse_qs : str -> list (str * list str)) (u : str) (r : TotpUrl) :
  parse_totp_url urlparse parse_qs u = Ok r ->
  startswith (lit "otpauth://totp/") u = true /\ url r = u /\
  exists parsed junk,
    urlparse u = Ok parsed /\
    path parsed = junk ++ name r /\
    Forall (fun c => In c (lit "/top")) junk /\
    (exists c rest, name r = c :: rest /\ ~ In c (lit "/top")) /\
    secret r <> [] /\
    first_value (parse_qs (query parsed)) (lit "secret") = Ok (Some (secret r)) /\
    first_value (parse_qs (query parsed)) (lit "issuer") = Ok (issuer r).
Proof.
  unfold parse_totp_url. destruct (startswith _ u) eqn:Hs; cbn [negb]; [|discriminate].
  destruct (urlparse u) as [parsed|e] eqn:Hp; [|discriminate].
  destruct (lstrip_chars_spec (lit "/totp/") (path parsed)) as (junk & E & Hj & Hh).
  destruct (lstrip_chars (lit "/totp/") (path parsed)) as [|c rest] eqn:Hn; [discriminate|].
  destruct (first_value (parse_qs (query parsed)) (lit "secret")) as [[[|c' s]|]|e] eqn:H1;
    try discriminate.
  destruct (first_value (parse_qs (query parsed)) (lit "issuer")) as [i|e] eqn:H2;
    [|discriminate].
  intros [= <-]. cbn [url name secret issuer].
  split; [reflexivity|]. split; [reflexivity|].
  exists parsed, junk. split; [reflexivity|]. split; [exact E|].
  split; [apply Forall_impl with (2 := Hj); intros x Hx; cbn in Hx |- *; tauto|].
  split; [exists c, rest; split; [reflexivity|]; intros Hin; apply Hh; cbn in Hin |- *; tauto|].
  split; [discriminate|]. split; [exact H1|exact H2].
Qed.

Lemma parse_totp_url_result_witness :
  let urlparse := fun _ : str => Ok (mkParseResult (lit "/tom") (lit "secret=GEZDGNBV")) in
  let parse_qs := fun _ : str => [(lit "secret", [lit "GEZDGNBV"])] in
  let u := lit "otpauth://totp/tom?secret=GEZDGNBV" in
  let r := mkTotpUrl (lit "m") None (lit "GEZDGNBV") u in
  parse_totp_url urlparse parse_qs u = Ok r /\
  startswith (lit "otpauth://totp/") u = true /\ url r = u /\
  exists parsed junk,
    urlparse u = Ok parsed /\
    path parsed = junk ++ name r /\
    Forall (fun c => In c (lit "/top")) junk /\
    (exists c rest, name r = c :: rest /\ ~ In c (lit "/top")) /\
    secret r <> [] /\
    first_value (parse_qs (query parsed)) (lit "secret") = Ok (Some (secret r)) /\
    first_value (parse_qs (query parsed)) (lit "issuer") = Ok (issuer r).
Proof.
  intros urlparse parse_qs u r. split; [reflexivity|].
  apply (parse_totp_url_result urlparse parse_qs u r). reflexivity.
Defined.
